(** * BandcampDownloader (Go port): page parsing, discography resolution,
      file-name sanitisation and the download manager.

    Go strings are byte sequences; they are modelled by [string] (a list of
    8-bit [ascii]).  Every pattern the program compiles is made of ASCII
    literals, ASCII classes and [.], so matching byte by byte selects the same
    text as matching rune by rune: the bytes of a multi-byte rune are all
    above 0x7f and are accepted by [.] and rejected by every literal. *)

From Stdlib Require Import ZArith QArith Qabs Ascii String List Lia Bool Arith.
From Stdlib Require Import DecimalString Qpower.
From Stdlib Require SpecFloat.
From Stdlib Require DecimalPos DecimalN DecimalFacts.
From stdpp Require Import base list strings gmap sets.

#[local] Set Warnings "-clear-no-such-hyp".

Local Open Scope string_scope.

(** ** Strings *)

Module Strings.

(** The double-quote character and a quoted literal. *)
Definition dq : string := String "034"%char "".
Definition quoted (s : string) : string := dq +:+ s +:+ dq.

(** [strings.HasPrefix], returning the remainder on success. *)
Fixpoint strip_prefix (p s : string) : option string :=
  match p with
  | "" => Some s
  | String a p' =>
      match s with
      | "" => None
      | String b s' => if Ascii.eqb a b then strip_prefix p' s' else None
      end
  end.

Definition HasPrefix (s p : string) : bool :=
  match strip_prefix p s with Some _ => true | None => false end.

(** [strings.Contains]. *)
Fixpoint Contains (s sub : string) : bool :=
  HasPrefix s sub ||
  match s with
  | "" => false
  | String _ s' => Contains s' sub
  end.

(** [strings.Index]: byte offset of the first occurrence, [None] for -1. *)
Fixpoint Index (s sub : string) : option nat :=
  if HasPrefix s sub then Some 0
  else match s with
       | "" => None
       | String _ s' => option_map S (Index s' sub)
       end.

(** [s[:n]] and [s[n:]]. *)
Fixpoint take (n : nat) (s : string) : string :=
  match n, s with
  | S n', String c s' => String c (take n' s')
  | _, _ => ""
  end.

Fixpoint drop (n : nat) (s : string) : string :=
  match n, s with
  | S n', String _ s' => drop n' s'
  | _, _ => s
  end.

Fixpoint mem (c : ascii) (set : string) : bool :=
  match set with
  | "" => false
  | String d set' => Ascii.eqb c d || mem c set'
  end.

(** [strings.TrimRight s cutset], by bytes (the program's cutset is one
    space). *)
Fixpoint TrimRight (s cutset : string) : string :=
  match s with
  | "" => ""
  | String c s' =>
      match TrimRight s' cutset with
      | "" => if mem c cutset then "" else String c ""
      | t => String c t
      end
  end.

(** The last byte of a string. *)
Fixpoint last (s : string) : option ascii :=
  match s with
  | "" => None
  | String c "" => Some c
  | String _ s' => last s'
  end.

(** [strings.ReplaceAll s old new] for a non-empty [old]. *)
Fixpoint ReplaceAll_from (old new s : string) (skip : nat) : string :=
  match s with
  | "" => ""
  | String c s' =>
      match skip with
      | S k => ReplaceAll_from old new s' k
      | O =>
          if HasPrefix s old then
            match String.length old with
            | O => String c (ReplaceAll_from old new s' 0)
            | S k => new +:+ ReplaceAll_from old new s' k
            end
          else String c (ReplaceAll_from old new s' 0)
      end
  end.

Definition ReplaceAll (s old new : string) : string :=
  ReplaceAll_from old new s 0.

End Strings.

(** ** Regular expressions

    The fragment of Go's [regexp] syntax the program uses, with Go's
    leftmost-first semantics: [run] lists the ways a pattern can match at the
    head of the input in the priority order of a backtracking search, and the
    match chosen at a position is the first of them. *)

Module Regexp.
Import Strings.

Inductive regex : Type :=
| Str (lit : string)            (* a literal string          *)
| Cls (p : ascii -> bool)       (* one character of a class  *)
| Cat (r1 r2 : regex)           (* r1 r2                     *)
| Alt (r1 r2 : regex)           (* r1|r2                     *)
| Plus (p : ascii -> bool)      (* x+  for a one-character x *)
| PlusLazy (p : ascii -> bool)  (* x+? for a one-character x *)
| Star (p : ascii -> bool)      (* x*  for a one-character x *)
| Grp (i : nat) (r : regex)     (* capture group number i    *)
| EndText.                      (* $ without the m flag      *)

(** Captured groups, latest first. *)
Definition caps : Type := list (nat * string).

Fixpoint group (i : nat) (cs : caps) : string :=
  match cs with
  | [] => ""
  | (j, s) :: cs' => if Nat.eqb i j then s else group i cs'
  end.

(** Remainders after one or more characters of class [p]: longest match
    first for [x+], shortest first for [x+?]. *)
Fixpoint plus_greedy (p : ascii -> bool) (s : string) : list string :=
  match s with
  | "" => []
  | String c s' => if p c then plus_greedy p s' ++ [s'] else []
  end.

Fixpoint plus_lazy (p : ascii -> bool) (s : string) : list string :=
  match s with
  | "" => []
  | String c s' => if p c then s' :: plus_lazy p s' else []
  end.

(** The text consumed between input [s] and remainder [rest]. *)
Definition consumed (s rest : string) : string :=
  take (String.length s - String.length rest) s.

Fixpoint run (r : regex) (s : string) (cs : caps) : list (string * caps) :=
  match r with
  | Str lit =>
      match strip_prefix lit s with
      | Some rest => [(rest, cs)]
      | None => []
      end
  | Cls p =>
      match s with
      | String c rest => if p c then [(rest, cs)] else []
      | "" => []
      end
  | Cat r1 r2 =>
      concat (map (fun m : string * caps => run r2 m.1 m.2) (run r1 s cs))
  | Alt r1 r2 => run r1 s cs ++ run r2 s cs
  | Plus p => map (fun rest => (rest, cs)) (plus_greedy p s)
  | PlusLazy p => map (fun rest => (rest, cs)) (plus_lazy p s)
  | Star p => map (fun rest => (rest, cs)) (plus_greedy p s ++ [s])
  | Grp i r =>
      map (fun m : string * caps => (m.1, (i, consumed s m.1) :: m.2))
          (run r s cs)
  | EndText =>
      match s with
      | "" => [("", cs)]
      | _ => []
      end
  end.

(** The leftmost-first match at the head of [s]. *)
Definition match_here (r : regex) (s : string) : option (string * caps) :=
  head (run r s []).

(** [ReplaceAllString]: successive non-overlapping leftmost matches are
    replaced by [repl] applied to their groups; [skip] counts the bytes of the
    current match still to be dropped.  No pattern of the program matches the
    empty string, so Go's rule for empty matches never applies; an empty match
    is passed over. *)
Fixpoint replace_from (r : regex) (repl : caps -> string)
    (s : string) (skip : nat) : string :=
  match s with
  | "" => ""
  | String c s' =>
      match skip with
      | S k => replace_from r repl s' k
      | O =>
          match match_here r s with
          | Some (rest, cs) =>
              match String.length s - String.length rest with
              | O => String c (replace_from r repl s' 0)
              | S k => repl cs +:+ replace_from r repl s' k
              end
          | None => String c (replace_from r repl s' 0)
          end
      end
  end.

Definition ReplaceAllString (r : regex) (repl : caps -> string)
    (s : string) : string :=
  replace_from r repl s 0.

(** [FindAllStringSubmatch r s -1], each match given by its groups. *)
Fixpoint find_from (r : regex) (s : string) (skip : nat) : list caps :=
  match s with
  | "" => []
  | String c s' =>
      match skip with
      | S k => find_from r s' k
      | O =>
          match match_here r s with
          | Some (rest, cs) =>
              match String.length s - String.length rest with
              | O => find_from r s' 0
              | S k => cs :: find_from r s' k
              end
          | None => find_from r s' 0
          end
      end
  end.

Definition FindAllStringSubmatch (r : regex) (s : string) : list caps :=
  find_from r s 0.

(** Character classes. *)
Definition code (c : ascii) : nat := nat_of_ascii c.

(** [.] : any character but a line feed. *)
Definition dot (c : ascii) : bool := negb (code c =? 10)%nat.

(** [\s] : tab, line feed, form feed, carriage return, space. *)
Definition space (c : ascii) : bool :=
  ((code c =? 9) || (code c =? 10) || (code c =? 12) || (code c =? 13)
   || (code c =? 32))%nat.

Definition only (d : ascii) (c : ascii) : bool := Ascii.eqb c d.

End Regexp.

(** ** Errors and library collaborators *)

(** Go [error] values: the package's sentinel, errors made by [errors.New] or
    [fmt.Errorf] without a verb, errors wrapped with [%w], and errors coming
    out of the standard library or the network. *)
Inductive error : Type :=
| ErrNoAlbumFound
| errors_New (msg : string)
| Wrapped (msg : string) (inner : error)
| External (msg : string).

Fixpoint Error (e : error) : string :=
  match e with
  | ErrNoAlbumFound => "no album found on page"
  | errors_New msg => msg
  | Wrapped msg inner => msg +:+ ": " +:+ Error inner
  | External msg => msg
  end.

(** A Go result pair [(value, err)]. *)
Inductive result (A : Type) : Type :=
| Ok (a : A)
| Err (e : error).
Arguments Ok {A} a.
Arguments Err {A} e.

(** ** float64

    Go's [float64] is IEEE 754 binary64; the operations the skip rule of the
    download manager uses are taken from the Standard Library's
    specification of IEEE arithmetic, at precision 53 and maximal exponent
    1024, rounding to nearest with ties to even. *)

Module Float64.

Definition float64 : Type := SpecFloat.spec_float.

Definition prec : Z := 53.
Definition emax : Z := 1024.

(** [float64(z)] for an integer [z]. *)
Definition of_int (z : Z) : float64 :=
  SpecFloat.binary_normalize prec emax z 0 false.

(** [x / y], [math.Abs(x)] and [x <= y] (false when either is a NaN). *)
Definition div (x y : float64) : float64 := SpecFloat.SFdiv prec emax x y.
Definition abs (x : float64) : float64 := SpecFloat.SFabs x.
Definition leb (x y : float64) : bool := SpecFloat.SFleb x y.

(** The float64 a decimal literal [n/d] denotes when the quotient of the two
    integers is what the literal means: [0.05] is [ratio 5 100]. *)
Definition ratio (n d : Z) : float64 := div (of_int n) (of_int d).

(** The real number a finite float64 stands for, as a fraction
    [num / 2^shift]; zero for the other values. *)
Definition to_Q (x : float64) : Q :=
  match x with
  | SpecFloat.S754_finite s m e =>
      let v := if s then Zneg m else Zpos m in
      match e with
      | Z0 => inject_Z v
      | Zpos p => inject_Z (v * 2 ^ Zpos p)
      | Zneg p => Qmake v (2 ^ p)
      end
  | _ => 0%Q
  end.

End Float64.

(** [fmt.Sprintf] with the verbs [%d] and [%0wd]. *)
Module Fmt.

Fixpoint zeros (n : nat) : string :=
  match n with
  | O => ""
  | S n' => String "0"%char (zeros n')
  end.

Definition digits (z : Z) : string := NilZero.string_of_uint (N.to_uint (Z.abs_N z)).

Definition d (z : Z) : string :=
  if (z <? 0)%Z then "-" +:+ digits z else digits z.

Definition d0 (width : nat) (z : Z) : string :=
  if (z <? 0)%Z
  then "-" +:+ zeros (width - 1 - String.length (digits z)) +:+ digits z
  else zeros (width - String.length (digits z)) +:+ digits z.

End Fmt.

(** ** The catalog model ([internal/model]) *)

Module Model.
Import Strings Regexp.

(** The class of the characters < > : double-quote / \ | ? * and of the
    control characters 0x00-0x1f. *)
Definition invalidChar (c : ascii) : bool :=
  mem c ("<>:" +:+ dq +:+ "/\|?*") || (code c <=? 31)%nat.

Definition invalidChars : regex := Cls invalidChar.
Definition trailingDots : regex := Cat (Plus (only ".")) EndText.
Definition whitespaceRun : regex := Plus space.

(** [sanitizeFileName]; [ioutils.SanitizeFileName] has the same body. *)
Definition sanitizeFileName (name : string) : string :=
  let name := ReplaceAllString invalidChars (fun _ => "_") name in
  let name := ReplaceAllString trailingDots (fun _ => "") name in
  let name := ReplaceAllString whitespaceRun (fun _ => " ") name in
  TrimRight name " ".

(** What the model package takes from [time] and [path/filepath]. *)
Class Platform : Type := {
  Time : Type;
  time_zero : Time;                          (* time.Time{} *)
  time_Format : Time -> string -> string;    (* t.Format(layout) *)
  filepath_Join : string -> string -> string;
  filepath_Ext : string -> string;
}.

Inductive PlaylistFormat : Type :=
| PlaylistFormatM3U
| PlaylistFormatPLS
| PlaylistFormatWPL
| PlaylistFormatZPL.

Definition Extension (pf : PlaylistFormat) : string :=
  match pf with
  | PlaylistFormatM3U => ".m3u"
  | PlaylistFormatPLS => ".pls"
  | PlaylistFormatWPL => ".wpl"
  | PlaylistFormatZPL => ".zpl"
  end.

Record PathConfig : Type := {
  DownloadsPath : string;
  CoverArtFileNameFormat : string;
  PlaylistFileNameFormat : string;
  PlaylistFormat_ : PlaylistFormat;
}.

Record TrackConfig : Type := {
  FileNameFormat : string;
}.

Section WithPlatform.
Context {P : Platform}.

(** A track.  The Go struct also holds a pointer back to its album, read only
    while the path is computed; [NewTrack] receives the album instead.
    Durations are float64 and are never computed with; they are carried as
    rationals. *)
Record Track : Type := {
  Track_Number : Z;
  Track_Title : string;
  Track_Duration : Q;
  Track_Lyrics : string;
  Track_Mp3URL : string;
  Track_Path : string;
}.

Record Album : Type := {
  Album_Artist : string;
  Album_Title : string;
  Album_ArtworkURL : string;
  Album_ReleaseDate : Time;
  Album_Tracks : list Track;
  Album_Path : string;
  Album_ArtworkPath : string;
  Album_PlaylistPath : string;
}.

Definition HasArtwork (a : Album) : bool :=
  negb (String.eqb (Album_ArtworkURL a) "").

Definition parseFolderPath (artist title : string) (date : Time)
    (cfg : PathConfig) : string :=
  let path := DownloadsPath cfg in
  let path := ReplaceAll path "{year}" (sanitizeFileName (time_Format date "2006")) in
  let path := ReplaceAll path "{month}" (sanitizeFileName (time_Format date "01")) in
  let path := ReplaceAll path "{day}" (sanitizeFileName (time_Format date "02")) in
  let path := ReplaceAll path "{artist}" (sanitizeFileName artist) in
  let path := ReplaceAll path "{album}" (sanitizeFileName title) in
  if (248 <=? String.length path)%nat then take 247 path else path.

(** The file-name templates of playlists and cover art: the same five
    substitutions, then the sanitizer. *)
Definition parseAlbumFileName (format artist title : string) (date : Time)
    : string :=
  let fileName := format in
  let fileName := ReplaceAll fileName "{year}" (time_Format date "2006") in
  let fileName := ReplaceAll fileName "{month}" (time_Format date "01") in
  let fileName := ReplaceAll fileName "{day}" (time_Format date "02") in
  let fileName := ReplaceAll fileName "{album}" title in
  let fileName := ReplaceAll fileName "{artist}" artist in
  sanitizeFileName fileName.

(** The length limit shared by the three file paths: at 260 bytes or more the
    name is cut to [11 - len(ext)] bytes when that is positive and shorter
    than the name. *)
Definition limitFilePath (dir fileName ext filePath : string) : string :=
  if (260 <=? String.length filePath)%nat then
    let maxLen := (11 - Z.of_nat (String.length ext))%Z in
    if ((0 <? maxLen) && (maxLen <? Z.of_nat (String.length fileName)))%Z
    then filepath_Join dir (take (Z.to_nat maxLen) fileName +:+ ext)
    else filePath
  else filePath.

Definition parsePlaylistPath (path artist title : string) (date : Time)
    (cfg : PathConfig) : string :=
  let fileName := parseAlbumFileName (PlaylistFileNameFormat cfg) artist title date in
  let ext := Extension (PlaylistFormat_ cfg) in
  limitFilePath path fileName ext (filepath_Join path (fileName +:+ ext)).

Definition parseArtworkPath (path artist title artworkURL : string)
    (date : Time) (cfg : PathConfig) : string :=
  if String.eqb artworkURL "" then ""
  else
    let ext := filepath_Ext artworkURL in
    let fileName := parseAlbumFileName (CoverArtFileNameFormat cfg) artist title date in
    limitFilePath path fileName ext (filepath_Join path (fileName +:+ ext)).

Definition NewAlbum (artist title artworkURL : string) (releaseDate : Time)
    (cfg : PathConfig) : Album :=
  let path := parseFolderPath artist title releaseDate cfg in
  {| Album_Artist := artist;
     Album_Title := title;
     Album_ArtworkURL := artworkURL;
     Album_ReleaseDate := releaseDate;
     Album_Tracks := [];
     Album_Path := path;
     Album_PlaylistPath := parsePlaylistPath path artist title releaseDate cfg;
     Album_ArtworkPath := parseArtworkPath path artist title artworkURL releaseDate cfg |}.

Definition parseFileName (album : Album) (number : Z) (title : string)
    (cfg : TrackConfig) : string :=
  let fileName := FileNameFormat cfg in
  let fileName := ReplaceAll fileName "{year}" (time_Format (Album_ReleaseDate album) "2006") in
  let fileName := ReplaceAll fileName "{month}" (time_Format (Album_ReleaseDate album) "01") in
  let fileName := ReplaceAll fileName "{day}" (time_Format (Album_ReleaseDate album) "02") in
  let fileName := ReplaceAll fileName "{album}" (Album_Title album) in
  let fileName := ReplaceAll fileName "{artist}" (Album_Artist album) in
  let fileName := ReplaceAll fileName "{title}" title in
  let fileName := ReplaceAll fileName "{tracknum}" (Fmt.d0 2 number) in
  sanitizeFileName fileName.

Definition parseFilePath (album : Album) (number : Z) (title : string)
    (cfg : TrackConfig) : string :=
  let fileName := parseFileName album number title cfg in
  let filePath := filepath_Join (Album_Path album) fileName in
  limitFilePath (Album_Path album) fileName (filepath_Ext filePath) filePath.

Definition NewTrack (album : Album) (number : Z) (title : string)
    (duration : Q) (lyrics mp3URL : string) (cfg : TrackConfig) : Track :=
  {| Track_Number := number;
     Track_Title := title;
     Track_Duration := duration;
     Track_Lyrics := lyrics;
     Track_Mp3URL := mp3URL;
     Track_Path := parseFilePath album number title cfg |}.

End WithPlatform.
End Model.

(** ** Decoded page data ([internal/bandcamp/dto]) *)

Module Dto.
Import Strings Model.

Definition artworkURLStart : string := "https://f4.bcbits.com/img/a".
Definition artworkURLEnd : string := "_0.jpg".

Section WithPlatform.
Context {P : Platform}.

Record JSONMp3File : Type := {
  URL : string;
}.

(** Pointer fields ([*JSONMp3File], [*int], [*BandcampTime], ...) are
    options: [None] is the nil pointer left by an absent or null member. *)
Record JSONTrack : Type := {
  JSONTrack_Duration : Q;
  JSONTrack_File : option JSONMp3File;
  JSONTrack_Lyrics : string;
  JSONTrack_Number : option Z;
  JSONTrack_Title : string;
}.

Record JSONAlbumData : Type := {
  AlbumTitle : string;
  AlbumData_ReleaseDate : option Time;
  AlbumData_PublishDate : option Time;
}.

Record JSONAlbum : Type := {
  AlbumData : option JSONAlbumData;
  ArtID : option Z;
  Artist : string;
  ReleaseDate : option Time;
  Tracks : list JSONTrack;
}.

(** [JSONTrack.ToTrack].  The method reads [jt.File.URL]; its only caller has
    checked [jt.File != nil] and [file] is that record. *)
Definition ToTrack (jt : JSONTrack) (file : JSONMp3File) (album : Album)
    (cfg : TrackConfig) : Track :=
  let mp3URL := URL file in
  let mp3URL := if HasPrefix mp3URL "//" then "http:" +:+ mp3URL else mp3URL in
  let number := match JSONTrack_Number jt with
                | Some n => n
                | None => 1%Z
                end in
  NewTrack album number (JSONTrack_Title jt) (JSONTrack_Duration jt)
           (JSONTrack_Lyrics jt) mp3URL cfg.

(** The release date chosen by [ToAlbum], with its fallbacks. *)
Definition releaseDate (ja : JSONAlbum) : Time :=
  match ReleaseDate ja with
  | Some t => t
  | None =>
      match AlbumData ja with
      | Some ad =>
          match AlbumData_ReleaseDate ad with
          | Some t => t
          | None =>
              match AlbumData_PublishDate ad with
              | Some t => t
              | None => time_zero
              end
          end
      | None => time_zero
      end
  end.

(** The loop of [ToAlbum] over [ja.Tracks]: one iteration.  The call in the
    source also passes a disc number, always 1; the method as defined takes
    none and a track has no disc field, so it plays no part. *)
Definition appendTrack (album : Album) (trackCfg : TrackConfig)
    (tracks : list Track) (jt : JSONTrack) : list Track :=
  match JSONTrack_File jt with
  | Some file => tracks ++ [ToTrack jt file album trackCfg]
  | None => tracks
  end.

Definition ToAlbum (ja : JSONAlbum) (pathCfg : PathConfig)
    (trackCfg : TrackConfig) : Album :=
  let artworkURL :=
    match ArtID ja with
    | Some id => artworkURLStart +:+ Fmt.d0 10 id +:+ artworkURLEnd
    | None => ""
    end in
  let title :=
    match AlbumData ja with
    | Some ad => AlbumTitle ad
    | None => ""
    end in
  let album := NewAlbum (Artist ja) title artworkURL (releaseDate ja) pathCfg in
  let tracks := foldl (appendTrack album trackCfg) [] (Tracks ja) in
  {| Album_Artist := Album_Artist album;
     Album_Title := Album_Title album;
     Album_ArtworkURL := Album_ArtworkURL album;
     Album_ReleaseDate := Album_ReleaseDate album;
     Album_Tracks := tracks;
     Album_Path := Album_Path album;
     Album_ArtworkPath := Album_ArtworkPath album;
     Album_PlaylistPath := Album_PlaylistPath album |}.

End WithPlatform.
End Dto.

(** ** Page parsing and discography ([internal/bandcamp]) *)

Module Bandcamp.
Import Strings Regexp Model Dto.

(** What the parser takes from [html], [encoding/json] and [strings]. *)
Class Codec {P : Platform} : Type := {
  html_UnescapeString : string -> string;
  json_Unmarshal : string -> result JSONAlbum;
  strings_TrimSpace : string -> string;
}.

(** The pattern (url: QUOTE .+) QUOTE SPACE \+ SPACE QUOTE (.+ QUOTE ,)
    where QUOTE stands for the double-quote character. *)
Definition urlConcat : regex :=
  Cat (Grp 1 (Cat (Str ("url: " +:+ dq)) (Plus dot)))
      (Cat (Str (dq +:+ " + " +:+ dq))
           (Grp 2 (Cat (Plus dot) (Str (dq +:+ ","))))).

(** [fixJSON]: every match is replaced by its two groups. *)
Definition fixJSON (albumData : string) : string :=
  ReplaceAllString urlConcat (fun cs => group 1 cs +:+ group 2 cs) albumData.

(** The pattern < [^>]* > of [extractLyrics]. *)
Definition tagRegex : regex :=
  Cat (Str "<") (Cat (Star (fun c => negb (only ">" c))) (Str ">")).

Section WithCodec.
Context {P : Platform} {C : Codec}.

Definition extractAlbumData (htmlContent : string) : result string :=
  let startString := "data-tralbum=" +:+ dq +:+ "{" in
  let stopString := "}" +:+ dq in
  match Index htmlContent startString with
  | None => Err (errors_New "could not find album data in HTML")
  | Some startIndex =>
      let startIndex := startIndex + (String.length startString - 1) in
      let remaining := drop startIndex htmlContent in
      match Index remaining stopString with
      | None => Err (errors_New "could not find end of album data")
      | Some endIndex =>
          let albumData := take (endIndex + 1) remaining in
          Ok (html_UnescapeString albumData)
      end
  end.

(** One iteration of the loop of [extractLyrics]: the track with its lyrics
    replaced when the page has a lyrics element for its number. *)
Definition extractTrackLyrics (htmlContent : string) (track : Track) : Track :=
  let lyricsID := "id=" +:+ dq +:+ "lyrics_row_" +:+ Fmt.d (Track_Number track) +:+ dq in
  match Index htmlContent lyricsID with
  | None => track
  | Some startIdx =>
      let remaining := drop startIdx htmlContent in
      match Index remaining ">" with
      | None => track
      | Some contentStart =>
          match Index (drop contentStart remaining) "</div>" with
          | None => track
          | Some contentEnd =>
              let lyricsHTML :=
                take (contentStart + contentEnd - (contentStart + 1))
                     (drop (contentStart + 1) remaining) in
              let lyrics := ReplaceAllString tagRegex (fun _ => "") lyricsHTML in
              {| Track_Number := Track_Number track;
                 Track_Title := Track_Title track;
                 Track_Duration := Track_Duration track;
                 Track_Lyrics := strings_TrimSpace (html_UnescapeString lyrics);
                 Track_Mp3URL := Track_Mp3URL track;
                 Track_Path := Track_Path track |}
          end
      end
  end.

(** [extractLyrics] updates the tracks of the album in place. *)
Definition extractLyrics (htmlContent : string) (album : Album) : Album :=
  {| Album_Artist := Album_Artist album;
     Album_Title := Album_Title album;
     Album_ArtworkURL := Album_ArtworkURL album;
     Album_ReleaseDate := Album_ReleaseDate album;
     Album_Tracks := map (extractTrackLyrics htmlContent) (Album_Tracks album);
     Album_Path := Album_Path album;
     Album_ArtworkPath := Album_ArtworkPath album;
     Album_PlaylistPath := Album_PlaylistPath album |}.

Definition ParseAlbumPage (pathConfig : PathConfig) (trackConfig : TrackConfig)
    (htmlContent : string) : result Album :=
  match extractAlbumData htmlContent with
  | Err err => Err (Wrapped "could not retrieve album data" err)
  | Ok albumData =>
      let albumData := fixJSON albumData in
      match json_Unmarshal albumData with
      | Err err => Err (Wrapped "failed to parse album JSON" err)
      | Ok jsonAlbum =>
          let album := ToAlbum jsonAlbum pathConfig trackConfig in
          Ok (extractLyrics htmlContent album)
      end
  end.

End WithCodec.

(** *** Discography *)

(** The pattern (/(album|track)/.+?)(QUOTE|&quot;) ; group 1 is the URL. *)
Definition releaseLink : regex :=
  Cat (Grp 1 (Cat (Str "/")
                  (Cat (Grp 2 (Alt (Str "album") (Str "track")))
                       (Cat (Str "/") (PlusLazy dot)))))
      (Grp 3 (Alt (Str dq) (Str "&quot;"))).

(** The pattern href=QUOTE(/album/.+?)QUOTE ; group 1 is the URL. *)
Definition albumAnchor : regex :=
  Cat (Str ("href=" +:+ dq))
      (Cat (Grp 1 (Cat (Str "/album/") (PlusLazy dot))) (Str dq)).

(** The loop filling [urlSet], a Go map used as a set.  Every match has more
    than one element, so the guard of the loop body always holds. *)
Definition collect (matches : list caps) : gset string :=
  foldl (fun urlSet m => {[ group 1 m ]} ∪ urlSet) ∅ matches.

(** [for url := range urlSet]: Go leaves the iteration order of a map
    unspecified and the runtime randomises it, so the keys may come in any
    order. *)
Definition range_keys (urlSet : gset string) (keys : list string) : Prop :=
  keys ≡ₚ elements urlSet.

Definition ErrMultipleAlbumURLs : error :=
  errors_New "found multiple album URLs, expected exactly one".

Definition isSingleAlbumArtist (html : string) : bool :=
  Contains html ("div id=" +:+ dq +:+ "discography" +:+ dq).

Definition getSingleAlbumURL (html : string) : result string :=
  let matches := FindAllStringSubmatch albumAnchor html in
  let urlSet := collect matches in
  match size urlSet with
  | 0 => Err ErrNoAlbumFound
  | 1 =>
      match elements urlSet with
      | url :: _ => Ok url
      | [] => Err ErrMultipleAlbumURLs
      end
  | _ => Err ErrMultipleAlbumURLs
  end.

(** [GetAlbumURLs musicPageHTML res]: [res] is a possible outcome of the
    call. *)
Definition GetAlbumURLs (musicPageHTML : string) (res : result (list string))
    : Prop :=
  if isSingleAlbumArtist musicPageHTML then
    match getSingleAlbumURL musicPageHTML with
    | Err err => res = Err err
    | Ok albumURL => res = Ok [albumURL]
    end
  else
    let matches := FindAllStringSubmatch releaseLink musicPageHTML in
    match matches with
    | [] => res = Err ErrNoAlbumFound
    | _ => exists urls, range_keys (collect matches) urls /\ res = Ok urls
    end.

(** The URLs matched on a listing page, in page order. *)
Definition links (musicPageHTML : string) : list string :=
  map (group 1) (FindAllStringSubmatch releaseLink musicPageHTML).

Definition anchors (html : string) : list string :=
  map (group 1) (FindAllStringSubmatch albumAnchor html).

(** Deduplication that keeps the first occurrence of every element, as the
    specification words it. *)
Fixpoint first_seen (seen l : list string) : list string :=
  match l with
  | [] => []
  | x :: l' =>
      if bool_decide (x ∈ seen) then first_seen seen l'
      else x :: first_seen (x :: seen) l'
  end.

End Bandcamp.

(** ** Settings ([internal/config]) *)

Module Config.
Import Model.

(** The settings read by the parser and the download manager.  The allowed
    size difference is a float64, compared as the program compares it; the
    two float64 settings of the retry delay are carried as exact rationals:
    the model computes the delays without rounding. *)
Record Settings : Type := {
  Settings_DownloadsPath : string;
  MaxConcurrentAlbumsDownload : Z;
  MaxConcurrentTracksDownload : Z;
  DownloadMaxRetries : Z;
  DownloadRetryCooldown : Q;
  DownloadRetryExponent : Q;
  AllowedFileSizeDifference : Float64.float64;
  DownloadArtistDiscography : bool;
  Settings_FileNameFormat : string;
  Settings_CoverArtFileNameFormat : string;
  Settings_PlaylistFileNameFormat : string;
  SaveCoverArtInFolder : bool;
  SaveCoverArtInTags : bool;
  CoverArtInFolderResize : bool;
  CoverArtInFolderMaxSize : Z;
  CoverArtInTagsResize : bool;
  CoverArtInTagsMaxSize : Z;
  ConvertCoverArtToJPG : bool;
  CreatePlaylist : bool;
  Settings_PlaylistFormat : string;
  ModifyTags : bool;
}.

(** [DefaultSettings], given the downloads path built from the home
    directory. *)
Definition DefaultSettings (downloadsPath : string) : Settings :=
  {| Settings_DownloadsPath := downloadsPath;
     MaxConcurrentAlbumsDownload := 1;
     MaxConcurrentTracksDownload := 10;
     DownloadMaxRetries := 7;
     DownloadRetryCooldown := 2 # 10;
     DownloadRetryExponent := 4;
     AllowedFileSizeDifference := Float64.ratio 5 100;
     DownloadArtistDiscography := false;
     Settings_FileNameFormat := "{tracknum} {artist} - {title}.mp3";
     Settings_CoverArtFileNameFormat := "{album}";
     Settings_PlaylistFileNameFormat := "{album}";
     SaveCoverArtInFolder := false;
     SaveCoverArtInTags := true;
     CoverArtInFolderResize := false;
     CoverArtInFolderMaxSize := 1000;
     CoverArtInTagsResize := true;
     CoverArtInTagsMaxSize := 1000;
     ConvertCoverArtToJPG := true;
     CreatePlaylist := false;
     Settings_PlaylistFormat := "m3u";
     ModifyTags := true |}.

Definition ToPathConfig (s : Settings) : PathConfig :=
  let pf :=
    if String.eqb (Settings_PlaylistFormat s) "m3u" then PlaylistFormatM3U
    else if String.eqb (Settings_PlaylistFormat s) "pls" then PlaylistFormatPLS
    else if String.eqb (Settings_PlaylistFormat s) "wpl" then PlaylistFormatWPL
    else if String.eqb (Settings_PlaylistFormat s) "zpl" then PlaylistFormatZPL
    else PlaylistFormatM3U in
  {| DownloadsPath := Settings_DownloadsPath s;
     CoverArtFileNameFormat := Settings_CoverArtFileNameFormat s;
     PlaylistFileNameFormat := Settings_PlaylistFileNameFormat s;
     PlaylistFormat_ := pf |}.

Definition ToTrackConfig (s : Settings) : TrackConfig :=
  {| FileNameFormat := Settings_FileNameFormat s |}.

End Config.

(** ** The download manager ([internal/download]) *)

Module Download.
Import Strings Model Dto Bandcamp Config.

Inductive ProgressLevel : Type :=
| LevelInfo
| LevelVerbose
| LevelWarning
| LevelError
| LevelSuccess.

Record ProgressEvent : Type := {
  Message : string;
  Level : ProgressLevel;
}.

(** The calls the manager makes on its surroundings that the properties below
    observe: a transfer attempt and a retry wait of a number of seconds. *)
Inductive Action : Type :=
| ADownload (url path : string)
| AWait (seconds : Q).

(** The surroundings of the manager: network, file system, tagger, image
    service, clock and contexts.  Every call takes the state of the world and
    returns the next one, so an outcome may depend on everything that happened
    before, cancellation included.  A nil byte slice is [None]. *)
Class Env {P : Platform} {C : Codec} : Type := {
  World : Type;
  url_Parse : string -> result (string * string * string); (* Scheme, Host, Path *)
  http_GetString : string -> World -> result string * World;
  http_GetFileSize : string -> World -> result Z * World;
  http_DownloadFile : string -> string -> World -> option error * World;
  http_DownloadBytes : string -> World -> result string * World;
  os_MkdirAll : string -> World -> option error * World;
  os_Stat : string -> World -> result Z * World;           (* info.Size() *)
  os_WriteFile : string -> option string -> World -> option error * World;
  tagger_SaveTags : Track -> Album -> option string -> World -> option error * World;
  playlist_CreatePlaylist : Album -> string;
  imageService_ResizeImage : option string -> Z -> Z -> World -> option string * World;
  imageService_ConvertToJPEG : option string -> World -> option string * World;
  filepath_Base : string -> string;
  (** the select of [waitForRetry]: the context is done or the timer fires *)
  wait : Q -> World -> World;
  (** the cancel function of a context made by [errgroup.WithContext] *)
  cancel : World -> World;
  (** the outcome of [Discography.GetAlbumURLs], map order resolved *)
  discography_GetAlbumURLs : string -> World -> result (list string) * World;
  discography_GetAlbumURLs_ok :
    forall html w, GetAlbumURLs html (discography_GetAlbumURLs html w).1;
}.

Section Manager.
Context {P : Platform} {C : Codec} {E : Env}.
Variable settings : Settings.

(** The fields of [Manager] that change, the events handed to [m.progress]
    (oldest first; [progress] passes them to the callback when one is set),
    the observed calls, and the world. *)
Record Manager : Type := {
  albums : list Album;
  totalBytes : Z;
  receivedBytes : Z;
  totalFiles : Z;
  downloadedFiles : Z;
  events : list ProgressEvent;
  trace : list Action;
  world : World;
}.

(** Fixed-width counters wrap around. *)
Definition wrap (bits : Z) (x : Z) : Z :=
  ((x + 2 ^ (bits - 1)) mod 2 ^ bits - 2 ^ (bits - 1))%Z.

(** Methods of the manager are state transformers. *)
Definition M (A : Type) : Type := Manager -> A * Manager.

#[global] Instance M_ret : MRet M := fun A a m => (a, m).
#[global] Instance M_bind : MBind M :=
  fun A B f c m => f (c m).1 (c m).2.

Definition call {A} (op : World -> A * World) : M A := fun m =>
  ((op (world m)).1,
   {| albums := albums m; totalBytes := totalBytes m;
      receivedBytes := receivedBytes m; totalFiles := totalFiles m;
      downloadedFiles := downloadedFiles m; events := events m;
      trace := trace m; world := (op (world m)).2 |}).

Definition observe (a : Action) : M unit := fun m =>
  (tt,
   {| albums := albums m; totalBytes := totalBytes m;
      receivedBytes := receivedBytes m; totalFiles := totalFiles m;
      downloadedFiles := downloadedFiles m; events := events m;
      trace := trace m ++ [a]; world := world m |}).

Definition progress (event : ProgressEvent) : M unit := fun m =>
  (tt,
   {| albums := albums m; totalBytes := totalBytes m;
      receivedBytes := receivedBytes m; totalFiles := totalFiles m;
      downloadedFiles := downloadedFiles m; events := events m ++ [event];
      trace := trace m; world := world m |}).

Definition addAlbum (album : Album) : M unit := fun m =>
  (tt,
   {| albums := albums m ++ [album]; totalBytes := totalBytes m;
      receivedBytes := receivedBytes m; totalFiles := totalFiles m;
      downloadedFiles := downloadedFiles m; events := events m;
      trace := trace m; world := world m |}).

Definition incTotalFiles : M unit := fun m =>
  (tt,
   {| albums := albums m; totalBytes := totalBytes m;
      receivedBytes := receivedBytes m;
      totalFiles := wrap 32 (totalFiles m + 1);
      downloadedFiles := downloadedFiles m; events := events m;
      trace := trace m; world := world m |}).

Definition addTotalBytes (size : Z) : M unit := fun m =>
  (tt,
   {| albums := albums m; totalBytes := wrap 64 (totalBytes m + size);
      receivedBytes := receivedBytes m; totalFiles := totalFiles m;
      downloadedFiles := downloadedFiles m; events := events m;
      trace := trace m; world := world m |}).

Definition incDownloadedFiles : M unit := fun m =>
  (tt,
   {| albums := albums m; totalBytes := totalBytes m;
      receivedBytes := receivedBytes m; totalFiles := totalFiles m;
      downloadedFiles := wrap 32 (downloadedFiles m + 1);
      events := events m; trace := trace m; world := world m |}).

(** An [errgroup.Group]: [g.Go] on every item, then [g.Wait].  The tasks are
    run one after the other in the order of the list, the schedule of a limit
    of one; the first error to come back is kept and cancels the context of
    the group.  [s] stands for the variables the closures share. *)
Fixpoint errgroup {A S : Type} (f : A -> S -> M (option error * S))
    (items : list A) (s : S) (first : option error) : M (option error * S) :=
  match items with
  | [] => mret (first, s)
  | x :: rest =>
      r ← f x s;
      match first, r.1 with
      | None, Some err =>
          call (fun w => (tt, cancel w));;
          errgroup f rest r.2 (Some err)
      | _, _ => errgroup f rest r.2 first
      end
  end.

(** [strings.Split input LF]. *)
Fixpoint splitLines (input : string) : list string :=
  match input with
  | "" => [""]
  | String c rest =>
      if Ascii.eqb c "010" then "" :: splitLines rest
      else match splitLines rest with
           | line :: lines => String c line :: lines
           | [] => [String c ""]
           end
  end.

Definition parseInputURLs (input : string) : list string :=
  foldl (fun (urls : list string) (line : string) =>
           let line := strings_TrimSpace line in
           if negb (String.eqb line "")
              && (HasPrefix line "http://" || HasPrefix line "https://")
           then (urls ++ [line])%list else urls)
        [] (splitLines input).

Definition getAlbumURLs (inputURL : string) : M (result (list string)) :=
  match url_Parse inputURL with
  | Err err => mret (Err err)
  | Ok (scheme, host, path) =>
      if Contains path "/album/" || Contains path "/track/"
      then mret (Ok [inputURL])
      else if negb (DownloadArtistDiscography settings)
      then mret (Ok [inputURL])
      else
        let musicURL := scheme +:+ "://" +:+ host +:+ "/music" in
        r ← call (http_GetString musicURL);
        match r with
        | Err err => mret (Err err)
        | Ok html =>
            r ← call (discography_GetAlbumURLs html);
            match r with
            | Err err => mret (Err err)
            | Ok relativeURLs =>
                mret (Ok (map (fun relURL => scheme +:+ "://" +:+ host +:+ relURL)
                              relativeURLs))
            end
        end
  end.

(** The size probes of [calculateTotals] for one album. *)
Definition probe (url : string) : M unit :=
  incTotalFiles;;
  r ← call (http_GetFileSize url);
  match r with
  | Ok size => addTotalBytes size
  | Err _ => mret tt
  end.

Fixpoint probeTracks (tracks : list Track) : M unit :=
  match tracks with
  | [] => mret tt
  | track :: rest => probe (Track_Mp3URL track);; probeTracks rest
  end.

Fixpoint calculateTotals_from (l : list Album) : M unit :=
  match l with
  | [] => mret tt
  | album :: rest =>
      probeTracks (Album_Tracks album);;
      (if HasArtwork album then probe (Album_ArtworkURL album) else mret tt);;
      calculateTotals_from rest
  end.

Definition calculateTotals : M unit := fun m => calculateTotals_from (albums m) m.

(** The first loop of [Initialize]. *)
Fixpoint resolveInputs (urls : list string) (allAlbumURLs : list string)
    : M (list string) :=
  match urls with
  | [] => mret allAlbumURLs
  | inputURL :: rest =>
      r ← getAlbumURLs inputURL;
      match r with
      | Err err =>
          progress {| Message := "Error getting albums from " +:+ inputURL
                                 +:+ ": " +:+ Error err;
                      Level := LevelError |};;
          resolveInputs rest allAlbumURLs
      | Ok albumURLs => resolveInputs rest (allAlbumURLs ++ albumURLs)
      end
  end.

(** The second loop of [Initialize]. *)
Fixpoint fetchAlbums (allAlbumURLs : list string) : M unit :=
  match allAlbumURLs with
  | [] => mret tt
  | albumURL :: rest =>
      progress {| Message := "Fetching album info: " +:+ albumURL;
                  Level := LevelVerbose |};;
      r ← call (http_GetString albumURL);
      match r with
      | Err err =>
          progress {| Message := "Error fetching " +:+ albumURL +:+ ": "
                                 +:+ Error err;
                      Level := LevelError |};;
          fetchAlbums rest
      | Ok html =>
          match ParseAlbumPage (ToPathConfig settings) (ToTrackConfig settings) html with
          | Err err =>
              progress {| Message := "Error parsing " +:+ albumURL +:+ ": "
                                     +:+ Error err;
                          Level := LevelError |};;
              fetchAlbums rest
          | Ok album =>
              addAlbum album;;
              progress {| Message := "Found album: " +:+ Album_Artist album
                                     +:+ " - " +:+ Album_Title album +:+ " ("
                                     +:+ Fmt.d (Z.of_nat (length (Album_Tracks album)))
                                     +:+ " tracks)";
                          Level := LevelInfo |};;
              fetchAlbums rest
          end
      end
  end.

Definition Initialize (inputURLs : string) : M (option error) :=
  let urls := parseInputURLs inputURLs in
  allAlbumURLs ← resolveInputs urls [];
  fetchAlbums allAlbumURLs;;
  calculateTotals;;
  mret None.

(** [waitForRetry]: the cooldown grows with the number of failed tries; the
    wait ends when the timer fires or the context is done. *)
Definition waitForRetry (tries : Z) : M unit :=
  let cooldown :=
    (DownloadRetryCooldown settings * DownloadRetryExponent settings ^ tries)%Q in
  observe (AWait cooldown);;
  call (fun w => (tt, wait cooldown w)).

(** The retry loop of [downloadArtwork]; [n] iterations remain. *)
Fixpoint artworkTries (n : nat) (tries : Z) (album : Album)
    (artwork : option string) (err : option error)
    : M (option string * option error) :=
  match n with
  | O => mret (artwork, err)
  | S n' =>
      r ← call (http_DownloadBytes (Album_ArtworkURL album));
      match r with
      | Ok data => mret (Some data, None)
      | Err e =>
          waitForRetry tries;;
          artworkTries n' (tries + 1)%Z album None (Some e)
      end
  end.

Definition downloadArtwork (album : Album) : M (option string * option error) :=
  r ← artworkTries (Z.to_nat (DownloadMaxRetries settings)) 0%Z album None None;
  match r.2 with
  | Some err => mret (None, Some err)
  | None =>
      let artwork := r.1 in
      incDownloadedFiles;;
      (if SaveCoverArtInFolder settings then
         artworkToSave ←
           (if CoverArtInFolderResize settings
            then call (imageService_ResizeImage artwork
                         (CoverArtInFolderMaxSize settings)
                         (CoverArtInFolderMaxSize settings))
            else mret artwork);
         artworkToSave ←
           (if ConvertCoverArtToJPG settings
            then call (imageService_ConvertToJPEG artworkToSave)
            else mret artworkToSave);
         werr ← call (os_WriteFile (Album_ArtworkPath album) artworkToSave);
         match werr with
         | Some err =>
             progress {| Message := "Error saving artwork: " +:+ Error err;
                         Level := LevelWarning |}
         | None => mret tt
         end
       else mret tt);;
      artwork ←
        (if SaveCoverArtInTags settings then
           artwork ←
             (if CoverArtInTagsResize settings
              then call (imageService_ResizeImage artwork
                           (CoverArtInTagsMaxSize settings)
                           (CoverArtInTagsMaxSize settings))
              else mret artwork);
           (if ConvertCoverArtToJPG settings
            then call (imageService_ConvertToJPEG artwork)
            else mret artwork)
         else mret artwork);
      progress {| Message := "Downloaded artwork for " +:+ Album_Title album;
                  Level := LevelVerbose |};;
      mret (artwork, None)
  end.

(** The retry loop of [downloadTrack]; [n] iterations remain and [err] is the
    error of the last attempt. *)
Fixpoint trackTries (n : nat) (tries : Z) (track : Track) (err : option error)
    : M (option error) :=
  match n with
  | O => mret err
  | S n' =>
      observe (ADownload (Track_Mp3URL track) (Track_Path track));;
      e ← call (http_DownloadFile (Track_Mp3URL track) (Track_Path track));
      match e with
      | None => mret None
      | Some _ =>
          progress {| Message := "Retry " +:+ Fmt.d (tries + 1) +:+ "/"
                                 +:+ Fmt.d (DownloadMaxRetries settings)
                                 +:+ " for " +:+ Track_Title track;
                      Level := LevelWarning |};;
          waitForRetry tries;;
          trackTries n' (tries + 1)%Z track e
      end
  end.

(** [downloadTrack] from the retry loop on: transfer, count, tag. *)
Definition transfer (track : Track) (album : Album) (artwork : option string)
    : M (option error) :=
  err ← trackTries (Z.to_nat (DownloadMaxRetries settings)) 0%Z track None;
  match err with
  | Some e => mret (Some e)
  | None =>
      incDownloadedFiles;;
      (if ModifyTags settings
          || (SaveCoverArtInTags settings
              && match artwork with Some _ => true | None => false end)
       then
         terr ← call (tagger_SaveTags track album artwork);
         match terr with
         | Some e =>
             progress {| Message := "Error tagging " +:+ Track_Title track
                                    +:+ ": " +:+ Error e;
                         Level := LevelWarning |}
         | None => mret tt
         end
       else mret tt);;
      progress {| Message := "Downloaded: " +:+ filepath_Base (Track_Path track);
                  Level := LevelVerbose |};;
      mret None
  end.

(** The test of the skip rule: [math.Abs(sizeDiff) <= diff] for
    [sizeDiff = float64(size - expectedSize) / float64(expectedSize)], the
    subtraction being one of int64 and the rest float64 arithmetic. *)
Definition withinAllowedDifference (size expectedSize : Z) : bool :=
  let diff := AllowedFileSizeDifference settings in
  let sizeDiff :=
    Float64.div (Float64.of_int (wrap 64 (size - expectedSize)))
                (Float64.of_int expectedSize) in
  Float64.leb (Float64.abs sizeDiff) diff.

Definition downloadTrack (track : Track) (album : Album)
    (artwork : option string) : M (option error) :=
  st ← call (os_Stat (Track_Path track));
  match st with
  | Ok size =>
      r ← call (http_GetFileSize (Track_Mp3URL track));
      let expectedSize := match r with Ok n => n | Err _ => 0%Z end in
      if (0 <? expectedSize)%Z && withinAllowedDifference size expectedSize
      then
        progress {| Message := "Skipping existing: "
                               +:+ filepath_Base (Track_Path track);
                    Level := LevelVerbose |};;
        incDownloadedFiles;;
        mret None
      else transfer track album artwork
  | Err _ => transfer track album artwork
  end.

(** The closure [downloadAlbum] hands to its group for one track;
    [successCount] is the counter the closures share. *)
Definition trackTask (album : Album) (artwork : option string)
    (track : Track) (successCount : Z) : M (option error * Z) :=
  err ← downloadTrack track album artwork;
  match err with
  | Some e =>
      progress {| Message := "Error downloading " +:+ Track_Title track
                             +:+ ": " +:+ Error e;
                  Level := LevelError |};;
      mret (None, successCount)
  | None => mret (None, wrap 32 (successCount + 1))
  end.

Definition downloadAlbum (album : Album) : M (option error) :=
  merr ← call (os_MkdirAll (Album_Path album));
  match merr with
  | Some err =>
      progress {| Message := "Error creating directory: " +:+ Error err;
                  Level := LevelError |};;
      mret (Some err)
  | None =>
      artwork ←
        (if (SaveCoverArtInTags settings || SaveCoverArtInFolder settings)
            && HasArtwork album
         then
           r ← downloadArtwork album;
           match r.2 with
           | Some err =>
               progress {| Message := "Error downloading artwork for "
                                      +:+ Album_Title album +:+ ": " +:+ Error err;
                           Level := LevelWarning |};;
               mret r.1
           | None => mret r.1
           end
         else mret None);
      g ← errgroup (trackTask album artwork) (Album_Tracks album) 0%Z None;
      match g.1 with
      | Some err => mret (Some err)
      | None =>
          let successCount := g.2 in
          (if CreatePlaylist settings then
             let content := playlist_CreatePlaylist album in
             werr ← call (os_WriteFile (Album_PlaylistPath album) (Some content));
             match werr with
             | Some err =>
                 progress {| Message := "Error creating playlist: " +:+ Error err;
                             Level := LevelWarning |}
             | None =>
                 progress {| Message := "Created playlist for " +:+ Album_Title album;
                             Level := LevelSuccess |}
             end
           else mret tt);;
          (if (successCount =? Z.of_nat (length (Album_Tracks album)))%Z
           then progress {| Message := "Successfully downloaded album: "
                                       +:+ Album_Title album;
                            Level := LevelSuccess |}
           else progress {| Message := "Finished " +:+ Album_Title album
                                       +:+ ", some tracks failed";
                            Level := LevelWarning |});;
          mret None
      end
  end.

Definition albumTask (album : Album) (_ : unit) : M (option error * unit) :=
  err ← downloadAlbum album;
  mret (err, tt).

Definition StartDownloads : M (option error) := fun m =>
  (g ← errgroup albumTask (albums m) tt None; mret g.1) m.

End Manager.
End Download.

(** ** Playlists and dates: the pure parts of the playlist writer and of the
    date decoder of [internal/bandcamp/dto] *)

Module Audio.
Import Strings.

(** [escapeXML]: five replacements, the ampersand first. *)
Definition escapeXML (s : string) : string :=
  let s := ReplaceAll s "&" "&amp;" in
  let s := ReplaceAll s "<" "&lt;" in
  let s := ReplaceAll s ">" "&gt;" in
  let s := ReplaceAll s dq "&quot;" in
  let s := ReplaceAll s "'" "&apos;" in
  s.

End Audio.

Module BandcampTime.
Import Model.

(** The layouts [UnmarshalJSON] tries, in order; the third is the value of
    [time.RFC3339]. *)
Definition formats : list string :=
  ["02 Jan 2006 15:04:05 MST";
   "2 Jan 2006 15:04:05 MST";
   "2006-01-02T15:04:05Z07:00";
   "2006-01-02T15:04:05Z07:00"].

Section WithPlatform.
Context {P : Platform}.
(** [json.Unmarshal] into a string, and [time.Parse layout value]. *)
Variable json_String : string -> result string.
Variable time_Parse : string -> string -> result Time.

(** The loop over the layouts: the first that parses wins. *)
Fixpoint tryFormats (layouts : list string) (s : string) : option Time :=
  match layouts with
  | [] => None
  | format :: rest =>
      match time_Parse format s with
      | Ok t => Some t
      | Err _ => tryFormats rest s
      end
  end.

Definition UnmarshalJSON (data : string) : result Time :=
  match json_String data with
  | Err err => Err err
  | Ok s =>
      if String.eqb s "" then Ok time_zero
      else
        match tryFormats formats s with
        | Some t => Ok t
        | None => Err (errors_New ("unable to parse date: " +:+ s))
        end
  end.

End WithPlatform.
End BandcampTime.

(** ** A small concrete world

    Instances of the collaborators for evaluating the model: times are day
    numbers, paths are joined with a slash, the decoder knows one blob, every
    request to the host [down] fails, no directory can be made under
    [/readonly], two of the tracks are on disk already, and the world
    remembers the waits made so far. *)

Module Sample.
Import Strings Regexp Model Dto Bandcamp Config Download.

#[export] Instance platform : Platform := {|
  Time := Z;
  time_zero := 0%Z;
  time_Format := fun t layout => layout;
  filepath_Join := fun dir name => dir +:+ "/" +:+ name;
  filepath_Ext := fun path => ".mp3";
|}.

Definition blob : string := "{tracks}".

Definition record (title : string) (file : option string) : JSONTrack :=
  {| JSONTrack_Duration := 180;
     JSONTrack_File := option_map (fun u => {| URL := u |}) file;
     JSONTrack_Lyrics := "";
     JSONTrack_Number := None;
     JSONTrack_Title := title |}.

Definition decoded : JSONAlbum :=
  {| AlbumData := Some {| AlbumTitle := "T";
                          AlbumData_ReleaseDate := Some 20%Z;
                          AlbumData_PublishDate := Some 30%Z |};
     ArtID := None;
     Artist := "A";
     ReleaseDate := None;
     Tracks := [record "one" (Some "//down/1.mp3"); record "two" None;
                record "three" (Some "http://h/3.mp3");
                record "four" (Some "http://h/4.mp3");
                record "five" (Some "http://h/5.mp3")] |}.

Fixpoint trimLeft (s : string) : string :=
  match s with
  | String " " s' => trimLeft s'
  | _ => s
  end.

#[export] Instance codec : Codec := {|
  html_UnescapeString := fun s => s;
  json_Unmarshal := fun s =>
    if String.eqb s blob then Ok decoded
    else Err (External "invalid character");
  strings_TrimSpace := fun s => TrimRight (trimLeft s) " ";
|}.

Definition page : string :=
  "<script data-tralbum=" +:+ dq +:+ blob +:+ dq +:+ "></script>".

(** The world only remembers the waits made so far; what is on disk and
    what the server announces is fixed. *)
Record state : Type := {
  slept : list Q;
}.

Fixpoint assoc (k : string) (l : list (string * Z)) : option Z :=
  match l with
  | [] => None
  | (k', v) :: l' => if String.eqb k k' then Some v else assoc k l'
  end.

(** Sizes of the files on disk and sizes announced by the server. *)
Definition onDisk : list (string * Z) :=
  [("/music/A/T/01 A - three.mp3", 1000%Z);
   ("/music/A/T/01 A - five.mp3", 1100%Z)].

Definition announced : list (string * Z) :=
  [("http://h/3.mp3", 1040%Z); ("http://h/5.mp3", 1000%Z)].

Definition down (url : string) : bool := HasPrefix url "http://down/".
Definition readonly (path : string) : bool := HasPrefix path "/readonly".

(** A resolution of [GetAlbumURLs] that lists a map in the order of
    [elements]. *)
Definition resolve (html : string) : result (list string) :=
  if isSingleAlbumArtist html then
    match getSingleAlbumURL html with
    | Err err => Err err
    | Ok albumURL => Ok [albumURL]
    end
  else
    match FindAllStringSubmatch releaseLink html with
    | [] => Err ErrNoAlbumFound
    | m :: ms => Ok (elements (collect (m :: ms)))
    end.

(** The surroundings, with the network up ([online]) or down. *)
Definition env_of (online : bool) : Env.
Proof.
  refine {|
    World := state;
    url_Parse := fun s => Ok ("https", "h", s);
    http_GetString := fun url w =>
      (if online && negb (down url) then Ok page else Err (External "HTTP 404"), w);
    http_GetFileSize := fun url w =>
      (match assoc url announced with
       | Some n => Ok n
       | None => Err (External "no Content-Length header")
       end, w);
    http_DownloadFile := fun url path w =>
      (if online && negb (down url) then None else Some (External "HTTP 503"), w);
    http_DownloadBytes := fun url w =>
      (if online && negb (down url) then Ok "img" else Err (External "HTTP 503"), w);
    os_MkdirAll := fun path w =>
      (if readonly path then Some (External "permission denied") else None, w);
    os_Stat := fun path w =>
      (match assoc path onDisk with
       | Some n => Ok n
       | None => Err (External "no such file or directory")
       end, w);
    os_WriteFile := fun path data w => (None, w);
    tagger_SaveTags := fun track album artwork w => (None, w);
    playlist_CreatePlaylist := fun album => "#EXTM3U";
    imageService_ResizeImage := fun data width height w => (data, w);
    imageService_ConvertToJPEG := fun data w => (data, w);
    filepath_Base := fun path => path;
    wait := fun seconds w => {| slept := slept w ++ [seconds] |};
    cancel := fun w => w;
    discography_GetAlbumURLs := fun html w => (resolve html, w);
  |}.
  intros html w. cbn [fst]. unfold GetAlbumURLs, resolve.
  destruct (isSingleAlbumArtist html).
  - destruct (getSingleAlbumURL html); reflexivity.
  - destruct (FindAllStringSubmatch releaseLink html) as [|m ms]; [reflexivity|].
    exists (elements (collect (m :: ms))). split; [|reflexivity].
    unfold range_keys. reflexivity.
Defined.

Definition env : Env := env_of true.
Definition offlineEnv : Env := env_of false.

Definition start : state := {| slept := [] |}.

Definition fresh (E : Env) (l : list Album) (w : @World _ _ E) : @Manager _ _ E :=
  {| albums := l; totalBytes := 0; receivedBytes := 0; totalFiles := 0;
     downloadedFiles := 0; events := []; trace := []; world := w |}.

Definition sampleSettings : Settings := DefaultSettings "/music/{artist}/{album}".

(** The album of [page] under the default settings, and the same album
    destined to a directory that cannot be made. *)
Definition sampleAlbum : Album :=
  match ParseAlbumPage (ToPathConfig sampleSettings) (ToTrackConfig sampleSettings) page with
  | Ok album => album
  | Err _ => NewAlbum "" "" "" 0%Z (ToPathConfig sampleSettings)
  end.

Definition readonlySettings : Settings := DefaultSettings "/readonly/{album}".

Definition readonlyAlbum : Album :=
  match ParseAlbumPage (ToPathConfig readonlySettings) (ToTrackConfig readonlySettings) page with
  | Ok album => album
  | Err _ => NewAlbum "" "" "" 0%Z (ToPathConfig readonlySettings)
  end.

(** The sample settings with another retry limit and discography switch. *)
Definition withRetries (retries : Z) (discography : bool) (s : Settings)
    : Settings :=
  {| Settings_DownloadsPath := Settings_DownloadsPath s;
     MaxConcurrentAlbumsDownload := MaxConcurrentAlbumsDownload s;
     MaxConcurrentTracksDownload := MaxConcurrentTracksDownload s;
     DownloadMaxRetries := retries;
     DownloadRetryCooldown := DownloadRetryCooldown s;
     DownloadRetryExponent := DownloadRetryExponent s;
     AllowedFileSizeDifference := AllowedFileSizeDifference s;
     DownloadArtistDiscography := discography;
     Settings_FileNameFormat := Settings_FileNameFormat s;
     Settings_CoverArtFileNameFormat := Settings_CoverArtFileNameFormat s;
     Settings_PlaylistFileNameFormat := Settings_PlaylistFileNameFormat s;
     SaveCoverArtInFolder := SaveCoverArtInFolder s;
     SaveCoverArtInTags := SaveCoverArtInTags s;
     CoverArtInFolderResize := CoverArtInFolderResize s;
     CoverArtInFolderMaxSize := CoverArtInFolderMaxSize s;
     CoverArtInTagsResize := CoverArtInTagsResize s;
     CoverArtInTagsMaxSize := CoverArtInTagsMaxSize s;
     ConvertCoverArtToJPG := ConvertCoverArtToJPG s;
     CreatePlaylist := CreatePlaylist s;
     Settings_PlaylistFormat := Settings_PlaylistFormat s;
     ModifyTags := ModifyTags s |}.

Definition noRetrySettings : Settings := withRetries 0 false sampleSettings.
Definition discographySettings : Settings := withRetries 7 true sampleSettings.

(** The sample surroundings, except that every destination exists with
    8819999999999999 bytes and every size request answers 8399999999999999:
    sizes whose quotient is rounded when it is computed. *)
Definition edgeEnv : Env.
Proof.
  refine {|
    World := state;
    url_Parse := url_Parse (Env := env);
    http_GetString := http_GetString (Env := env);
    http_GetFileSize := fun url w => (Ok 8399999999999999%Z, w);
    http_DownloadFile := http_DownloadFile (Env := env);
    http_DownloadBytes := http_DownloadBytes (Env := env);
    os_MkdirAll := os_MkdirAll (Env := env);
    os_Stat := fun path w => (Ok 8819999999999999%Z, w);
    os_WriteFile := os_WriteFile (Env := env);
    tagger_SaveTags := tagger_SaveTags (Env := env);
    playlist_CreatePlaylist := playlist_CreatePlaylist (Env := env);
    imageService_ResizeImage := imageService_ResizeImage (Env := env);
    imageService_ConvertToJPEG := imageService_ConvertToJPEG (Env := env);
    filepath_Base := filepath_Base (Env := env);
    wait := wait (Env := env);
    cancel := cancel (Env := env);
    discography_GetAlbumURLs := discography_GetAlbumURLs (Env := env);
  |}.
  intros html w. exact (discography_GetAlbumURLs_ok (Env := env) html w).
Defined.

End Sample.

(** * Properties *)

(** ** Strings and patterns *)

Module StringFacts.
Import Strings Regexp.

(** [t] is what is left of [s] after some prefix. *)
Definition Suffix (t s : string) : Prop := exists pre, s = pre +:+ t.

Lemma Suffix_refl s : Suffix s s.
Proof. by exists "". Qed.

Lemma Suffix_tail c s : Suffix s (String c s).
Proof. by exists (String c ""). Qed.

Lemma app_cons x (a b : string) : String x a +:+ b = String x (a +:+ b).
Proof. reflexivity. Qed.

Lemma app_empty_l (a : string) : "" +:+ a = a.
Proof. reflexivity. Qed.

Lemma app_assoc (a b c : string) : (a +:+ b) +:+ c = a +:+ (b +:+ c).
Proof.
  induction a as [|x a IH]; [done|]. by rewrite !app_cons, IH.
Qed.

Lemma app_empty_r (a : string) : a +:+ "" = a.
Proof.
  induction a as [|x a IH]; [done|]. by rewrite app_cons, IH.
Qed.

Lemma Suffix_trans a b c : Suffix a b -> Suffix b c -> Suffix a c.
Proof.
  intros [p ->] [q ->]. exists (q +:+ p). by rewrite app_assoc.
Qed.

Lemma Suffix_cons t c s : Suffix t s -> Suffix t (String c s).
Proof. intros H. eapply Suffix_trans; [exact H|apply Suffix_tail]. Qed.

Lemma Suffix_length t s : Suffix t s -> String.length t <= String.length s.
Proof.
  intros [p ->]. induction p as [|x p IH]; [rewrite app_empty_l; lia|].
  rewrite app_cons. simpl. lia.
Qed.

Lemma Suffix_inv t c s : Suffix t (String c s) -> t = String c s \/ Suffix t s.
Proof.
  intros [[|x p] H].
  - by left.
  - right. rewrite app_cons in H. injection H as _ ->. by exists p.
Qed.

Lemma strip_prefix_Some p s r : strip_prefix p s = Some r <-> s = p +:+ r.
Proof.
  revert s. induction p as [|a p IH]; intros s; simpl.
  - rewrite app_empty_l. split; [by intros [= ->]|by intros ->].
  - rewrite app_cons. destruct s as [|b s].
    + split; [done|discriminate].
    + destruct (Ascii.eqb_spec a b) as [->|Hne].
      * rewrite IH. split; [by intros ->|by intros [= ->]].
      * split; [done|intros [= ? ?]; by subst].
Qed.

Lemma HasPrefix_true s p : HasPrefix s p = true <-> exists r, s = p +:+ r.
Proof.
  unfold HasPrefix. destruct (strip_prefix p s) as [r|] eqn:E.
  - apply strip_prefix_Some in E. split; [by exists r|done].
  - split; [done|]. intros [r Hr]. apply strip_prefix_Some in Hr. congruence.
Qed.

Lemma Contains_cons s sub c : Contains s sub = true -> Contains (String c s) sub = true.
Proof.
  intros H. change (Contains (String c s) sub)
    with (HasPrefix (String c s) sub || Contains s sub).
  rewrite H. apply orb_true_r.
Qed.

Lemma Contains_prefix s sub : HasPrefix s sub = true -> Contains s sub = true.
Proof. intros H. destruct s; simpl; by rewrite H. Qed.

(** A string contains every prefix of each of its suffixes. *)
Lemma Contains_Suffix t s sub :
  Suffix t s -> HasPrefix t sub = true -> Contains s sub = true.
Proof.
  intros [p ->] H. induction p as [|x p IH].
  - by apply Contains_prefix.
  - rewrite app_cons. by apply Contains_cons.
Qed.

Lemma Contains_false_Suffix t s sub :
  Suffix t s -> Contains s sub = false -> Contains t sub = false.
Proof.
  intros [p ->]. induction p as [|x p IH]; [done|].
  rewrite app_cons. intros H. apply IH. destruct (Contains (p +:+ t) sub) eqn:E; [|done].
  by rewrite (Contains_cons _ _ x E) in H.
Qed.

(** *** The matcher only consumes input *)

Lemma plus_greedy_Suffix p s rest : In rest (plus_greedy p s) -> Suffix rest s.
Proof.
  revert rest. induction s as [|c s IH]; intros rest; simpl; [done|].
  destruct (p c); [|done]. rewrite in_app_iff. intros [H|[<-|[]]].
  - apply Suffix_cons. by apply IH.
  - apply Suffix_tail.
Qed.

Lemma plus_lazy_Suffix p s rest : In rest (plus_lazy p s) -> Suffix rest s.
Proof.
  revert rest. induction s as [|c s IH]; intros rest; simpl; [done|].
  destruct (p c); [|done]. intros [<-|H].
  - apply Suffix_tail.
  - apply Suffix_cons. by apply IH.
Qed.

Lemma run_Suffix r : forall s cs m, In m (run r s cs) -> Suffix m.1 s.
Proof.
  induction r as [lit|p|r1 IH1 r2 IH2|r1 IH1 r2 IH2|p|p|p|i r IH|];
    intros s cs m; simpl.
  - destruct (strip_prefix lit s) as [rest|] eqn:E; [|done].
    intros [<-|[]]. apply strip_prefix_Some in E. by exists lit.
  - destruct s as [|c rest]; [done|]. destruct (p c); [|done].
    intros [<-|[]]. apply Suffix_tail.
  - rewrite in_concat. intros (l & Hl & Hm).
    apply in_map_iff in Hl as (m1 & <- & Hm1).
    eapply Suffix_trans; [by eapply IH2|by eapply IH1].
  - rewrite in_app_iff. intros [H|H]; [by eapply IH1|by eapply IH2].
  - rewrite in_map_iff. intros (rest & <- & H). by eapply plus_greedy_Suffix.
  - rewrite in_map_iff. intros (rest & <- & H). by eapply plus_lazy_Suffix.
  - rewrite in_map_iff. intros (rest & <- & H).
    apply in_app_iff in H as [H|[<-|[]]];
      [by eapply plus_greedy_Suffix|apply Suffix_refl].
  - rewrite in_map_iff. intros (m1 & <- & H). simpl. by eapply IH.
  - destruct s; [|intros []]. intros [<-|[]]. simpl. apply Suffix_refl.
Qed.

Lemma head_In {A} (l : list A) x : head l = Some x -> In x l.
Proof. destruct l; simpl; [done|intros [= ->]; by left]. Qed.

(** A text in which the pattern matches nowhere is left as it is. *)
Lemma replace_from_no_match r repl s :
  (forall t, Suffix t s -> match_here r t = None) ->
  replace_from r repl s 0 = s.
Proof.
  induction s as [|c s IH]; intros H; simpl; [done|].
  rewrite (H _ (Suffix_refl _)). f_equal. apply IH.
  intros t Ht. apply H. by apply Suffix_cons.
Qed.

Lemma find_from_no_match r s :
  (forall t, Suffix t s -> match_here r t = None) ->
  find_from r s 0 = [].
Proof.
  induction s as [|c s IH]; intros H; simpl; [done|].
  rewrite (H _ (Suffix_refl _)). apply IH.
  intros t Ht. apply H. by apply Suffix_cons.
Qed.

End StringFacts.

(** ** File names *)

Module SanitizeFacts.
Import Strings Regexp Model StringFacts.

(** C6.  The sanitizer strips trailing dots before it trims trailing
    spaces, so a name that ends with a dot followed by a space comes out
    ending with a dot: on the three-byte input made of a letter, a dot and a
    space it returns the letter and the dot. *)
Theorem sanitizeFileName_keeps_dot_before_space :
  sanitizeFileName "a. " = "a." /\ last (sanitizeFileName "a. ") = Some "."%char.
Proof. split; vm_compute; reflexivity. Qed.

(** The examples of the source's own documentation and test table. *)
Lemma sanitizeFileName_examples :
  sanitizeFileName "Song: Part 1/2" = "Song_ Part 1_2"
  /\ sanitizeFileName "trailing dots..." = "trailing dots"
  /\ sanitizeFileName "multiple   spaces" = "multiple spaces"
  /\ sanitizeFileName "trailing spaces   " = "trailing spaces"
  /\ sanitizeFileName ("file" +:+ dq +:+ "with" +:+ dq +:+ "quotes.mp3")
     = "file_with_quotes.mp3".
Proof. repeat split; vm_compute; reflexivity. Qed.

(** *** What the sanitizer does guarantee *)

Fixpoint Every (P : ascii -> Prop) (s : string) : Prop :=
  match s with
  | "" => True
  | String c s' => P c /\ Every P s'
  end.

Definition headSpace (s : string) : bool :=
  match s with
  | "" => false
  | String c _ => space c
  end.

(** No two whitespace characters in a row. *)
Fixpoint NoRun (s : string) : Prop :=
  match s with
  | "" => True
  | String c s' => space c && headSpace s' = false /\ NoRun s'
  end.

Fixpoint dropWhile (p : ascii -> bool) (s : string) : string :=
  match s with
  | "" => ""
  | String c s' => if p c then dropWhile p s' else s
  end.

Lemma Every_app P a b : Every P a -> Every P b -> Every P (a +:+ b).
Proof.
  intros Ha Hb. induction a as [|c a IH]; [done|].
  rewrite app_cons. destruct Ha as [Hc Ha]. split; [done|by apply IH].
Qed.

Lemma Every_last P s c : Every P s -> last s = Some c -> P c.
Proof.
  induction s as [|a s IH]; [done|]. intros [Ha Hs]. simpl.
  destruct s as [|b s]; [by intros [= <-]|]. by apply IH.
Qed.

Lemma replace_from_Every P r repl :
  (forall cs, Every P (repl cs)) ->
  forall s k, Every P s -> Every P (replace_from r repl s k).
Proof.
  intros Hrepl. induction s as [|c s IH]; intros k; [done|].
  intros [Hc Hs]. simpl. destruct k as [|k]; [|by apply IH].
  destruct (match_here r (String c s)) as [[rest cs]|].
  - destruct (_ - String.length rest).
    + cbn [Every]. split; [done|by apply IH].
    + apply Every_app; [apply Hrepl|by apply IH].
  - cbn [Every]. split; [done|by apply IH].
Qed.

Lemma TrimRight_Every P s cutset : Every P s -> Every P (TrimRight s cutset).
Proof.
  induction s as [|c s IH]; [done|]. intros [Hc Hs]. simpl.
  destruct (TrimRight s cutset) as [|d t].
  - by destruct (mem c cutset).
  - cbn [Every]. split; [done|by apply IH].
Qed.

Lemma replace_from_match r repl c s rest cs k :
  match_here r (String c s) = Some (rest, cs) ->
  String.length (String c s) - String.length rest = S k ->
  replace_from r repl (String c s) 0 = repl cs +:+ replace_from r repl s k.
Proof. intros H1 H2. cbn [replace_from]. by rewrite H1, H2. Qed.

Lemma replace_from_pass r repl c s :
  match_here r (String c s) = None ->
  replace_from r repl (String c s) 0 = String c (replace_from r repl s 0).
Proof. intros H. cbn [replace_from]. by rewrite H. Qed.

(** After the first step no invalid character is left. *)
Lemma invalidChars_replaced s :
  Every (fun c => invalidChar c = false)
        (ReplaceAllString invalidChars (fun _ => "_") s).
Proof.
  unfold ReplaceAllString. induction s as [|c s IH]; [done|].
  destruct (invalidChar c) eqn:Hc.
  - rewrite (replace_from_match _ _ c s s [] 0).
    + split; [by vm_compute|exact IH].
    + unfold match_here, invalidChars. cbn [run]. by rewrite Hc.
    + simpl. lia.
  - rewrite replace_from_pass.
    + split; [exact Hc|exact IH].
    + unfold match_here, invalidChars. cbn [run]. by rewrite Hc.
Qed.

Lemma sanitizeFileName_valid s :
  Every (fun c => invalidChar c = false) (sanitizeFileName s).
Proof.
  unfold sanitizeFileName, ReplaceAllString.
  apply TrimRight_Every.
  apply replace_from_Every; [by intros; vm_compute|].
  apply replace_from_Every; [done|].
  apply invalidChars_replaced.
Qed.

Lemma TrimRight_last s c : last (TrimRight s " ") = Some c -> c <> " "%char.
Proof.
  induction s as [|a s IH]; [done|]. simpl TrimRight.
  destruct (TrimRight s " ") as [|d t].
  - simpl mem. rewrite orb_false_r.
    destruct (Ascii.eqb_spec a " ") as [->|Hne]; [done|].
    by intros [= <-].
  - exact IH.
Qed.

Lemma valid_space c : invalidChar c = false -> space c = true -> c = " "%char.
Proof.
  destruct c as [[] [] [] [] [] [] [] []]; vm_compute; congruence.
Qed.

(** The output never ends with a whitespace character. *)
Lemma sanitizeFileName_no_trailing_space s c :
  last (sanitizeFileName s) = Some c -> space c = false.
Proof.
  intros Hl. destruct (space c) eqn:Hs; [|done].
  pose proof (Every_last _ _ _ (sanitizeFileName_valid s) Hl) as Hv.
  simpl in Hv. apply (valid_space c Hv) in Hs. subst c.
  by destruct (TrimRight_last _ _ Hl).
Qed.

Lemma dropWhile_length p s : String.length (dropWhile p s) <= String.length s.
Proof.
  induction s as [|c s IH]; simpl; [lia|]. destruct (p c); simpl; lia.
Qed.

Lemma dropWhile_head s : headSpace (dropWhile space s) = false.
Proof.
  induction s as [|c s IH]; simpl; [done|].
  destruct (space c) eqn:Hc; [done|]. simpl. exact Hc.
Qed.

Lemma drop_dropWhile p s :
  drop (String.length s - String.length (dropWhile p s)) s = dropWhile p s.
Proof.
  induction s as [|c s IH]; [done|]. simpl dropWhile.
  destruct (p c).
  - pose proof (dropWhile_length p s).
    replace (String.length (String c s) - String.length (dropWhile p s))
      with (S (String.length s - String.length (dropWhile p s)))
      by (simpl; lia).
    exact IH.
  - by rewrite Nat.sub_diag.
Qed.

Lemma plus_greedy_head p c s :
  p c = true -> head (plus_greedy p (String c s)) = Some (dropWhile p s).
Proof.
  revert c. induction s as [|d s IH]; intros c Hc; simpl; rewrite Hc; [done|].
  destruct (p d) eqn:Hd; [|done].
  pose proof (IH d Hd) as Hh. simpl in Hh. rewrite Hd in Hh.
  destruct (plus_greedy p s ++ [s])%list; [done|]. exact Hh.
Qed.

Lemma replace_from_skip r repl s : forall k,
  k <= String.length s ->
  replace_from r repl s k = replace_from r repl (drop k s) 0.
Proof.
  induction s as [|c s IH]; intros k Hk.
  - by destruct k.
  - destruct k as [|k]; [done|]. simpl. apply IH. simpl in Hk. lia.
Qed.

(** The third step, unfolded: a run of whitespace becomes one space. *)
Lemma collapse_cons c s :
  replace_from whitespaceRun (fun _ => " ") (String c s) 0
  = if space c
    then String " " (replace_from whitespaceRun (fun _ => " ")
                       (dropWhile space s) 0)
    else String c (replace_from whitespaceRun (fun _ => " ") s 0).
Proof.
  destruct (space c) eqn:Hc.
  - pose proof (dropWhile_length space s).
    rewrite (replace_from_match _ _ c s (dropWhile space s) []
               (String.length s - String.length (dropWhile space s))).
    + rewrite replace_from_skip by lia. by rewrite drop_dropWhile.
    + unfold match_here, whitespaceRun. cbn [run].
      pose proof (plus_greedy_head space c s Hc) as Hh.
      destruct (plus_greedy space (String c s)) as [|rest l]; [done|].
      by injection Hh as ->.
    + simpl. lia.
  - apply replace_from_pass. unfold match_here, whitespaceRun. cbn [run].
    simpl plus_greedy. by rewrite Hc.
Qed.

Lemma collapse_head s :
  headSpace s = false ->
  headSpace (replace_from whitespaceRun (fun _ => " ") s 0) = false.
Proof.
  destruct s as [|c s]; [done|]. intros Hc. rewrite collapse_cons.
  simpl in Hc. by rewrite Hc.
Qed.

Lemma collapse_NoRun s :
  NoRun (replace_from whitespaceRun (fun _ => " ") s 0).
Proof.
  remember (String.length s) as n eqn:Hn.
  revert s Hn. induction n as [n IH] using lt_wf_ind. intros s Hn.
  destruct s as [|c s]; [done|]. rewrite collapse_cons.
  destruct (space c) eqn:Hc.
  - split.
    + rewrite collapse_head; [apply andb_false_r|apply dropWhile_head].
    + apply (IH (String.length (dropWhile space s))); [|done].
      pose proof (dropWhile_length space s). simpl in Hn. lia.
  - split; [by rewrite Hc|].
    apply (IH (String.length s)); [simpl in Hn; lia|done].
Qed.

Lemma TrimRight_head s cutset :
  TrimRight s cutset <> "" -> headSpace (TrimRight s cutset) = headSpace s.
Proof.
  destruct s as [|c s]; [done|]. simpl.
  destruct (TrimRight s cutset); [|done]. by destruct (mem c cutset).
Qed.

Lemma TrimRight_NoRun s cutset : NoRun s -> NoRun (TrimRight s cutset).
Proof.
  induction s as [|c s IH]; [done|]. intros [Hc Hs]. simpl TrimRight.
  destruct (TrimRight s cutset) as [|d t] eqn:Ht.
  - destruct (mem c cutset); [done|]. split; [apply andb_false_r|done].
  - split; [|by apply IH].
    rewrite <- Ht, TrimRight_head by (by rewrite Ht). exact Hc.
Qed.

(** The output never holds two whitespace characters in a row. *)
Lemma sanitizeFileName_NoRun s : NoRun (sanitizeFileName s).
Proof.
  unfold sanitizeFileName, ReplaceAllString.
  apply TrimRight_NoRun, collapse_NoRun.
Qed.

End SanitizeFacts.

(** ** The parser *)

Module ParserFacts.
Import Strings Regexp Model Dto Bandcamp StringFacts.

Definition urlKey : string := "url: " +:+ dq.
Definition connective : string := dq +:+ " + " +:+ dq.

Lemma run_Cat_In r1 r2 s cs m :
  In m (run (Cat r1 r2) s cs) ->
  exists m1, In m1 (run r1 s cs) /\ In m (run r2 m1.1 m1.2).
Proof.
  simpl. rewrite in_concat. intros (l & Hl & Hm).
  apply in_map_iff in Hl as (m1 & <- & Hm1). by exists m1.
Qed.

Lemma run_Grp_In i r s cs m :
  In m (run (Grp i r) s cs) -> exists m1, In m1 (run r s cs) /\ m.1 = m1.1.
Proof.
  simpl. rewrite in_map_iff. intros (m1 & <- & H). by exists m1.
Qed.

Lemma run_Str_In lit s cs m : In m (run (Str lit) s cs) -> s = lit +:+ m.1.
Proof.
  simpl. destruct (strip_prefix lit s) as [rest|] eqn:E; [|done].
  intros [<-|[]]. by apply strip_prefix_Some.
Qed.

(** Where the pattern of [fixJSON] matches, the text starts with the url key
    and holds the connective further on. *)
Lemma urlConcat_match t m :
  match_here urlConcat t = Some m ->
  HasPrefix t urlKey = true /\ Contains t connective = true.
Proof.
  intros H. apply head_In in H. unfold urlConcat in H.
  apply run_Cat_In in H as (m1 & H1 & H2).
  pose proof (run_Suffix _ _ _ _ H1) as Hsuf.
  apply run_Grp_In in H1 as (m0 & H0 & E0).
  apply run_Cat_In in H0 as (mk & Hk & _).
  apply run_Str_In in Hk.
  apply run_Cat_In in H2 as (mc & Hc & _).
  apply run_Str_In in Hc.
  split.
  - apply HasPrefix_true. by exists mk.1.
  - eapply Contains_Suffix; [exact Hsuf|].
    apply HasPrefix_true. by exists mc.1.
Qed.

(** A text without the connective, or without the url key, goes through
    [fixJSON] unchanged. *)
Lemma fixJSON_unchanged s :
  Contains s connective = false \/ Contains s urlKey = false ->
  fixJSON s = s.
Proof.
  intros H. apply replace_from_no_match. intros t Ht.
  destruct (match_here urlConcat t) as [m|] eqn:E; [|done].
  apply urlConcat_match in E as [Hk Hc].
  destruct H as [H|H].
  - by rewrite (Contains_false_Suffix _ _ _ Ht H) in Hc.
  - apply Contains_prefix in Hk.
    by rewrite (Contains_false_Suffix _ _ _ Ht H) in Hk.
Qed.

(** The repair of the source's test table and of the specification. *)
Lemma fixJSON_examples :
  fixJSON ("url: " +:+ quoted "http://a.com" +:+ " + " +:+ quoted "/x" +:+ ",")
  = "url: " +:+ quoted "http://a.com/x" +:+ ","
  /\ fixJSON ("url: " +:+ quoted "http://example.bandcamp.com" +:+ " + "
              +:+ quoted "/album/test" +:+ ",")
     = "url: " +:+ quoted "http://example.bandcamp.com/album/test" +:+ ","
  /\ fixJSON ("url: " +:+ quoted "http://a.com/x" +:+ ",")
     = "url: " +:+ quoted "http://a.com/x" +:+ ",".
Proof. repeat split; vm_compute; reflexivity. Qed.

(** A line with a url value written in two pieces, followed by another value
    written in two pieces. *)
Definition twoConcats : string :=
  "url: " +:+ quoted "a" +:+ " + " +:+ quoted "b" +:+ ", x: "
  +:+ quoted "c" +:+ " + " +:+ quoted "d" +:+ ",".

(** C9.  The first group of the pattern is greedy: on a line that holds a
    second connective after the url value, the match runs up to the last
    connective.  [fixJSON] then leaves the url value in two pieces and
    splices the unrelated value that follows it; the same happens to a value
    that follows an already correct url value. *)
Theorem fixJSON_greedy :
  fixJSON twoConcats
  = "url: " +:+ quoted "a" +:+ " + " +:+ quoted "b" +:+ ", x: " +:+ quoted "cd" +:+ ","
  /\ fixJSON ("url: " +:+ quoted "a" +:+ ", name: " +:+ quoted "b" +:+ " + "
              +:+ quoted "c" +:+ ",")
     = "url: " +:+ quoted "a" +:+ ", name: " +:+ quoted "bc" +:+ ",".
Proof. split; vm_compute; reflexivity. Qed.

Section WithCodec.
Context {P : Platform} {C : Codec}.

(** The records that carry a file reference, each with its file, in the
    order of the source. *)
Definition carried (records : list JSONTrack) : list (JSONTrack * JSONMp3File) :=
  omap (fun jt => option_map (pair jt) (JSONTrack_File jt)) records.

Definition hasFile (jt : JSONTrack) : bool :=
  match JSONTrack_File jt with
  | Some _ => true
  | None => false
  end.

Lemma carried_records records :
  map fst (carried records) = List.filter hasFile records.
Proof.
  induction records as [|jt l IH]; [done|].
  change (carried (jt :: l))
    with (match option_map (pair jt) (JSONTrack_File jt) with
          | Some y => y :: carried l
          | None => carried l
          end).
  simpl. unfold hasFile at 1.
  destruct (JSONTrack_File jt) as [f|]; simpl; by rewrite IH.
Qed.

Lemma foldl_appendTrack album cfg records : forall acc,
  foldl (appendTrack album cfg) acc records
  = (acc ++ map (fun p => ToTrack p.1 p.2 album cfg) (carried records))%list.
Proof.
  induction records as [|jt l IH]; intros acc; simpl.
  - by rewrite List.app_nil_r.
  - rewrite IH.
    change (carried (jt :: l))
      with (match option_map (pair jt) (JSONTrack_File jt) with
            | Some y => y :: carried l
            | None => carried l
            end).
    unfold appendTrack.
    destruct (JSONTrack_File jt) as [f|]; simpl; [|done].
    by rewrite <- List.app_assoc.
Qed.

Lemma ToAlbum_tracks ja pathCfg trackCfg :
  Album_Tracks (ToAlbum ja pathCfg trackCfg)
  = map (fun p => ToTrack p.1 p.2 (ToAlbum ja pathCfg trackCfg) trackCfg)
        (carried (Tracks ja)).
Proof.
  unfold ToAlbum at 1. cbn [Album_Tracks]. rewrite foldl_appendTrack.
  reflexivity.
Qed.

Lemma extractTrackLyrics_title html t :
  Track_Title (extractTrackLyrics html t) = Track_Title t.
Proof.
  unfold extractTrackLyrics.
  repeat match goal with
         | |- context [match ?x with _ => _ end] => destruct x
         end; reflexivity.
Qed.

(** C1.  When the blob of a page decodes to [ja], parsing succeeds; the album
    has one track for every record of [ja] that carries a file reference, [N]
    of them, built from those records in their order; records without a file
    reference are left out. *)
Theorem ParseAlbumPage_tracks pathCfg trackCfg html data ja N :
  extractAlbumData html = Ok data ->
  json_Unmarshal (fixJSON data) = Ok ja ->
  N = length (List.filter hasFile (Tracks ja)) ->
  exists album,
    ParseAlbumPage pathCfg trackCfg html = Ok album
    /\ length (Album_Tracks album) = N
    /\ Album_Tracks album
       = map (fun p => extractTrackLyrics html (ToTrack p.1 p.2 album trackCfg))
             (carried (Tracks ja))
    /\ map Track_Title (Album_Tracks album)
       = map JSONTrack_Title (List.filter hasFile (Tracks ja)).
Proof.
  intros Hdata Hja ->. unfold ParseAlbumPage. rewrite Hdata, Hja.
  eexists. split; [reflexivity|].
  cbn [extractLyrics Album_Tracks]. rewrite ToAlbum_tracks.
  rewrite <- carried_records, !length_map. split; [done|]. split.
  - rewrite map_map. reflexivity.
  - rewrite !map_map. apply map_ext. intros [jt f]. simpl.
    by rewrite extractTrackLyrics_title.
Qed.

(** The first candidate that is present, the unknown date when none is. *)
Fixpoint firstPresent (candidates : list (option Time)) : Time :=
  match candidates with
  | [] => time_zero
  | Some t :: _ => t
  | None :: rest => firstPresent rest
  end.

(** C2.  The release date of the album is the first present among the
    top-level date, the nested declared date and the nested publish date, and
    the zero date when none is present; a top-level date wins over whatever is
    nested, and a nested declared date alone is taken. *)
Theorem ToAlbum_release_date :
  (forall ja pathCfg trackCfg,
     Album_ReleaseDate (ToAlbum ja pathCfg trackCfg)
     = firstPresent [ReleaseDate ja;
                     AlbumData ja ≫= AlbumData_ReleaseDate;
                     AlbumData ja ≫= AlbumData_PublishDate])
  /\ (forall top nested artID artist tracks pathCfg trackCfg,
        Album_ReleaseDate
          (ToAlbum {| AlbumData := nested; ArtID := artID; Artist := artist;
                      ReleaseDate := Some top; Tracks := tracks |}
                   pathCfg trackCfg) = top)
  /\ (forall declared title publish artID artist tracks pathCfg trackCfg,
        Album_ReleaseDate
          (ToAlbum {| AlbumData := Some {| AlbumTitle := title;
                                           AlbumData_ReleaseDate := Some declared;
                                           AlbumData_PublishDate := publish |};
                      ArtID := artID; Artist := artist;
                      ReleaseDate := None; Tracks := tracks |}
                   pathCfg trackCfg) = declared).
Proof.
  split; [|split; reflexivity].
  intros ja pathCfg trackCfg. cbn [ToAlbum Album_ReleaseDate NewAlbum].
  unfold releaseDate. destruct (ReleaseDate ja) as [t|]; [done|].
  destruct (AlbumData ja) as [ad|]; [|done]. simpl.
  destruct (AlbumData_ReleaseDate ad) as [t|]; [done|].
  by destruct (AlbumData_PublishDate ad).
Qed.

End WithCodec.
End ParserFacts.

(** ** The discography *)

Module DiscographyFacts.
Import Strings Regexp Bandcamp.

Lemma collect_from matches : forall acc : gset string,
  foldl (fun urlSet m => {[ group 1 m ]} ∪ urlSet) acc matches
  = list_to_set (map (group 1) matches) ∪ acc.
Proof.
  induction matches as [|m l IH]; intros acc; simpl.
  - set_solver.
  - rewrite IH. set_solver.
Qed.

Lemma collect_list_to_set matches :
  collect matches = list_to_set (map (group 1) matches).
Proof. unfold collect. rewrite collect_from. set_solver. Qed.

Lemma elem_of_first_seen l : forall seen x,
  x ∈ first_seen seen l <-> x ∈ l /\ x ∉ seen.
Proof.
  induction l as [|y l IH]; intros seen x; simpl.
  - set_solver.
  - case_bool_decide as Hy.
    + rewrite IH. set_solver.
    + rewrite elem_of_cons, IH. rewrite !elem_of_cons.
      destruct (decide (x = y)) as [->|Hne]; naive_solver.
Qed.

Lemma NoDup_first_seen l : forall seen, NoDup (first_seen seen l).
Proof.
  induction l as [|y l IH]; intros seen; simpl.
  - constructor.
  - case_bool_decide; [apply IH|]. constructor; [|apply IH].
    rewrite elem_of_first_seen. set_solver.
Qed.

(** The keys of the set are the distinct URLs. *)
Lemma elements_collect matches :
  elements (collect matches) ≡ₚ first_seen [] (map (group 1) matches).
Proof.
  apply NoDup_Permutation.
  - apply NoDup_elements.
  - apply NoDup_first_seen.
  - intros x. rewrite elem_of_elements, collect_list_to_set,
      elem_of_list_to_set, elem_of_first_seen. set_solver.
Qed.

Lemma size_collect matches :
  size (collect matches) = length (first_seen [] (map (group 1) matches)).
Proof.
  unfold size, set_size. simpl. by rewrite elements_collect.
Qed.

(** What [GetAlbumURLs] can return on a page without the marker. *)
Lemma GetAlbumURLs_listing_iff html res :
  isSingleAlbumArtist html = false ->
  GetAlbumURLs html res <->
    (links html = [] /\ res = Err ErrNoAlbumFound)
    \/ (links html <> [] /\
        exists urls, res = Ok urls /\ urls ≡ₚ first_seen [] (links html)).
Proof.
  intros Hm. unfold GetAlbumURLs, links. rewrite Hm.
  destruct (FindAllStringSubmatch releaseLink html) as [|m ms] eqn:E.
  - simpl. naive_solver.
  - split.
    + intros (urls & Hk & ->). right. split; [done|].
      exists urls. split; [done|]. unfold range_keys in Hk.
      by rewrite Hk, elements_collect.
    + intros [[? _]|[_ (urls & -> & Hp)]]; [done|].
      exists urls. split; [|done]. unfold range_keys.
      by rewrite Hp, elements_collect.
Qed.

(** What [GetAlbumURLs] returns on a page with the marker. *)
Lemma GetAlbumURLs_single_iff html res :
  isSingleAlbumArtist html = true ->
  GetAlbumURLs html res <->
    match first_seen [] (anchors html) with
    | [] => res = Err ErrNoAlbumFound
    | [url] => res = Ok [url]
    | _ => res = Err ErrMultipleAlbumURLs
    end.
Proof.
  intros Hm. unfold GetAlbumURLs, getSingleAlbumURL, anchors. rewrite Hm.
  rewrite size_collect.
  pose proof (elements_collect (FindAllStringSubmatch albumAnchor html)) as Hp.
  destruct (first_seen [] (map (group 1) (FindAllStringSubmatch albumAnchor html)))
    as [|u [|v l]]; simpl.
  - done.
  - apply Permutation_singleton_r in Hp. by rewrite Hp.
  - done.
Qed.

(** C7.  On a page without the marker, [GetAlbumURLs] fails with
    [ErrNoAlbumFound] when nothing matches; otherwise it returns every
    distinct match exactly once, in an order the map iteration chooses: the
    result is a permutation of the first-seen list of distinct matches, and
    every such permutation is a possible result. *)
Theorem GetAlbumURLs_listing html res :
  isSingleAlbumArtist html = false ->
  GetAlbumURLs html res <->
    (links html = [] /\ res = Err ErrNoAlbumFound)
    \/ (links html <> [] /\
        exists urls, res = Ok urls /\ urls ≡ₚ first_seen [] (links html)).
Proof. apply GetAlbumURLs_listing_iff. Qed.

(** A listing page with two releases. *)
Definition twoLinks : string :=
  "<a href=" +:+ quoted "/album/a" +:+ ">A</a><a href=" +:+ quoted "/album/b"
  +:+ ">B</a>".

(** C7, as stated, fails: on [twoLinks] the releases may come back in the
    reverse of the page order. *)
Lemma GetAlbumURLs_order_not_first_seen :
  isSingleAlbumArtist twoLinks = false
  /\ first_seen [] (links twoLinks) = ["/album/a"; "/album/b"]
  /\ GetAlbumURLs twoLinks (Ok ["/album/b"; "/album/a"]).
Proof.
  split; [by vm_compute|]. split; [by vm_compute|].
  apply GetAlbumURLs_listing_iff; [by vm_compute|]. right.
  split; [by vm_compute|]. eexists. split; [reflexivity|].
  replace (first_seen [] (links twoLinks)) with ["/album/a"; "/album/b"]
    by (by vm_compute).
  apply perm_swap.
Qed.

(** C8.  On a page with the marker, [GetAlbumURLs] looks at the distinct
    album anchors: with none it fails with [ErrNoAlbumFound], with exactly one
    it returns the list holding it, with more it fails with the
    multiple-URLs error. *)
Theorem GetAlbumURLs_single html res :
  isSingleAlbumArtist html = true ->
  GetAlbumURLs html res <->
    match first_seen [] (anchors html) with
    | [] => res = Err ErrNoAlbumFound
    | [url] => res = Ok [url]
    | _ => res = Err ErrMultipleAlbumURLs
    end.
Proof. apply GetAlbumURLs_single_iff. Qed.

(** A page with the marker and no anchor. *)
Definition markerOnly : string :=
  "<div id=" +:+ quoted "discography" +:+ "></div>".

(** C8, as stated, fails: with the marker and no matching anchor the error is
    the not-found sentinel, not the multiple-URLs error. *)
Lemma GetAlbumURLs_no_anchor_not_ambiguous :
  isSingleAlbumArtist markerOnly = true
  /\ anchors markerOnly = []
  /\ GetAlbumURLs markerOnly (Err ErrNoAlbumFound)
  /\ ~ GetAlbumURLs markerOnly (Err ErrMultipleAlbumURLs).
Proof.
  split; [by vm_compute|]. split; [by vm_compute|].
  rewrite !GetAlbumURLs_single_iff by (by vm_compute).
  replace (first_seen [] (anchors markerOnly)) with (@nil string)
    by (by vm_compute).
  split; [done|]. discriminate.
Qed.

End DiscographyFacts.

(** ** float64 arithmetic of the skip test

    The quotient of two sizes below [2^53] and its comparison with the
    float64 nearest to 0.05, in integers: the conversions are exact, the
    division rounds once, to nearest with ties to even. *)

Module Float64Facts.
Import SpecFloat Download.
Local Open Scope Z_scope.

(** *** Mantissas of 53 and 54 digits *)

Lemma digits2_pos_bounds p :
  2 ^ (Zpos (digits2_pos p) - 1) <= Zpos p < 2 ^ Zpos (digits2_pos p).
Proof.
  induction p as [p IH|p IH|]; cbn [digits2_pos].
  - rewrite Pos2Z.inj_succ, Z.pow_succ_r by lia.
    replace (Z.succ (Zpos (digits2_pos p)) - 1)
      with (Z.succ (Zpos (digits2_pos p) - 1)) by lia.
    rewrite Z.pow_succ_r by lia. lia.
  - rewrite Pos2Z.inj_succ, Z.pow_succ_r by lia.
    replace (Z.succ (Zpos (digits2_pos p)) - 1)
      with (Z.succ (Zpos (digits2_pos p) - 1)) by lia.
    rewrite Z.pow_succ_r by lia. lia.
  - simpl. lia.
Qed.

Lemma digits2_pos_unique p k :
  2 ^ (k - 1) <= Zpos p < 2 ^ k -> Zpos (digits2_pos p) = k.
Proof.
  intros [Hl Hu]. pose proof (digits2_pos_bounds p) as [Hl' Hu'].
  assert (0 < k).
  { destruct (Z.lt_ge_cases 0 k) as [|Hk]; [done|].
    assert (2 ^ k <= 1).
    { destruct (Z.eq_dec k 0) as [->|]; [simpl; lia|].
      rewrite Z.pow_neg_r by lia. lia. }
    lia. }
  destruct (Z.lt_trichotomy (Zpos (digits2_pos p)) k) as [Hlt|[Heq|Hgt]];
    [|done|].
  - assert (2 ^ Zpos (digits2_pos p) <= 2 ^ (k - 1))
      by (apply Z.pow_le_mono_r; lia). lia.
  - assert (2 ^ k <= 2 ^ (Zpos (digits2_pos p) - 1))
      by (apply Z.pow_le_mono_r; lia). lia.
Qed.

Lemma iter_xO p k : Zpos (Pos.iter xO p k) = Zpos p * 2 ^ Zpos k.
Proof.
  induction k as [|k IH] using Pos.peano_ind.
  - simpl. lia.
  - rewrite Pos.iter_succ, Pos2Z.inj_xO, IH, Pos2Z.inj_succ, Z.pow_succ_r by lia.
    lia.
Qed.

Lemma record_of_loc m l :
  shr_m (shr_record_of_loc m l) = m
  /\ loc_of_shr_record (shr_record_of_loc m l) = l.
Proof. by destruct l as [|[]]. Qed.

(** Shifting to the format: nothing to do for 53 digits, one bit for 54. *)
Lemma shr_fexp_53 m e l :
  2 ^ 52 <= Zpos m < 2 ^ 53 -> -1074 <= e ->
  shr_fexp 53 1024 (Zpos m) e l = (shr_record_of_loc (Zpos m) l, e).
Proof.
  intros Hm He. unfold shr_fexp, Zdigits2.
  rewrite (digits2_pos_unique m 53) by (simpl; lia).
  unfold fexp, emin.
  replace (Z.max (53 + e - 53) (3 - 1024 - 53) - e) with 0 by lia.
  reflexivity.
Qed.

Lemma shr_fexp_54 m e l :
  2 ^ 53 <= Zpos m < 2 ^ 54 -> -1075 <= e ->
  shr_fexp 53 1024 (Zpos m) e l
  = (shr_1 (shr_record_of_loc (Zpos m) l), e + 1).
Proof.
  intros Hm He. unfold shr_fexp, Zdigits2.
  rewrite (digits2_pos_unique m 54) by (simpl; lia).
  unfold fexp, emin.
  replace (Z.max (54 + e - 53) (3 - 1024 - 53) - e) with 1 by lia.
  reflexivity.
Qed.

(** A mantissa of 53 digits, or [2^53] after a rounding up, as a float. *)
Definition renorm (s : bool) (m e : Z) : spec_float :=
  if m =? 2 ^ 53 then S754_finite s (2 ^ 52)%positive (e + 1)
  else S754_finite s (Z.to_pos m) e.

Lemma round_range m l :
  0 < m ->
  round_nearest_even m l = m \/ round_nearest_even m l = m + 1.
Proof.
  intros _. destruct l as [|[]]; cbn [round_nearest_even]; auto.
  destruct (Z.even m); auto.
Qed.

Lemma finish s m e :
  2 ^ 52 <= m <= 2 ^ 53 -> -1074 <= e <= 970 ->
  (let '(mrs, e') := shr_fexp 53 1024 m e loc_Exact in
   match shr_m mrs with
   | Z0 => S754_zero s
   | Zpos m' =>
       if e' <=? 1024 - 53 then S754_finite s m' e'
       else S754_infinity s
   | Zneg _ => S754_nan
   end) = renorm s m e.
Proof.
  intros Hm He. unfold renorm.
  destruct (Z.eqb_spec m (2 ^ 53)) as [->|Hne].
  - rewrite (shr_fexp_54 (2 ^ 53)%positive) by (simpl; lia).
    cbn [shr_record_of_loc shr_1 shr_m]. 
    replace (e + 1 <=? 1024 - 53) with true by (symmetry; apply Z.leb_le; lia).
    reflexivity.
  - destruct m as [|m|m]; try lia.
    rewrite shr_fexp_53 by lia. cbn [shr_record_of_loc shr_m].
    replace (e <=? 1024 - 53) with true by (symmetry; apply Z.leb_le; lia).
    reflexivity.
Qed.

Lemma bra_53 s m e l :
  2 ^ 52 <= Zpos m < 2 ^ 53 -> -1074 <= e <= 970 ->
  binary_round_aux 53 1024 s (Zpos m) e l
  = renorm s (round_nearest_even (Zpos m) l) e.
Proof.
  intros Hm He. unfold binary_round_aux.
  rewrite shr_fexp_53 by lia.
  destruct (record_of_loc (Zpos m) l) as [-> ->].
  apply finish; [|lia].
  destruct (round_range (Zpos m) l) as [->| ->]; lia.
Qed.

Lemma half_range m l :
  2 ^ 53 <= Zpos m < 2 ^ 54 ->
  2 ^ 52 <= shr_m (shr_1 (shr_record_of_loc (Zpos m) l)) < 2 ^ 53.
Proof.
  intros Hm.
  destruct l as [|[]]; destruct m as [m|m|];
    cbn [shr_record_of_loc shr_1 shr_m]; lia.
Qed.

Lemma bra_54 s m e l :
  2 ^ 53 <= Zpos m < 2 ^ 54 -> -1075 <= e <= 969 ->
  binary_round_aux 53 1024 s (Zpos m) e l
  = let mrs := shr_1 (shr_record_of_loc (Zpos m) l) in
    renorm s (round_nearest_even (shr_m mrs) (loc_of_shr_record mrs)) (e + 1).
Proof.
  intros Hm He. unfold binary_round_aux.
  rewrite shr_fexp_54 by lia. cbv zeta.
  apply finish; [|lia].
  pose proof (half_range m l Hm) as Hh.
  destruct (round_range (shr_m (shr_1 (shr_record_of_loc (Zpos m) l)))
              (loc_of_shr_record (shr_1 (shr_record_of_loc (Zpos m) l))))
    as [->| ->]; lia.
Qed.

(** [float64(p)] for a positive integer below [2^53] is exact: the integer
    shifted to 53 digits. *)
Lemma round_pos s p :
  Zpos p < 2 ^ 53 ->
  exists m e,
    binary_round 53 1024 s p 0 = S754_finite s m e
    /\ 2 ^ 52 <= Zpos m < 2 ^ 53
    /\ -52 <= e <= 0
    /\ Zpos m = Zpos p * 2 ^ (- e).
Proof.
  intros Hp. pose proof (digits2_pos_bounds p) as [Hl Hu].
  set (d := Zpos (digits2_pos p)) in *.
  assert (Hd : 1 <= d <= 53).
  { split; [subst d; lia|].
    destruct (Z.le_gt_cases d 53) as [|Hgt]; [done|].
    assert (2 ^ 53 <= 2 ^ (d - 1)) by (apply Z.pow_le_mono_r; lia). lia. }
  unfold binary_round.
  fold d. unfold fexp, emin.
  replace (Z.max (d + 0 - 53) (3 - 1024 - 53)) with (d - 53) by lia.
  unfold shl_align. replace (d - 53 - 0) with (d - 53) by lia.
  destruct (d - 53) as [|k|k] eqn:Hk; [|lia|].
  - assert (Hd53 : d = 53) by lia.
    assert (Hb : 2 ^ 52 <= Zpos p < 2 ^ 53).
    { rewrite Hd53 in Hl. change (53 - 1) with 52 in Hl. lia. }
    exists p, 0. rewrite bra_53 by lia.
    cbn [round_nearest_even]. unfold renorm.
    destruct (Z.eqb_spec (Zpos p) (2 ^ 53)) as [Heq|_]; [lia|].
    split; [reflexivity|]. split; [exact Hb|]. split; [lia|].
    change (2 ^ (- 0)) with 1. lia.
  - assert (Hk' : Zpos k = 53 - d) by lia.
    assert (Hm : Zpos (Pos.iter xO p k) = Zpos p * 2 ^ (53 - d))
      by (rewrite iter_xO, Hk'; reflexivity).
    assert (Hpow : 2 ^ (d - 1) * 2 ^ (53 - d) = 2 ^ 52).
    { rewrite <- Z.pow_add_r by lia. f_equal. lia. }
    assert (Hpow' : 2 ^ d * 2 ^ (53 - d) = 2 ^ 53).
    { rewrite <- Z.pow_add_r by lia. f_equal. lia. }
    assert (Hpos : 0 < 2 ^ (53 - d)) by (apply Z.pow_pos_nonneg; lia).
    assert (Hb : 2 ^ 52 <= Zpos (Pos.iter xO p k) < 2 ^ 53).
    { rewrite Hm. split.
      - rewrite <- Hpow. apply Z.mul_le_mono_nonneg_r; lia.
      - rewrite <- Hpow'. apply Z.mul_lt_mono_pos_r; lia. }
    exists (Pos.iter xO p k), (Zneg k).
    rewrite bra_53 by lia. cbn [round_nearest_even]. unfold renorm.
    destruct (Z.eqb_spec (Zpos (Pos.iter xO p k)) (2 ^ 53)) as [Heq|_]; [lia|].
    split; [reflexivity|]. split; [exact Hb|]. split; [lia|].
    rewrite Hm. f_equal. f_equal. lia.
Qed.

Lemma div_eucl_eq a b : Z.div_eucl a b = (a / b, a mod b).
Proof. unfold Z.div, Z.modulo. by destruct (Z.div_eucl a b). Qed.

(** The quotient of two floats with mantissas of 53 digits: the quotient
    of the first mantissa, shifted by 53 bits, by the second, rounded. *)
Lemma div_norm s m1 e1 m2 e2 :
  2 ^ 52 <= Zpos m1 < 2 ^ 53 -> 2 ^ 52 <= Zpos m2 < 2 ^ 53 ->
  -52 <= e1 <= 0 -> -52 <= e2 <= 0 ->
  Float64.div (S754_finite s m1 e1) (S754_finite false m2 e2)
  = binary_round_aux 53 1024 s
      ((Zpos m1 * 2 ^ 53) / Zpos m2) (e1 - e2 - 53)
      (new_location (Zpos m2) ((Zpos m1 * 2 ^ 53) mod Zpos m2)).
Proof.
  intros H1 H2 He1 He2.
  unfold Float64.div, Float64.prec, Float64.emax, SFdiv, SFdiv_core_binary,
    Zdigits2.
  rewrite (digits2_pos_unique m1 53), (digits2_pos_unique m2 53)
    by (simpl; lia).
  unfold fexp, emin.
  replace (Z.min (Z.max (53 + e1 - (53 + e2) - 53) (3 - 1024 - 53)) (e1 - e2))
    with (e1 - e2 - 53) by lia.
  replace (e1 - e2 - (e1 - e2 - 53)) with 53 by lia.
  rewrite Z.shiftl_mul_pow2 by lia. rewrite div_eucl_eq.
  by destruct s.
Qed.

(** *** Comparison with the float64 nearest to 0.05 *)

Definition d05 : spec_float := S754_finite false 7205759403792794 (-57).

Lemma ratio_5_100 : Float64.ratio 5 100 = d05.
Proof. vm_compute. reflexivity. Qed.

Lemma leb_d05 m e :
  Float64.leb (S754_finite false m e) d05
  = (e <? -57) || ((e =? -57) && (Zpos m <=? 7205759403792794)).
Proof.
  unfold Float64.leb, SFleb, SFcompare, d05.
  destruct (Z.compare_spec e (-57)) as [->|Hlt|Hgt].
  - replace (-57 <? -57) with false by reflexivity.
    replace (-57 =? -57) with true by reflexivity.
    cbn [orb andb]. unfold Z.leb. cbn [Z.compare]. unfold Pos.compare.
    by destruct (Pos.compare_cont Eq m 7205759403792794).
  - by replace (e <? -57) with true by (symmetry; apply Z.ltb_lt; lia).
  - replace (e <? -57) with false by (symmetry; apply Z.ltb_ge; lia).
    by replace (e =? -57) with false by (symmetry; apply Z.eqb_neq; lia).
Qed.

Lemma abs_renorm s m e : Float64.abs (renorm s m e) = renorm false m e.
Proof. unfold renorm. by destruct (m =? 2 ^ 53). Qed.

Lemma leb_renorm m e :
  2 ^ 52 <= m <= 2 ^ 53 ->
  Float64.leb (renorm false m e) d05 = true
  <-> e <= -58 \/ (e = -57 /\ m <= 7205759403792794).
Proof.
  intros Hm. unfold renorm.
  destruct (Z.eqb_spec m (2 ^ 53)) as [->|Hne]; rewrite leb_d05.
  - rewrite orb_true_iff, andb_true_iff, Z.ltb_lt, Z.eqb_eq, Z.leb_le.
    change (Zpos (2 ^ 52)) with (2 ^ 52). lia.
  - destruct m as [|m|m]; try lia.
    rewrite orb_true_iff, andb_true_iff, Z.ltb_lt, Z.eqb_eq, Z.leb_le.
    rewrite Z2Pos.id by lia. lia.
Qed.

(** Rounding the quotient [q] with remainder [r] of a division by [n]. *)
Lemma round_loc q n r :
  0 < n -> 0 <= r < n ->
  round_nearest_even q (new_location n r)
  = if 2 * r <? n then q
    else if 2 * r =? n then (if Z.even q then q else q + 1)
    else q + 1.
Proof.
  intros Hn Hr. unfold new_location, new_location_even, new_location_odd.
  destruct (Z.even n) eqn:Hev; destruct (Z.eqb_spec r 0) as [->|Hr0].
  - by destruct (Z.ltb_spec (2 * 0) n); [|lia].
  - destruct (Z.compare_spec (2 * r) n) as [Heq|Hlt|Hgt];
      cbn [round_nearest_even];
      destruct (Z.ltb_spec (2 * r) n); try lia;
      destruct (Z.eqb_spec (2 * r) n); try lia; reflexivity.
  - by destruct (Z.ltb_spec (2 * 0) n); [|lia].
  - assert (Hodd : 2 * r <> n).
    { intros <-. rewrite Z.even_mul in Hev. discriminate Hev. }
    destruct (Z.compare_spec (2 * r + 1) n) as [Heq|Hlt|Hgt];
      cbn [round_nearest_even];
      destruct (Z.ltb_spec (2 * r) n); try lia;
      destruct (Z.eqb_spec (2 * r) n); try lia; reflexivity.
Qed.

(** The rounded quotient against the mantissa of the bound, when the
    quotient has 53 digits. *)
Lemma round_le_53 q n r :
  0 < n -> 0 <= r < n ->
  round_nearest_even q (new_location n r) <= 7205759403792794
  <-> 2 * (q * n + r) <= 14411518807585589 * n.
Proof.
  intros Hn Hr. rewrite round_loc by done.
  destruct (Z.lt_trichotomy q 7205759403792794) as [Hlt|[->|Hgt]].
  - assert (q * n <= (7205759403792794 - 1) * n)
      by (apply Z.mul_le_mono_nonneg_r; lia).
    destruct (Z.ltb_spec (2 * r) n); [lia|].
    destruct (Z.eqb_spec (2 * r) n); [destruct (Z.even q)|]; lia.
  - change (Z.even 7205759403792794) with true.
    destruct (Z.ltb_spec (2 * r) n); [lia|].
    destruct (Z.eqb_spec (2 * r) n); lia.
  - assert ((7205759403792794 + 1) * n <= q * n)
      by (apply Z.mul_le_mono_nonneg_r; lia).
    destruct (Z.ltb_spec (2 * r) n); [lia|].
    destruct (Z.eqb_spec (2 * r) n); [destruct (Z.even q)|]; lia.
Qed.

Lemma new_location_cases n r :
  (r = 0 /\ new_location n r = loc_Exact)
  \/ (r <> 0 /\ exists c, new_location n r = loc_Inexact c).
Proof.
  unfold new_location, new_location_even, new_location_odd.
  destruct (Z.eqb_spec r 0) as [->|Hr0].
  - left. by destruct (Z.even n).
  - right. split; [done|].
    destruct (Z.even n); rewrite (proj2 (Z.eqb_neq r 0) Hr0); eauto.
Qed.

(** The same when the quotient has 54 digits and loses its last bit. *)
Lemma round_le_54 q n r :
  0 < n -> 0 <= r < n ->
  let mrs := shr_1 (shr_record_of_loc (Zpos q) (new_location n r)) in
  round_nearest_even (shr_m mrs) (loc_of_shr_record mrs) <= 7205759403792794
  <-> Zpos q * n + r <= 14411518807585589 * n.
Proof.
  intros Hn Hr mrs.
  assert (Hcases :
    exists p, (Zpos q = 2 * p
               /\ round_nearest_even (shr_m mrs) (loc_of_shr_record mrs) = p)
           \/ (Zpos q = 2 * p + 1 /\ r = 0
               /\ round_nearest_even (shr_m mrs) (loc_of_shr_record mrs)
                  = if Z.even p then p else p + 1)
           \/ (Zpos q = 2 * p + 1 /\ r <> 0
               /\ round_nearest_even (shr_m mrs) (loc_of_shr_record mrs)
                  = p + 1)).
  { subst mrs.
    destruct (new_location_cases n r) as [[H0 ->]|[H0 [c ->]]].
    - destruct q as [p|p|].
      + exists (Zpos p). right; left. by rewrite Pos2Z.inj_xI.
      + exists (Zpos p). left. by rewrite Pos2Z.inj_xO.
      + exists 0. right; left. done.
    - destruct q as [p|p|].
      + exists (Zpos p). right; right. rewrite Pos2Z.inj_xI.
        by destruct c.
      + exists (Zpos p). left. rewrite Pos2Z.inj_xO. by destruct c.
      + exists 0. right; right. by destruct c. }
  destruct Hcases as [p [[Hq ->]|[[Hq [-> ->]]|[Hq [Hr0 ->]]]]]; rewrite Hq.
  - destruct (Z.le_gt_cases p 7205759403792794) as [Hle|Hgt].
    + assert (p * n <= 7205759403792794 * n)
        by (apply Z.mul_le_mono_nonneg_r; lia). lia.
    + assert ((7205759403792794 + 1) * n <= p * n)
        by (apply Z.mul_le_mono_nonneg_r; lia). lia.
  - destruct (Z.lt_trichotomy p 7205759403792794) as [Hlt|[->|Hgt]].
    + assert (p * n <= (7205759403792794 - 1) * n)
        by (apply Z.mul_le_mono_nonneg_r; lia).
      destruct (Z.even p); lia.
    + change (Z.even 7205759403792794) with true. lia.
    + assert ((7205759403792794 + 1) * n <= p * n)
        by (apply Z.mul_le_mono_nonneg_r; lia).
      destruct (Z.even p); lia.
  - destruct (Z.le_gt_cases p (7205759403792794 - 1)) as [Hle|Hgt].
    + assert (p * n <= (7205759403792794 - 1) * n)
        by (apply Z.mul_le_mono_nonneg_r; lia). lia.
    + assert (7205759403792794 * n <= p * n)
        by (apply Z.mul_le_mono_nonneg_r; lia). lia.
Qed.

(** The test on two floats with mantissas of 53 digits, in integers. *)
Lemma test_norm s m1 e1 m2 e2 :
  2 ^ 52 <= Zpos m1 < 2 ^ 53 -> 2 ^ 52 <= Zpos m2 < 2 ^ 53 ->
  -52 <= e1 <= 0 -> -52 <= e2 <= 0 ->
  Float64.leb
    (Float64.abs (Float64.div (S754_finite s m1 e1) (S754_finite false m2 e2)))
    d05 = true
  <-> Zpos m1 * 2 ^ (e1 - e2 + 58) <= 14411518807585589 * Zpos m2.
Proof.
  intros H1 H2 He1 He2. rewrite div_norm by done.
  set (n := Zpos m2) in *. set (a := Zpos m1) in *.
  pose proof (Z.div_mod (a * 2 ^ 53) n ltac:(lia)) as HA.
  pose proof (Z.mod_pos_bound (a * 2 ^ 53) n ltac:(lia)) as Hr.
  set (q := a * 2 ^ 53 / n) in *. set (r := (a * 2 ^ 53) mod n) in *.
  assert (Hq : 2 ^ 52 <= q < 2 ^ 54).
  { split.
    - apply Z.div_le_lower_bound; lia.
    - apply Z.div_lt_upper_bound; lia. }
  destruct q as [|qp|qp] eqn:Eq; [lia| |lia].
  set (d := e1 - e2) in *.
  assert (Hpow : forall k, 0 <= k -> 0 < 2 ^ k)
    by (intros; apply Z.pow_pos_nonneg; lia).
  destruct (Z.lt_ge_cases (Zpos qp) (2 ^ 53)) as [Hlt|Hge].
  - rewrite bra_53 by lia. rewrite abs_renorm, leb_renorm
      by (destruct (round_range (Zpos qp) (new_location n r)) as [->| ->]; lia).
    assert (Hqn : n * Zpos qp <= n * (2 ^ 53 - 1))
      by (apply Z.mul_le_mono_nonneg_l; lia).
    assert (Hqn' : n * 2 ^ 52 <= n * Zpos qp)
      by (apply Z.mul_le_mono_nonneg_l; lia).
    destruct (Z.lt_trichotomy d (-4)) as [Hd|[Hd|Hd]].
    + assert (2 ^ (d + 58) <= 2 ^ 53) by (apply Z.pow_le_mono_r; lia).
      assert (a * 2 ^ (d + 58) <= a * 2 ^ 53)
        by (apply Z.mul_le_mono_nonneg_l; lia).
      split; [lia|intros _; left; lia].
    + rewrite Hd. change (-4 + 58) with 54. rewrite round_le_53 by lia.
      change (2 ^ 54) with (2 * 2 ^ 53). lia.
    + assert (2 ^ 55 <= 2 ^ (d + 58)) by (apply Z.pow_le_mono_r; lia).
      assert (a * 2 ^ 55 <= a * 2 ^ (d + 58))
        by (apply Z.mul_le_mono_nonneg_l; lia).
      change (2 ^ 55) with (4 * 2 ^ 53) in *. lia.
  - rewrite bra_54 by lia. cbv zeta.
    rewrite abs_renorm, leb_renorm.
    2:{ pose proof (half_range qp (new_location n r) ltac:(lia)) as Hh.
        destruct (round_range
                    (shr_m (shr_1 (shr_record_of_loc (Zpos qp)
                                     (new_location n r))))
                    (loc_of_shr_record
                       (shr_1 (shr_record_of_loc (Zpos qp)
                                 (new_location n r)))))
          as [->| ->]; lia. }
    assert (Hqn : n * Zpos qp <= n * (2 ^ 54 - 1))
      by (apply Z.mul_le_mono_nonneg_l; lia).
    assert (Hqn' : n * 2 ^ 53 <= n * Zpos qp)
      by (apply Z.mul_le_mono_nonneg_l; lia).
    destruct (Z.lt_trichotomy d (-5)) as [Hd|[Hd|Hd]].
    + assert (2 ^ (d + 58) <= 2 ^ 52) by (apply Z.pow_le_mono_r; lia).
      assert (a * 2 ^ (d + 58) <= a * 2 ^ 52)
        by (apply Z.mul_le_mono_nonneg_l; lia).
      change (2 ^ 53) with (2 * 2 ^ 52) in HA.
      split; [lia|intros _; left; lia].
    + rewrite Hd. change (-5 + 58) with 53.
      pose proof (round_le_54 qp n r ltac:(lia) Hr) as Hrd. cbv zeta in Hrd.
      rewrite Hrd. lia.
    + assert (2 ^ 54 <= 2 ^ (d + 58)) by (apply Z.pow_le_mono_r; lia).
      assert (a * 2 ^ 54 <= a * 2 ^ (d + 58))
        by (apply Z.mul_le_mono_nonneg_l; lia).
      change (2 ^ 54) with (2 * 2 ^ 53) in *. lia.
Qed.

Lemma of_int_cases x :
  0 < Z.abs x < 2 ^ 53 ->
  exists m e,
    Float64.of_int x = S754_finite (x <? 0) m e
    /\ 2 ^ 52 <= Zpos m < 2 ^ 53
    /\ -52 <= e <= 0
    /\ Zpos m = Z.abs x * 2 ^ (- e).
Proof.
  intros Hx. destruct x as [|p|p]; [lia| |].
  - destruct (round_pos false p ltac:(lia)) as (m & e & H); by exists m, e.
  - destruct (round_pos true p ltac:(lia)) as (m & e & H); by exists m, e.
Qed.

(** The skip test of the downloader with the default 5%, for sizes below
    [2^53]: the float64 comparison is a comparison of integers. *)
Lemma within_5_percent x y :
  Z.abs x < 2 ^ 53 -> 0 < y < 2 ^ 53 ->
  Float64.leb
    (Float64.abs (Float64.div (Float64.of_int x) (Float64.of_int y)))
    (Float64.ratio 5 100) = true
  <-> Z.abs x * 2 ^ 58 <= 14411518807585589 * y.
Proof.
  intros Hx Hy. rewrite ratio_5_100.
  destruct (of_int_cases y ltac:(lia)) as (m2 & e2 & E2 & Hm2 & He2 & Hv2).
  replace (y <? 0) with false in E2 by (symmetry; apply Z.ltb_ge; lia).
  rewrite E2.
  destruct (Z.eq_dec x 0) as [->|Hx0].
  - split; [intros _; simpl; lia|intros _; reflexivity].
  - destruct (of_int_cases x ltac:(lia))
      as (m1 & e1 & E1 & Hm1 & He1 & Hv1).
    rewrite E1, test_norm by done.
    rewrite Hv1, Hv2. rewrite (Z.abs_eq y) by lia.
    assert (Hp : 0 < 2 ^ (- e2)) by (apply Z.pow_pos_nonneg; lia).
    replace (Z.abs x * 2 ^ (- e1) * 2 ^ (e1 - e2 + 58))
      with (Z.abs x * 2 ^ 58 * 2 ^ (- e2)).
    2:{ rewrite <- !Z.mul_assoc, <- !Z.pow_add_r by lia.
        f_equal. f_equal. lia. }
    rewrite Z.mul_assoc.
    split; intros H.
    + apply (Z.mul_le_mono_pos_r _ _ (2 ^ (- e2))); done.
    + apply Z.mul_le_mono_nonneg_r; lia.
Qed.

(** A difference of sizes below [2^53] is itself as an int64. *)
Lemma wrap_64_id x : Z.abs x < 2 ^ 53 -> wrap 64 x = x.
Proof.
  intros Hx. unfold wrap. change (2 ^ (64 - 1)) with 9223372036854775808.
  change (2 ^ 64) with 18446744073709551616.
  change (2 ^ 53) with 9007199254740992 in Hx.
  rewrite Z.mod_small; lia.
Qed.

End Float64Facts.

(** ** The download manager *)

Module ManagerFacts.
Import Strings Model Dto Bandcamp Config Download.

Section Facts.
Context {P : Platform} {C : Codec} {E : Env}.
Variable settings : Settings.

(** *** Events and observed calls are only ever appended *)

Definition extends (m m' : Manager) : Prop :=
  events m `prefix_of` events m' /\ trace m `prefix_of` trace m'.

Definition grows {A} (c : M A) : Prop := forall m, extends m (c m).2.

Lemma extends_refl m : extends m m.
Proof. by split. Qed.

Lemma extends_trans m1 m2 m3 : extends m1 m2 -> extends m2 m3 -> extends m1 m3.
Proof. intros [? ?] [? ?]. split; by etrans. Qed.

Lemma extends_event m m' ev : extends m m' -> ev ∈ events m -> ev ∈ events m'.
Proof. intros [[k ->] _] H. apply elem_of_app. by left. Qed.

Lemma extends_action m m' a : extends m m' -> a ∈ trace m -> a ∈ trace m'.
Proof. intros [_ [k ->]] H. apply elem_of_app. by left. Qed.

Lemma grows_ret {A} (a : A) : grows (mret a).
Proof. intros m. apply extends_refl. Qed.

Lemma grows_bind {A B} (c : M A) (k : A -> M B) :
  grows c -> (forall a, grows (k a)) -> grows (c ≫= k).
Proof.
  intros Hc Hk m. eapply extends_trans; [apply Hc|]. apply Hk.
Qed.

Lemma grows_call {A} (op : World -> A * World) : grows (call op).
Proof. intros m. by split. Qed.

Lemma grows_observe a : grows (observe a).
Proof. intros m. split; simpl; [done|by apply prefix_app_r]. Qed.

Lemma grows_progress ev : grows (progress ev).
Proof. intros m. split; simpl; [by apply prefix_app_r|done]. Qed.

Lemma grows_addAlbum album : grows (addAlbum album).
Proof. intros m. by split. Qed.

Lemma grows_incTotalFiles : grows incTotalFiles.
Proof. intros m. by split. Qed.

Lemma grows_addTotalBytes n : grows (addTotalBytes n).
Proof. intros m. by split. Qed.

Lemma grows_incDownloadedFiles : grows incDownloadedFiles.
Proof. intros m. by split. Qed.

Create HintDb grows.

#[local] Hint Resolve grows_ret grows_call grows_observe grows_progress
  grows_addAlbum grows_incTotalFiles grows_addTotalBytes
  grows_incDownloadedFiles : grows.

(** Decomposes a goal [grows c] along the binds and branches of [c]. *)
Ltac grows_step :=
  first
    [ solve [auto 1 with grows nocore]
    | apply grows_bind; [|intros ?]
    | match goal with
      | |- grows (match ?x with _ => _ end) => destruct x
      end ].

Ltac grows_auto := repeat grows_step.

Lemma grows_waitForRetry tries : grows (waitForRetry settings tries).
Proof. unfold waitForRetry. grows_auto. Qed.
#[local] Hint Resolve grows_waitForRetry : grows.

Lemma grows_trackTries n : forall tries track err,
  grows (trackTries settings n tries track err).
Proof.
  induction n as [|n IH]; intros tries track err; simpl; grows_auto.
Qed.
#[local] Hint Resolve grows_trackTries : grows.

Lemma grows_transfer track album artwork :
  grows (transfer settings track album artwork).
Proof. unfold transfer. grows_auto. Qed.
#[local] Hint Resolve grows_transfer : grows.

Lemma grows_downloadTrack track album artwork :
  grows (downloadTrack settings track album artwork).
Proof. unfold downloadTrack. grows_auto. Qed.
#[local] Hint Resolve grows_downloadTrack : grows.

Lemma grows_trackTask album artwork track successCount :
  grows (trackTask settings album artwork track successCount).
Proof. unfold trackTask. grows_auto. Qed.
#[local] Hint Resolve grows_trackTask : grows.

Lemma grows_errgroup {A S} (f : A -> S -> M (option error * S)) items :
  (forall x s, grows (f x s)) ->
  forall s first, grows (errgroup f items s first).
Proof.
  intros Hf. induction items as [|x rest IH]; intros s first; simpl.
  - apply grows_ret.
  - apply grows_bind; [apply Hf|]. intros r.
    destruct first, r.1; grows_auto.
Qed.

Lemma grows_artworkTries n : forall tries album artwork err,
  grows (artworkTries settings n tries album artwork err).
Proof.
  induction n as [|n IH]; intros tries album artwork err; simpl; grows_auto.
Qed.
#[local] Hint Resolve grows_artworkTries : grows.

Lemma grows_downloadArtwork album : grows (downloadArtwork settings album).
Proof. unfold downloadArtwork. grows_auto. Qed.
#[local] Hint Resolve grows_downloadArtwork : grows.

Lemma grows_trackGroup album artwork tracks s first :
  grows (errgroup (trackTask settings album artwork) tracks s first).
Proof. apply grows_errgroup. intros. apply grows_trackTask. Qed.
#[local] Hint Resolve grows_trackGroup : grows.

Lemma grows_downloadAlbum album : grows (downloadAlbum settings album).
Proof. unfold downloadAlbum. grows_auto. Qed.
#[local] Hint Resolve grows_downloadAlbum : grows.

Lemma grows_albumTask album u : grows (albumTask settings album u).
Proof. unfold albumTask. grows_auto. Qed.
#[local] Hint Resolve grows_albumTask : grows.

Lemma grows_albumGroup l s first :
  grows (errgroup (albumTask settings) l s first).
Proof. apply grows_errgroup. intros. apply grows_albumTask. Qed.

(** *** What a group returns *)

Lemma bind_eq {A B} (c : M A) (k : A -> M B) m :
  (c ≫= k) m = k (c m).1 (c m).2.
Proof. reflexivity. Qed.

(** An error a group returns is the one it started with or the one some
    task returned; that task ran before the group ended. *)
Lemma errgroup_Some {A S} (f : A -> S -> M (option error * S)) items err :
  (forall x s, grows (f x s)) ->
  forall s first m,
    (errgroup f items s first m).1.1 = Some err ->
    first = Some err
    \/ exists x s' m', x ∈ items /\ (f x s' m').1.1 = Some err
         /\ extends (f x s' m').2 (errgroup f items s first m).2.
Proof.
  intros Hf. induction items as [|x rest IH]; intros s first m; simpl.
  - intros ->. by left.
  - rewrite bind_eq.
    destruct first as [e0|]; [|destruct (f x s m).1.1 as [e1|] eqn:E1].
    + intros H. apply IH in H as [H|(y & s' & m' & Hy & Hr & Hext)]; [by left|].
      right. exists y, s', m'. split; [by right|done].
    + rewrite bind_eq. intros H.
      apply IH in H as [[= <-]|(y & s' & m' & Hy & Hr & Hext)].
      * right. exists x, s, m. split; [by left|]. split; [done|].
        eapply extends_trans; [|apply grows_errgroup; exact Hf].
        by split.
      * right. exists y, s', m'. split; [by right|done].
    + intros H. apply IH in H as [H|(y & s' & m' & Hy & Hr & Hext)]; [done|].
      right. exists y, s', m'. split; [by right|done].
Qed.

(** A group with a task that always fails returns an error. *)
Lemma errgroup_fails {A S} (f : A -> S -> M (option error * S)) items x :
  x ∈ items ->
  (forall s m, (f x s m).1.1 <> None) ->
  forall s first m, (errgroup f items s first m).1.1 <> None.
Proof.
  intros Hx Hf. assert (Hkeep : forall l s e m, (errgroup f l s (Some e) m).1.1 = Some e).
  { induction l as [|y l IH]; intros s e m; simpl; [done|].
    rewrite bind_eq. apply IH. }
  induction items as [|y rest IH]; intros s first m; [by inversion Hx|].
  simpl. rewrite bind_eq.
  apply elem_of_cons in Hx as [<-|Hx].
  - destruct first as [e0|]; [by rewrite Hkeep|].
    destruct (f x s m).1.1 as [e1|] eqn:E1; [|by destruct (Hf s m)].
    rewrite bind_eq. by rewrite Hkeep.
  - destruct first as [e0|]; [by rewrite Hkeep|].
    destruct (f y s m).1.1 as [e1|] eqn:E1.
    + rewrite bind_eq. by rewrite Hkeep.
    + by apply IH.
Qed.

(** A group of tasks that never fail returns what it started with. *)
Lemma errgroup_keeps {A S} (f : A -> S -> M (option error * S)) items :
  (forall x s m, (f x s m).1.1 = None) ->
  forall s first m, (errgroup f items s first m).1.1 = first.
Proof.
  intros Hf. induction items as [|x rest IH]; intros s first m; simpl; [done|].
  rewrite bind_eq, Hf. destruct first; apply IH.
Qed.

(** Something that holds after a task of the group and survives appended
    events and calls holds when the group ends. *)
Lemma errgroup_reaches {A S} (f : A -> S -> M (option error * S)) items x
    (Q : Manager -> Prop) :
  (forall x s, grows (f x s)) ->
  (forall m m', extends m m' -> Q m -> Q m') ->
  x ∈ items ->
  (forall s m, Q (f x s m).2) ->
  forall s first m, Q (errgroup f items s first m).2.
Proof.
  intros Hf Hmono Hx Hq.
  induction items as [|y rest IH]; intros s first m; [by inversion Hx|].
  simpl. rewrite bind_eq. apply elem_of_cons in Hx as [<-|Hx].
  - destruct first as [e0|]; [|destruct (f x s m).1.1 as [e1|]].
    + apply (Hmono (f x s m).2); [apply (grows_errgroup f rest Hf)|apply Hq].
    + rewrite bind_eq.
      eapply Hmono; [apply (grows_errgroup f rest Hf)|].
      apply (Hmono (f x s m).2); [by split|apply Hq].
    + apply (Hmono (f x s m).2); [apply (grows_errgroup f rest Hf)|apply Hq].
  - destruct first as [e0|]; [|destruct (f y s m).1.1 as [e1|]];
      rewrite ?bind_eq; by apply IH.
Qed.

(** *** Albums *)

Lemma trackTask_result album artwork track successCount m :
  (trackTask settings album artwork track successCount m).1.1 = None.
Proof.
  unfold trackTask. rewrite bind_eq.
  by destruct (downloadTrack settings track album artwork m).1.
Qed.

(** [downloadAlbum] returns the error of the directory creation and no
    other. *)
Lemma downloadAlbum_result album m :
  (downloadAlbum settings album m).1
  = (os_MkdirAll (Album_Path album) (world m)).1.
Proof.
  unfold downloadAlbum. rewrite bind_eq. cbn [call fst].
  destruct (os_MkdirAll (Album_Path album) (world m)).1 as [err|]; [done|].
  rewrite !bind_eq.
  rewrite errgroup_keeps by (intros; apply trackTask_result).
  reflexivity.
Qed.

Definition directoryError (err : error) : ProgressEvent :=
  {| Message := "Error creating directory: " +:+ Error err;
     Level := LevelError |}.

Lemma downloadAlbum_reports album m err :
  (os_MkdirAll (Album_Path album) (world m)).1 = Some err ->
  directoryError err ∈ events (downloadAlbum settings album m).2.
Proof.
  intros H. unfold downloadAlbum. rewrite bind_eq. cbn [call fst]. rewrite H.
  rewrite bind_eq. simpl. apply elem_of_app. right. by left.
Qed.

Lemma StartDownloads_Some m err :
  (StartDownloads settings m).1 = Some err ->
  exists album w,
    album ∈ albums m
    /\ (os_MkdirAll (Album_Path album) w).1 = Some err
    /\ directoryError err ∈ events (StartDownloads settings m).2.
Proof.
  unfold StartDownloads. rewrite bind_eq. cbn [mret M_ret fst snd].
  intros H. apply errgroup_Some in H as [H|(album & u & m' & Hin & Hr & Hext)];
    [done| |intros; apply grows_albumTask].
  unfold albumTask in Hr, Hext. rewrite bind_eq in Hr, Hext.
  cbn [mret M_ret fst snd] in Hr, Hext. rewrite downloadAlbum_result in Hr.
  exists album, (world m'). split; [done|]. split; [done|].
  eapply extends_event; [exact Hext|]. by apply downloadAlbum_reports.
Qed.

Lemma StartDownloads_fails m album :
  album ∈ albums m ->
  (forall w, (os_MkdirAll (Album_Path album) w).1 <> None) ->
  (StartDownloads settings m).1 <> None.
Proof.
  intros Hin Hf. unfold StartDownloads. rewrite bind_eq.
  cbn [mret M_ret fst snd]. eapply errgroup_fails; [exact Hin|].
  intros u m'. unfold albumTask. rewrite bind_eq. cbn [mret M_ret fst snd].
  rewrite downloadAlbum_result. apply Hf.
Qed.

(** *** Tracks: the skip rule and the retry loop *)

Definition setWorld (m : Manager) (w : World) : Manager :=
  {| albums := albums m; totalBytes := totalBytes m;
     receivedBytes := receivedBytes m; totalFiles := totalFiles m;
     downloadedFiles := downloadedFiles m; events := events m;
     trace := trace m; world := w |}.

(** The world after the probes [downloadTrack] starts with: the stat of the
    destination and, when the file exists, the size request. *)
Definition probed (track : Track) (w : World) : World :=
  match (os_Stat (Track_Path track) w).1 with
  | Ok _ =>
      (http_GetFileSize (Track_Mp3URL track) (os_Stat (Track_Path track) w).2).2
  | Err _ => (os_Stat (Track_Path track) w).2
  end.

(** Whether the skip rule applies to a track in a world. *)
Definition skipsAt (track : Track) (w : World) : bool :=
  match (os_Stat (Track_Path track) w).1 with
  | Ok size =>
      let expectedSize :=
        match (http_GetFileSize (Track_Mp3URL track)
                 (os_Stat (Track_Path track) w).2).1 with
        | Ok n => n
        | Err _ => 0%Z
        end in
      (0 <? expectedSize)%Z && withinAllowedDifference settings size expectedSize
  | Err _ => false
  end.

Definition skipEvent (track : Track) : ProgressEvent :=
  {| Message := "Skipping existing: " +:+ filepath_Base (Track_Path track);
     Level := LevelVerbose |}.

Definition downloadedEvent (track : Track) : ProgressEvent :=
  {| Message := "Downloaded: " +:+ filepath_Base (Track_Path track);
     Level := LevelVerbose |}.

Definition downloadError (track : Track) (err : error) : ProgressEvent :=
  {| Message := "Error downloading " +:+ Track_Title track +:+ ": " +:+ Error err;
     Level := LevelError |}.

(** The state a skipped track leaves. *)
Definition skipState (track : Track) (m : Manager) : Manager :=
  {| albums := albums m; totalBytes := totalBytes m;
     receivedBytes := receivedBytes m; totalFiles := totalFiles m;
     downloadedFiles := wrap 32 (downloadedFiles m + 1);
     events := events m ++ [skipEvent track];
     trace := trace m; world := probed track (world m) |}.

Lemma downloadTrack_cases track album artwork m :
  downloadTrack settings track album artwork m
  = if skipsAt track (world m) then (None, skipState track m)
    else transfer settings track album artwork
           (setWorld m (probed track (world m))).
Proof.
  unfold downloadTrack, skipsAt, skipState, probed. rewrite bind_eq.
  cbn [call fst snd world].
  destruct (os_Stat (Track_Path track) (world m)).1 as [size|e]; [|reflexivity].
  rewrite bind_eq. cbn [call fst snd world].
  destruct (http_GetFileSize (Track_Mp3URL track)
              (os_Stat (Track_Path track) (world m)).2).1 as [n|e];
    cbv zeta.
  - destruct ((0 <? n)%Z && withinAllowedDifference settings size n);
      reflexivity.
  - reflexivity.
Qed.

(** The wait after the failed attempt number [tries]. *)
Definition cooldownAt (tries : Z) : Q :=
  (DownloadRetryCooldown settings * DownloadRetryExponent settings ^ tries)%Q.

(** [n] failed attempts at a track, the first with index [tries]: a transfer
    and a wait each. *)
Fixpoint attemptsFrom (track : Track) (n : nat) (tries : Z) : list Action :=
  match n with
  | O => []
  | S n' =>
      ADownload (Track_Mp3URL track) (Track_Path track)
      :: AWait (cooldownAt tries) :: attemptsFrom track n' (tries + 1)%Z
  end.

Lemma attemptsFrom_flat_map track n : forall k,
  attemptsFrom track n (Z.of_nat k)
  = flat_map (fun i => [ADownload (Track_Mp3URL track) (Track_Path track);
                        AWait (cooldownAt (Z.of_nat i))])
             (seq k n).
Proof.
  induction n as [|n IH]; intros k; [done|].
  cbn [attemptsFrom seq flat_map]. simpl app. do 2 f_equal.
  replace (Z.of_nat k + 1)%Z with (Z.of_nat (S k)) by lia. apply IH.
Qed.

Lemma trackTries_failing track :
  (forall w, (http_DownloadFile (Track_Mp3URL track) (Track_Path track) w).1 <> None) ->
  forall n tries err m,
    let r := trackTries settings n tries track err m in
    trace r.2 = (trace m ++ attemptsFrom track n tries)%list
    /\ (n <> 0 -> r.1 <> None)
    /\ downloadedFiles r.2 = downloadedFiles m.
Proof.
  intros Hf. induction n as [|n IH]; intros tries err m; simpl.
  - by rewrite List.app_nil_r.
  - rewrite !bind_eq. cbn [observe call fst snd world trace].
    destruct (http_DownloadFile (Track_Mp3URL track) (Track_Path track) (world m)).1
      as [e|] eqn:Hdl; [|by destruct (Hf (world m))].
    rewrite !bind_eq.
    match goal with
    | |- context [trackTries settings n ?t track ?e ?m'] =>
        destruct (IH t e m') as (Htr & Hres & Hcnt)
    end.
    split; [|split].
    + rewrite Htr. unfold waitForRetry. rewrite !bind_eq.
      cbn [observe call progress fst snd trace].
      rewrite <- !List.app_assoc. reflexivity.
    + intros _. destruct n as [|n']; [done|]. by apply Hres.
    + rewrite Hcnt. reflexivity.
Qed.

Lemma transfer_failing track album artwork m :
  (1 <= DownloadMaxRetries settings)%Z ->
  (forall w, (http_DownloadFile (Track_Mp3URL track) (Track_Path track) w).1 <> None) ->
  let r := transfer settings track album artwork m in
  r.1 <> None
  /\ trace r.2
     = (trace m ++ attemptsFrom track (Z.to_nat (DownloadMaxRetries settings)) 0)%list
  /\ downloadedFiles r.2 = downloadedFiles m.
Proof.
  intros Hmax Hf. unfold transfer. cbv zeta. rewrite bind_eq.
  destruct (trackTries_failing track Hf
              (Z.to_nat (DownloadMaxRetries settings)) 0%Z None m)
    as (Htr & Hres & Hcnt).
  destruct (trackTries settings (Z.to_nat (DownloadMaxRetries settings)) 0
              track None m).1 as [e|] eqn:Hr.
  - done.
  - exfalso. apply Hres; [lia|done].
Qed.

(** A state reached by running [c] extends the state [c] started from. *)
Ltac by_grows :=
  match goal with
  | |- extends ?st (?c ?st).2 =>
      let H := fresh in assert (H : grows c) by grows_auto; apply H
  end.

Lemma reach_after {A} (c : M A) (Q : Manager -> Prop) m :
  (forall m m', extends m m' -> Q m -> Q m') ->
  grows c -> Q m -> Q (c m).2.
Proof. intros Hmono Hc. apply Hmono, Hc. Qed.

(** A transfer that ends well ends with the event of the download. *)
Lemma transfer_None track album artwork m :
  (transfer settings track album artwork m).1 = None ->
  exists evs,
    events (transfer settings track album artwork m).2
    = (evs ++ [downloadedEvent track])%list.
Proof.
  unfold transfer. rewrite bind_eq.
  destruct (trackTries settings (Z.to_nat (DownloadMaxRetries settings)) 0
              track None m).1 as [e|]; [done|].
  intros _. rewrite !bind_eq. cbn [progress mret M_ret fst snd events].
  by eexists.
Qed.

Lemma transfer_succeeding track album artwork m :
  (1 <= DownloadMaxRetries settings)%Z ->
  (forall w, (http_DownloadFile (Track_Mp3URL track) (Track_Path track) w).1 = None) ->
  let r := transfer settings track album artwork m in
  r.1 = None
  /\ ADownload (Track_Mp3URL track) (Track_Path track) ∈ trace r.2
  /\ downloadedEvent track ∈ events r.2.
Proof.
  intros Hmax Hok. cbv zeta.
  assert (Hn : exists n, Z.to_nat (DownloadMaxRetries settings) = S n)
    by (exists (Z.to_nat (DownloadMaxRetries settings) - 1); lia).
  destruct Hn as [n Hn].
  assert (Htries :
    let t := trackTries settings (S n) 0 track None m in
    t.1 = None /\ ADownload (Track_Mp3URL track) (Track_Path track) ∈ trace t.2).
  { simpl. rewrite !bind_eq. cbn [observe call fst snd world].
    rewrite Hok. cbn [mret M_ret fst snd trace]. split; [done|].
    apply elem_of_app. right. by left. }
  destruct Htries as [Hres Htr].
  unfold transfer. rewrite bind_eq, Hn, Hres. split; [|split].
  - reflexivity.
  - eapply extends_action; [|exact Htr]. by_grows.
  - rewrite !bind_eq. cbn [progress mret M_ret fst snd events].
    apply elem_of_app. right. by left.
Qed.

Lemma trackTask_failing album artwork track :
  (1 <= DownloadMaxRetries settings)%Z ->
  (forall w, skipsAt track w = false) ->
  (forall w, (http_DownloadFile (Track_Mp3URL track) (Track_Path track) w).1 <> None) ->
  forall successCount m,
    exists err,
      downloadError track err
      ∈ events (trackTask settings album artwork track successCount m).2.
Proof.
  intros Hmax Hskip Hf sc m. unfold trackTask. rewrite bind_eq.
  rewrite downloadTrack_cases, Hskip.
  destruct (transfer_failing track album artwork
              (setWorld m (probed track (world m))) Hmax Hf) as (Hres & _).
  destruct (transfer settings track album artwork
              (setWorld m (probed track (world m)))).1 as [e|]; [|done].
  exists e. rewrite bind_eq. cbn [progress mret M_ret fst snd events].
  apply elem_of_app. right. by left.
Qed.

Lemma trackTask_succeeding album artwork track :
  (1 <= DownloadMaxRetries settings)%Z ->
  (forall w, skipsAt track w = false) ->
  (forall w, (http_DownloadFile (Track_Mp3URL track) (Track_Path track) w).1 = None) ->
  forall successCount m,
    let r := trackTask settings album artwork track successCount m in
    ADownload (Track_Mp3URL track) (Track_Path track) ∈ trace r.2
    /\ downloadedEvent track ∈ events r.2.
Proof.
  intros Hmax Hskip Hok sc m. cbv zeta. unfold trackTask. rewrite bind_eq.
  rewrite downloadTrack_cases, Hskip.
  destruct (transfer_succeeding track album artwork
              (setWorld m (probed track (world m))) Hmax Hok) as (Hres & Htr & Hev).
  rewrite Hres. done.
Qed.

(** What holds after the task of one track of an album, and survives
    appended events and calls, holds when [downloadAlbum] ends. *)
Lemma downloadAlbum_reaches album track (Q : Manager -> Prop) :
  (forall m m', extends m m' -> Q m -> Q m') ->
  track ∈ Album_Tracks album ->
  (forall artwork s m, Q (trackTask settings album artwork track s m).2) ->
  forall m,
    (os_MkdirAll (Album_Path album) (world m)).1 = None ->
    Q (downloadAlbum settings album m).2.
Proof.
  intros Hmono Hin Hq m Hdir. unfold downloadAlbum.
  rewrite bind_eq. cbn [call fst]. rewrite Hdir. rewrite !bind_eq.
  rewrite errgroup_keeps by (intros; apply trackTask_result).
  apply reach_after; [exact Hmono|grows_auto|].
  apply (errgroup_reaches _ _ track Q); try done.
  intros. apply grows_trackTask.
Qed.

Lemma downloadTrack_failing track album artwork m :
  (1 <= DownloadMaxRetries settings)%Z ->
  (forall w, skipsAt track w = false) ->
  (forall w, (http_DownloadFile (Track_Mp3URL track) (Track_Path track) w).1 <> None) ->
  let r := downloadTrack settings track album artwork m in
  r.1 <> None
  /\ trace r.2
     = (trace m ++ attemptsFrom track (Z.to_nat (DownloadMaxRetries settings)) 0)%list
  /\ downloadedFiles r.2 = downloadedFiles m.
Proof.
  intros Hmax Hskip Hf. cbv zeta. rewrite downloadTrack_cases, Hskip.
  apply (transfer_failing track album artwork
           (setWorld m (probed track (world m))) Hmax Hf).
Qed.

(** *** The result and the events of a run *)

Lemma trackTask_reports album artwork track successCount m err :
  (downloadTrack settings track album artwork m).1 = Some err ->
  downloadError track err
  ∈ events (trackTask settings album artwork track successCount m).2.
Proof.
  intros H. unfold trackTask. rewrite bind_eq, H, bind_eq.
  cbn [progress mret M_ret fst snd events]. apply elem_of_app. right. by left.
Qed.

(** A track of an album whose directory can be made, whose download ends in
    error whenever it is tried, has the error of a try reported. *)
Lemma StartDownloads_reports m album track :
  album ∈ albums m ->
  track ∈ Album_Tracks album ->
  (forall w, (os_MkdirAll (Album_Path album) w).1 = None) ->
  (forall artwork m', (downloadTrack settings track album artwork m').1 <> None) ->
  exists err artwork m',
    (downloadTrack settings track album artwork m').1 = Some err
    /\ downloadError track err ∈ events (StartDownloads settings m).2.
Proof.
  intros Hin Htr Hdir Hf. unfold StartDownloads. rewrite bind_eq.
  cbn [mret M_ret snd].
  set (Q := fun st : Manager =>
              exists err artwork m',
                (downloadTrack settings track album artwork m').1 = Some err
                /\ downloadError track err ∈ events st).
  assert (Hmono : forall m1 m2, extends m1 m2 -> Q m1 -> Q m2).
  { intros m1 m2 Hext (err & artwork & m' & Hd & Hev).
    exists err, artwork, m'. split; [exact Hd|]. by eapply extends_event. }
  apply (errgroup_reaches (albumTask settings) (albums m) album Q);
    [intros; apply grows_albumTask|exact Hmono|exact Hin|].
  intros u m0. unfold albumTask. rewrite bind_eq. cbn [mret M_ret snd].
  apply (downloadAlbum_reaches album track Q Hmono Htr); [|apply Hdir].
  intros artwork s m1.
  destruct (downloadTrack settings track album artwork m1).1 as [e|] eqn:Hd;
    [|by destruct (Hf artwork m1)].
  exists e, artwork, m1. split; [exact Hd|]. by apply trackTask_reports.
Qed.

Lemma StartDownloads_nil m :
  (forall album w, album ∈ albums m ->
     (os_MkdirAll (Album_Path album) w).1 = None) ->
  (StartDownloads settings m).1 = None.
Proof.
  intros Hdir. destruct (StartDownloads settings m).1 as [err|] eqn:Hr; [|done].
  apply StartDownloads_Some in Hr as (album & w & Hin & Hw & _).
  by rewrite (Hdir album w Hin) in Hw.
Qed.

(** C3.  [StartDownloads] returns an error exactly for a failed creation of
    a release directory: a non-nil result is the error [os.MkdirAll] gave for
    the directory of one of the albums, reported as an error event as well;
    an album whose directory cannot be made makes the result non-nil; and
    when every directory can be made the result is nil whatever the
    transfers do.  A failed track is reported and does not reach the
    result: a track of an album whose directory can be made, whose download
    ends in error whenever it is tried, has the error of one of its tries
    in an error event of the run. *)
Theorem StartDownloads_error m :
  (forall err,
     (StartDownloads settings m).1 = Some err ->
     exists album w,
       album ∈ albums m
       /\ (os_MkdirAll (Album_Path album) w).1 = Some err
       /\ directoryError err ∈ events (StartDownloads settings m).2)
  /\ (forall album,
        album ∈ albums m ->
        (forall w, (os_MkdirAll (Album_Path album) w).1 <> None) ->
        (StartDownloads settings m).1 <> None)
  /\ ((forall album w, album ∈ albums m ->
         (os_MkdirAll (Album_Path album) w).1 = None) ->
      (StartDownloads settings m).1 = None)
  /\ (forall album track,
        album ∈ albums m ->
        track ∈ Album_Tracks album ->
        (forall w, (os_MkdirAll (Album_Path album) w).1 = None) ->
        (forall artwork m',
           (downloadTrack settings track album artwork m').1 <> None) ->
        exists err artwork m',
          (downloadTrack settings track album artwork m').1 = Some err
          /\ downloadError track err ∈ events (StartDownloads settings m).2
          /\ Level (downloadError track err) = LevelError).
Proof.
  split; [apply StartDownloads_Some|]. split; [apply StartDownloads_fails|].
  split; [apply StartDownloads_nil|].
  intros album track Hin Htr Hdir Hf.
  destruct (StartDownloads_reports m album track Hin Htr Hdir Hf)
    as (err & artwork & m' & Hd & Hev).
  exists err, artwork, m'. by repeat split.
Qed.

(** C4.  A track the skip rule never applies to and whose transfer fails in
    every world, with a retry budget of at least one: [downloadTrack] makes
    exactly [DownloadMaxRetries] attempts, each followed by a wait of
    cooldown times exponent to the power of the attempt index, counts no
    file and returns an error; run as part of its album, the album still
    returns no error, the error of the track is reported as an error event,
    and every sibling whose transfer succeeds is transferred and reported as
    downloaded.  With the default settings the budget is 7 and the first
    waits are 0.2, 0.8 and 3.2 seconds. *)
Theorem downloadTrack_retries track album artwork m :
  (1 <= DownloadMaxRetries settings)%Z ->
  (forall w, skipsAt track w = false) ->
  (forall w, (http_DownloadFile (Track_Mp3URL track) (Track_Path track) w).1 <> None) ->
  let r := downloadTrack settings track album artwork m in
  r.1 <> None
  /\ trace r.2
     = (trace m
        ++ flat_map (fun i => [ADownload (Track_Mp3URL track) (Track_Path track);
                               AWait (DownloadRetryCooldown settings
                                      * DownloadRetryExponent settings ^ Z.of_nat i)%Q])
                    (seq 0 (Z.to_nat (DownloadMaxRetries settings))))%list
  /\ downloadedFiles r.2 = downloadedFiles m
  /\ (forall m0,
        track ∈ Album_Tracks album ->
        (os_MkdirAll (Album_Path album) (world m0)).1 = None ->
        let a := downloadAlbum settings album m0 in
        a.1 = None
        /\ (exists err, downloadError track err ∈ events a.2)
        /\ forall sibling,
             sibling ∈ Album_Tracks album ->
             (forall w, skipsAt sibling w = false) ->
             (forall w, (http_DownloadFile (Track_Mp3URL sibling)
                           (Track_Path sibling) w).1 = None) ->
             ADownload (Track_Mp3URL sibling) (Track_Path sibling) ∈ trace a.2
             /\ downloadedEvent sibling ∈ events a.2)
  /\ (forall path,
        DownloadMaxRetries (DefaultSettings path) = 7%Z
        /\ (DownloadRetryCooldown (DefaultSettings path)
            * DownloadRetryExponent (DefaultSettings path) ^ 0 == 2 # 10)%Q
        /\ (DownloadRetryCooldown (DefaultSettings path)
            * DownloadRetryExponent (DefaultSettings path) ^ 1 == 8 # 10)%Q
        /\ (DownloadRetryCooldown (DefaultSettings path)
            * DownloadRetryExponent (DefaultSettings path) ^ 2 == 32 # 10)%Q).
Proof.
  intros Hmax Hskip Hf. cbv zeta.
  destruct (downloadTrack_failing track album artwork m Hmax Hskip Hf)
    as (Hres & Htr & Hcnt).
  split; [exact Hres|]. split.
  { rewrite Htr. f_equal. apply (attemptsFrom_flat_map track _ 0). }
  split; [exact Hcnt|]. split.
  - intros m0 Hin Hdir. split; [|split].
    + by rewrite downloadAlbum_result.
    + apply (downloadAlbum_reaches album track
               (fun m' => exists err, downloadError track err ∈ events m'));
        [|exact Hin| |exact Hdir].
      * intros m1 m2 Hext [err Herr]. exists err. by eapply extends_event.
      * intros art s m1. by apply trackTask_failing.
    + intros sibling Hsin Hsskip Hsok.
      apply (downloadAlbum_reaches album sibling
               (fun m' =>
                  ADownload (Track_Mp3URL sibling) (Track_Path sibling) ∈ trace m'
                  /\ downloadedEvent sibling ∈ events m'));
        [|exact Hsin| |exact Hdir].
      * intros m1 m2 Hext [Ha He].
        split; [by eapply extends_action|by eapply extends_event].
      * intros art s m1. by apply trackTask_succeeding.
  - intros path. repeat split; vm_compute; reflexivity.
Qed.

(** *** The skip rule *)

Lemma skipsAt_within track w localSize remoteSize :
  (os_Stat (Track_Path track) w).1 = Ok localSize ->
  (http_GetFileSize (Track_Mp3URL track) (os_Stat (Track_Path track) w).2).1
  = Ok remoteSize ->
  (0 < remoteSize)%Z ->
  skipsAt track w = withinAllowedDifference settings localSize remoteSize.
Proof.
  intros Hst Hsz Hpos. unfold skipsAt. rewrite Hst, Hsz. cbv zeta.
  replace (0 <? remoteSize)%Z with true by (symmetry; by apply Z.ltb_lt).
  apply andb_true_l.
Qed.

Lemma skip_not_download track :
  downloadedEvent track <> skipEvent track.
Proof.
  unfold downloadedEvent, skipEvent. intros H. discriminate H.
Qed.

(** With a retry budget of at least one, the retry loop and the transfer
    start with a download attempt. *)
Lemma trackTries_first n tries track err m :
  exists rest,
    trace (trackTries settings (S n) tries track err m).2
    = (trace m
       ++ ADownload (Track_Mp3URL track) (Track_Path track) :: rest)%list.
Proof.
  cbn [trackTries]. rewrite bind_eq.
  match goal with
  | |- context [(?c ≫= ?k) (observe ?a m).2] =>
      assert (Hg : grows (c ≫= k)) by grows_auto;
      destruct (Hg (observe a m).2) as [_ [rest Hrest]]
  end.
  exists rest. rewrite Hrest. cbn [observe snd trace].
  by rewrite <- List.app_assoc.
Qed.

Lemma transfer_first track album artwork m :
  (1 <= DownloadMaxRetries settings)%Z ->
  exists rest,
    trace (transfer settings track album artwork m).2
    = (trace m
       ++ ADownload (Track_Mp3URL track) (Track_Path track) :: rest)%list.
Proof.
  intros Hmax.
  assert (Hn : exists n, Z.to_nat (DownloadMaxRetries settings) = S n)
    by (exists (Z.to_nat (DownloadMaxRetries settings) - 1); lia).
  destruct Hn as [n Hn]. unfold transfer. rewrite Hn, bind_eq.
  destruct (trackTries_first n 0%Z track None m) as [rest Hrest].
  set (t := trackTries settings (S n) 0 track None m) in *.
  assert (Hg : exists rest',
            trace (match t.1 with
                   | Some e => mret (Some e)
                   | None =>
                       incDownloadedFiles;;
                       (if ModifyTags settings
                           || (SaveCoverArtInTags settings
                               && match artwork with
                                  | Some _ => true
                                  | None => false
                                  end)
                        then
                          terr ← call (tagger_SaveTags track album artwork);
                          match terr with
                          | Some e =>
                              progress
                                {| Message := "Error tagging "
                                              +:+ Track_Title track
                                              +:+ ": " +:+ Error e;
                                   Level := LevelWarning |}
                          | None => mret tt
                          end
                        else mret tt);;
                       progress
                         {| Message := "Downloaded: "
                                       +:+ filepath_Base (Track_Path track);
                            Level := LevelVerbose |};;
                       mret None
                   end t.2).2
            = (trace t.2 ++ rest')%list).
  { match goal with
    | |- context [(?c t.2).2] =>
        assert (Hc : grows c) by (destruct t.1; grows_auto);
        destruct (Hc t.2) as [_ [rest' Hrest']]
    end.
    by exists rest'. }
  destruct Hg as [rest' Hrest'].
  exists (rest ++ rest')%list. rewrite Hrest', Hrest.
  by rewrite <- List.app_assoc.
Qed.

(** What [downloadTrack] does with a track whose destination exists and
    whose size probe answers a positive size, by the outcome of the test. *)
Lemma downloadTrack_by_test track album artwork m localSize remoteSize :
  (1 <= DownloadMaxRetries settings)%Z ->
  (os_Stat (Track_Path track) (world m)).1 = Ok localSize ->
  (http_GetFileSize (Track_Mp3URL track)
     (os_Stat (Track_Path track) (world m)).2).1 = Ok remoteSize ->
  (0 < remoteSize)%Z ->
  let r := downloadTrack settings track album artwork m in
  (withinAllowedDifference settings localSize remoteSize = true ->
   r = (None, skipState track m))
  /\ (withinAllowedDifference settings localSize remoteSize = false ->
      r = transfer settings track album artwork
            (setWorld m (probed track (world m)))
      /\ exists rest,
           trace r.2
           = (trace m
              ++ ADownload (Track_Mp3URL track) (Track_Path track) :: rest)%list).
Proof.
  intros Hmax Hst Hsz Hpos. cbv zeta.
  rewrite downloadTrack_cases, (skipsAt_within track (world m) _ _ Hst Hsz Hpos).
  split; intros ->; [reflexivity|]. split; [reflexivity|].
  apply (transfer_first track album artwork
           (setWorld m (probed track (world m))) Hmax).
Qed.

(** C5.  A track whose destination exists with [localSize] bytes and whose
    size probe answers a positive [remoteSize], with a retry budget of at
    least one: [downloadTrack] skips the transfer (no download attempt is
    made, the file is counted, the skip event is emitted and nil returned)
    exactly when the float64 value of the relative difference of the sizes
    is at most the allowed difference; otherwise it makes a download
    attempt.  With the default allowed difference, the float64 nearest to
    0.05, which is 7205759403792794 / 2^57, and sizes whose difference and
    remote size are below 2^53, the test holds exactly when
    |localSize - remoteSize| * 2^58 <= 14411518807585589 * remoteSize; so a
    local file within 5% of the remote size is skipped and one 10% larger
    is not skipped: a download attempt is made.  For instance a local size
    of 1000 against a remote size of 1040, and local sizes exactly 5% above
    and below the remote one, are skipped; local sizes 10% and 5.1% above
    the remote one are not. *)
Theorem downloadTrack_skip_rule track album artwork m localSize remoteSize :
  (1 <= DownloadMaxRetries settings)%Z ->
  (os_Stat (Track_Path track) (world m)).1 = Ok localSize ->
  (http_GetFileSize (Track_Mp3URL track)
     (os_Stat (Track_Path track) (world m)).2).1 = Ok remoteSize ->
  (0 < remoteSize)%Z ->
  let r := downloadTrack settings track album artwork m in
  let within :=
    Float64.leb
      (Float64.abs
         (Float64.div (Float64.of_int (wrap 64 (localSize - remoteSize)))
                      (Float64.of_int remoteSize)))
      (AllowedFileSizeDifference settings) in
  (within = true <-> r = (None, skipState track m))
  /\ (within = true
      <-> trace r.2 = trace m
          /\ r.1 = None
          /\ downloadedFiles r.2 = wrap 32 (downloadedFiles m + 1))
  /\ (within = false ->
      r = transfer settings track album artwork
            (setWorld m (probed track (world m)))
      /\ exists rest,
           trace r.2
           = (trace m
              ++ ADownload (Track_Mp3URL track) (Track_Path track) :: rest)%list)
  /\ (AllowedFileSizeDifference settings = Float64.ratio 5 100 ->
      (Z.abs (localSize - remoteSize) < 2 ^ 53)%Z ->
      (remoteSize < 2 ^ 53)%Z ->
      (within = true
       <-> (Z.abs (localSize - remoteSize) * 2 ^ 58
            <= 14411518807585589 * remoteSize)%Z)
      /\ ((20 * Z.abs (localSize - remoteSize) <= remoteSize)%Z ->
          r = (None, skipState track m)
          /\ trace r.2 = trace m
          /\ downloadedFiles r.2 = wrap 32 (downloadedFiles m + 1))
      /\ ((10 * localSize = 11 * remoteSize)%Z ->
          r <> (None, skipState track m)
          /\ exists rest,
               trace r.2
               = (trace m
                  ++ ADownload (Track_Mp3URL track) (Track_Path track)
                     :: rest)%list))
  /\ (forall path,
        AllowedFileSizeDifference (DefaultSettings path) = Float64.ratio 5 100
        /\ Float64.ratio 5 100
           = SpecFloat.S754_finite false 7205759403792794 (-57)
        /\ withinAllowedDifference (DefaultSettings path) 1000 1040 = true
        /\ withinAllowedDifference (DefaultSettings path) 1050 1000 = true
        /\ withinAllowedDifference (DefaultSettings path) 950 1000 = true
        /\ withinAllowedDifference (DefaultSettings path) 1100 1000 = false
        /\ withinAllowedDifference (DefaultSettings path) 1051 1000 = false).
Proof.
  intros Hmax Hst Hsz Hpos. cbv zeta.
  destruct (downloadTrack_by_test track album artwork m _ _ Hmax Hst Hsz Hpos)
    as [Hskip Hgo].
  fold (withinAllowedDifference settings localSize remoteSize).
  assert (Hno : withinAllowedDifference settings localSize remoteSize = false ->
                trace (downloadTrack settings track album artwork m).2
                <> trace m).
  { intros Hw Heq. destruct (Hgo Hw) as [_ [rest Hrest]].
    rewrite Heq in Hrest. rewrite <- (List.app_nil_r (trace m)) in Hrest at 1.
    apply List.app_inv_head in Hrest. discriminate Hrest. }
  split; [|split; [|split; [|split]]].
  - split; [exact Hskip|]. intros Heq.
    destruct (withinAllowedDifference settings localSize remoteSize) eqn:Hw;
      [done|].
    destruct (Hno eq_refl). by rewrite Heq.
  - split.
    + intros Hw. by rewrite (Hskip Hw).
    + intros (Htr & _ & _).
      destruct (withinAllowedDifference settings localSize remoteSize) eqn:Hw;
        [done|].
      by destruct (Hno eq_refl).
  - exact Hgo.
  - intros Hdef Hdiff Hrem.
    assert (Hiff : withinAllowedDifference settings localSize remoteSize = true
                   <-> (Z.abs (localSize - remoteSize) * 2 ^ 58
                        <= 14411518807585589 * remoteSize)%Z).
    { unfold withinAllowedDifference. cbv zeta.
      rewrite Hdef, (Float64Facts.wrap_64_id _ Hdiff).
      apply Float64Facts.within_5_percent; [exact Hdiff|lia]. }
    split; [exact Hiff|]. split.
    + intros Hclose.
      assert (Hw : withinAllowedDifference settings localSize remoteSize = true)
        by (apply Hiff; lia).
      by rewrite (Hskip Hw).
    + intros Hlarge.
      assert (Hw : withinAllowedDifference settings localSize remoteSize = false).
      { destruct (withinAllowedDifference settings localSize remoteSize);
          [|done].
        assert (Z.abs (localSize - remoteSize) * 2 ^ 58
                <= 14411518807585589 * remoteSize)%Z by (by apply Hiff).
        lia. }
      split; [|by apply Hgo].
      intros Heq. apply (Hno Hw). by rewrite Heq.
  - intros path. repeat split; vm_compute; reflexivity.
Qed.

(** *** Initialisation *)

(** [c] leaves the component [f] of the manager as it is. *)
Definition preserves {A B} (f : Manager -> B) (c : M A) : Prop :=
  forall m, f (c m).2 = f m.

Lemma preserves_ret {A B} (f : Manager -> B) (a : A) : preserves f (mret a).
Proof. by intros m. Qed.

Lemma preserves_bind {A A' B} (f : Manager -> B) (c : M A) (k : A -> M A') :
  preserves f c -> (forall a, preserves f (k a)) -> preserves f (c ≫= k).
Proof. intros Hc Hk m. rewrite bind_eq, Hk. apply Hc. Qed.

Lemma call_albums {A} (op : World -> A * World) : preserves albums (call op).
Proof. by intros m. Qed.

Lemma call_events {A} (op : World -> A * World) : preserves events (call op).
Proof. by intros m. Qed.

Lemma progress_albums ev : preserves albums (progress ev).
Proof. by intros m. Qed.

Lemma incTotalFiles_albums : preserves albums incTotalFiles.
Proof. by intros m. Qed.

Lemma incTotalFiles_events : preserves events incTotalFiles.
Proof. by intros m. Qed.

Lemma addTotalBytes_albums n : preserves albums (addTotalBytes n).
Proof. by intros m. Qed.

Lemma addTotalBytes_events n : preserves events (addTotalBytes n).
Proof. by intros m. Qed.

Create HintDb keeps.

#[local] Hint Resolve preserves_ret call_albums call_events progress_albums
  incTotalFiles_albums incTotalFiles_events addTotalBytes_albums
  addTotalBytes_events : keeps.

Ltac keeps_step :=
  first
    [ solve [auto 1 with keeps nocore]
    | apply preserves_bind; [|intros ?]
    | match goal with
      | |- preserves _ (match ?x with _ => _ end) => destruct x
      end ].

Ltac keeps_auto := repeat keeps_step.

Lemma probeTracks_keeps {B} (f : Manager -> B) tracks :
  preserves f incTotalFiles ->
  (forall n, preserves f (addTotalBytes n)) ->
  (forall url, preserves f (call (http_GetFileSize url))) ->
  preserves f (probeTracks tracks).
Proof.
  intros H1 H2 H3. induction tracks as [|t l IH]; simpl.
  - apply preserves_ret.
  - unfold probe. repeat (apply preserves_bind; [|intros ?]);
      try done; try apply preserves_ret.
    destruct a0; [apply H2|apply preserves_ret].
Qed.

Lemma calculateTotals_from_keeps {B} (f : Manager -> B) l :
  preserves f incTotalFiles ->
  (forall n, preserves f (addTotalBytes n)) ->
  (forall url, preserves f (call (http_GetFileSize url))) ->
  preserves f (calculateTotals_from l).
Proof.
  intros H1 H2 H3. induction l as [|a l IH]; simpl.
  - apply preserves_ret.
  - apply preserves_bind; [by apply probeTracks_keeps|]. intros _.
    apply preserves_bind; [|intros _; exact IH].
    destruct (HasArtwork a); [|apply preserves_ret].
    unfold probe. repeat (apply preserves_bind; [|intros ?]);
      try done; try apply preserves_ret.
    destruct a1; [apply H2|apply preserves_ret].
Qed.

Lemma calculateTotals_albums : preserves albums calculateTotals.
Proof.
  intros m. unfold calculateTotals.
  apply (calculateTotals_from_keeps albums); auto with keeps nocore.
Qed.

Lemma calculateTotals_events : preserves events calculateTotals.
Proof.
  intros m. unfold calculateTotals.
  apply (calculateTotals_from_keeps events); auto with keeps nocore.
Qed.

Lemma grows_calculateTotals : grows calculateTotals.
Proof.
  intros m. split.
  - by rewrite calculateTotals_events.
  - unfold calculateTotals.
    rewrite (calculateTotals_from_keeps trace); [done|by intros ?..].
Qed.

Lemma getAlbumURLs_albums u : preserves albums (getAlbumURLs settings u).
Proof. unfold getAlbumURLs. keeps_auto. Qed.

Lemma grows_getAlbumURLs u : grows (getAlbumURLs settings u).
Proof. unfold getAlbumURLs. grows_auto. Qed.
#[local] Hint Resolve getAlbumURLs_albums : keeps.
#[local] Hint Resolve grows_getAlbumURLs : grows.

Lemma resolveInputs_albums urls : forall acc,
  preserves albums (resolveInputs settings urls acc).
Proof.
  induction urls as [|u l IH]; intros acc; simpl; keeps_auto.
Qed.

Lemma grows_resolveInputs urls : forall acc,
  grows (resolveInputs settings urls acc).
Proof.
  induction urls as [|u l IH]; intros acc; simpl; grows_auto.
Qed.

Lemma grows_fetchAlbums l : grows (fetchAlbums settings l).
Proof.
  induction l as [|u l IH]; simpl; grows_auto.
Qed.

Definition lookupError (url : string) (err : error) : ProgressEvent :=
  {| Message := "Error getting albums from " +:+ url +:+ ": " +:+ Error err;
     Level := LevelError |}.

Definition fetchError (url : string) (err : error) : ProgressEvent :=
  {| Message := "Error fetching " +:+ url +:+ ": " +:+ Error err;
     Level := LevelError |}.

(** Every page fails to be fetched or to be parsed. *)
Definition noPage : Prop :=
  forall url w,
    match (http_GetString url w).1 with
    | Err _ => True
    | Ok html =>
        exists err,
          ParseAlbumPage (ToPathConfig settings) (ToTrackConfig settings) html
          = Err err
    end.

(** Every page fails to be fetched. *)
Definition offline : Prop :=
  forall url w, exists err, (http_GetString url w).1 = Err err.

Lemma fetchAlbums_noPage l :
  noPage -> preserves albums (fetchAlbums settings l).
Proof.
  intros Hno. induction l as [|u l IH]; simpl; [apply preserves_ret|].
  apply preserves_bind; [apply progress_albums|]. intros _ m.
  rewrite bind_eq. cbn [call fst snd].
  pose proof (Hno u (world m)) as Hu.
  destruct (http_GetString u (world m)).1 as [html|e].
  - destruct Hu as [err ->]. rewrite bind_eq, IH. reflexivity.
  - rewrite bind_eq, IH. reflexivity.
Qed.

Lemma fetchAlbums_offline l :
  offline ->
  forall u m, u ∈ l ->
    exists err, fetchError u err ∈ events (fetchAlbums settings l m).2.
Proof.
  intros Hoff. induction l as [|a l IH]; intros u m Hin; [by inversion Hin|].
  simpl. rewrite !bind_eq. cbn [call fst snd progress world].
  match goal with
  | |- context [http_GetString a ?w] => destruct (Hoff a w) as [err Herr]
  end.
  rewrite Herr. rewrite bind_eq.
  apply elem_of_cons in Hin as [->|Hin].
  - exists err. eapply extends_event; [apply grows_fetchAlbums|].
    cbn [progress snd events]. apply elem_of_app. right. by left.
  - by apply IH.
Qed.

Lemma getAlbumURLs_offline u m :
  offline ->
  (exists err, (getAlbumURLs settings u m).1 = Err err)
  \/ (getAlbumURLs settings u m).1 = Ok [u].
Proof.
  intros Hoff. unfold getAlbumURLs.
  destruct (url_Parse u) as [[[scheme host] path]|e]; [|left; by exists e].
  destruct (Contains path "/album/" || Contains path "/track/"); [by right|].
  destruct (negb (DownloadArtistDiscography settings)); [by right|].
  left. rewrite bind_eq. cbn [call fst].
  destruct (Hoff (scheme +:+ "://" +:+ host +:+ "/music") (world m)) as [err ->].
  by exists err.
Qed.

Lemma resolveInputs_offline urls :
  offline ->
  forall acc m,
    let r := resolveInputs settings urls acc m in
    (forall u, u ∈ acc -> u ∈ r.1)
    /\ forall u, u ∈ urls ->
         (exists err, lookupError u err ∈ events r.2) \/ u ∈ r.1.
Proof.
  intros Hoff. induction urls as [|a l IH]; intros acc m; cbv zeta.
  - split; [done|]. intros u Hu. by inversion Hu.
  - simpl. rewrite bind_eq.
    destruct (getAlbumURLs_offline a m Hoff) as [[err Herr]|Hok].
    + rewrite Herr, bind_eq.
      match goal with
      | |- context [resolveInputs settings l acc ?m'] =>
          destruct (IH acc m') as [Hacc Hl]
      end.
      split; [exact Hacc|]. intros u Hu.
      apply elem_of_cons in Hu as [->|Hu]; [|by apply Hl].
      left. exists err. eapply extends_event; [apply grows_resolveInputs|].
      cbn [progress snd events]. apply elem_of_app. right. by left.
    + rewrite Hok.
      match goal with
      | |- context [resolveInputs settings l ?acc' ?m'] =>
          destruct (IH acc' m') as [Hacc Hl]
      end.
      split.
      * intros u Hu. apply Hacc, elem_of_app. by left.
      * intros u Hu. apply elem_of_cons in Hu as [->|Hu]; [|by apply Hl].
        right. apply Hacc, elem_of_app. right. by left.
Qed.

Definition parseError (url : string) (err : error) : ProgressEvent :=
  {| Message := "Error parsing " +:+ url +:+ ": " +:+ Error err;
     Level := LevelError |}.

(** When no page can be fetched and parsed, every album URL gets its
    error-level event. *)
Lemma fetchAlbums_noPage_events l :
  noPage ->
  forall u m, u ∈ l ->
    exists err,
      fetchError u err ∈ events (fetchAlbums settings l m).2
      \/ parseError u err ∈ events (fetchAlbums settings l m).2.
Proof.
  intros Hno. induction l as [|a l IH]; intros u m Hin; [by inversion Hin|].
  simpl. rewrite !bind_eq. cbn [call fst snd progress world].
  match goal with
  | |- context [http_GetString a ?w] => pose proof (Hno a w) as Ha
  end.
  destruct (http_GetString a _).1 as [html|e].
  - destruct Ha as [err ->]. rewrite bind_eq.
    apply elem_of_cons in Hin as [->|Hin]; [|by apply IH].
    exists err. right. eapply extends_event; [apply grows_fetchAlbums|].
    cbn [progress snd events]. apply elem_of_app. right. by left.
  - rewrite bind_eq.
    apply elem_of_cons in Hin as [->|Hin]; [|by apply IH].
    exists e. left. eapply extends_event; [apply grows_fetchAlbums|].
    cbn [progress snd events]. apply elem_of_app. right. by left.
Qed.

(** Every input URL is either reported with the error of its lookup or
    resolved into album URLs that are all kept for fetching. *)
Lemma resolveInputs_each urls :
  forall acc m,
    let r := resolveInputs settings urls acc m in
    (forall u, u ∈ acc -> u ∈ r.1)
    /\ forall u, u ∈ urls ->
         (exists err, lookupError u err ∈ events r.2)
         \/ exists m' albumURLs,
              (getAlbumURLs settings u m').1 = Ok albumURLs
              /\ forall a, a ∈ albumURLs -> a ∈ r.1.
Proof.
  induction urls as [|a l IH]; intros acc m; cbv zeta.
  - split; [done|]. intros u Hu. by inversion Hu.
  - simpl. rewrite bind_eq.
    destruct (getAlbumURLs settings a m).1 as [albumURLs|err] eqn:Hres.
    + match goal with
      | |- context [resolveInputs settings l ?acc' ?m'] =>
          destruct (IH acc' m') as [Hacc Hl]
      end.
      split.
      * intros u Hu. apply Hacc, elem_of_app. by left.
      * intros u Hu. apply elem_of_cons in Hu as [->|Hu]; [|by apply Hl].
        right. exists m, albumURLs. split; [exact Hres|].
        intros x Hx. apply Hacc, elem_of_app. by right.
    + rewrite bind_eq.
      match goal with
      | |- context [resolveInputs settings l acc ?m'] =>
          destruct (IH acc m') as [Hacc Hl]
      end.
      split; [exact Hacc|]. intros u Hu.
      apply elem_of_cons in Hu as [->|Hu]; [|by apply Hl].
      left. exists err. eapply extends_event; [apply grows_resolveInputs|].
      cbn [progress snd events]. apply elem_of_app. right. by left.
Qed.

(** Every input URL is looked up in some state of the run: a failed lookup
    is reported with its error, a successful one has all its album URLs
    kept; and every URL kept comes from a successful lookup. *)
Lemma resolveInputs_lookup urls :
  forall acc m,
    let r := resolveInputs settings urls acc m in
    (forall u, u ∈ acc -> u ∈ r.1)
    /\ (forall u, u ∈ urls ->
          exists m',
            match (getAlbumURLs settings u m').1 with
            | Err err => lookupError u err ∈ events r.2
            | Ok albumURLs => forall a, a ∈ albumURLs -> a ∈ r.1
            end)
    /\ (forall a, a ∈ r.1 ->
          a ∈ acc
          \/ exists u m' albumURLs,
               u ∈ urls
               /\ (getAlbumURLs settings u m').1 = Ok albumURLs
               /\ a ∈ albumURLs).
Proof.
  induction urls as [|x l IH]; intros acc m; cbv zeta.
  - split; [done|]. split; [intros u Hu; by inversion Hu|]. by left.
  - simpl. rewrite bind_eq.
    destruct (getAlbumURLs settings x m).1 as [albumURLs|err] eqn:Hres.
    + match goal with
      | |- context [resolveInputs settings l ?acc' ?m'] =>
          destruct (IH acc' m') as (Hacc & Hl & Hfrom)
      end.
      split; [|split].
      * intros u Hu. apply Hacc, elem_of_app. by left.
      * intros u Hu. apply elem_of_cons in Hu as [->|Hu].
        -- exists m. rewrite Hres. intros a Ha. apply Hacc, elem_of_app.
           by right.
        -- by apply Hl.
      * intros a Ha. apply Hfrom in Ha as [Ha|(u & m' & urls' & Hu & Hok & Hin)].
        -- apply elem_of_app in Ha as [Ha|Ha]; [by left|].
           right. exists x, m, albumURLs. split; [by left|done].
        -- right. exists u, m', urls'. split; [by right|done].
    + rewrite bind_eq.
      match goal with
      | |- context [resolveInputs settings l acc ?m'] =>
          destruct (IH acc m') as (Hacc & Hl & Hfrom)
      end.
      split; [exact Hacc|]. split.
      * intros u Hu. apply elem_of_cons in Hu as [->|Hu]; [|by apply Hl].
        exists m. rewrite Hres.
        eapply extends_event; [apply grows_resolveInputs|].
        cbn [progress snd events]. apply elem_of_app. right. by left.
      * intros a Ha. apply Hfrom in Ha as [Ha|(u & m' & urls' & Hu & Hok & Hin)];
          [by left|].
        right. exists u, m', urls'. split; [by right|done].
Qed.

(** The albums [fetchAlbums] adds come after the ones held before, and each
    is the parse of a page fetched from one of the URLs. *)
Lemma fetchAlbums_added l :
  forall m,
    exists added,
      albums (fetchAlbums settings l m).2 = (albums m ++ added)%list
      /\ forall album, album ∈ added ->
           exists a w html,
             a ∈ l
             /\ (http_GetString a w).1 = Ok html
             /\ ParseAlbumPage (ToPathConfig settings) (ToTrackConfig settings)
                  html = Ok album.
Proof.
  induction l as [|x l IH]; intros m.
  - exists []. split; [by rewrite List.app_nil_r|].
    intros album Hin. by inversion Hin.
  - simpl. rewrite !bind_eq. cbn [progress call fst snd world].
    destruct (http_GetString x (world m)).1 as [html|e] eqn:Hget.
    + destruct (ParseAlbumPage _ _ html) as [album|e] eqn:Hp.
      * rewrite !bind_eq.
        match goal with
        | |- context [fetchAlbums settings l ?m'] =>
            destruct (IH m') as (added & Heq & Hfrom)
        end.
        cbn [addAlbum progress snd albums] in Heq.
        exists (album :: added). split.
        -- etrans; [exact Heq|]. by rewrite <- List.app_assoc.
        -- intros alb Hin. apply elem_of_cons in Hin as [->|Hin].
           ++ exists x, (world m), html. split; [by left|done].
           ++ destruct (Hfrom alb Hin) as (a & w & h & Ha & Hw & Hh).
              exists a, w, h. split; [by right|done].
      * rewrite bind_eq.
        match goal with
        | |- context [fetchAlbums settings l ?m'] =>
            destruct (IH m') as (added & Heq & Hfrom)
        end.
        cbn [progress snd albums] in Heq.
        exists added. split; [exact Heq|].
        intros alb Hin. destruct (Hfrom alb Hin) as (a & w & h & Ha & Hw & Hh).
        exists a, w, h. split; [by right|done].
    + rewrite bind_eq.
      match goal with
      | |- context [fetchAlbums settings l ?m'] =>
          destruct (IH m') as (added & Heq & Hfrom)
      end.
      cbn [progress snd albums] in Heq.
      exists added. split; [exact Heq|].
      intros alb Hin. destruct (Hfrom alb Hin) as (a & w & h & Ha & Hw & Hh).
      exists a, w, h. split; [by right|done].
Qed.

(** Every album URL is fetched in some world of the run, and what that fetch
    gave decides what is recorded: a failed fetch or a failed parse is
    reported with its error, and a parsed album is added. *)
Lemma fetchAlbums_each l :
  forall m a,
    a ∈ l ->
    exists w,
      match (http_GetString a w).1 with
      | Err err => fetchError a err ∈ events (fetchAlbums settings l m).2
      | Ok html =>
          match ParseAlbumPage (ToPathConfig settings) (ToTrackConfig settings)
                  html with
          | Err err => parseError a err ∈ events (fetchAlbums settings l m).2
          | Ok album => album ∈ albums (fetchAlbums settings l m).2
          end
      end.
Proof.
  induction l as [|x l IH]; intros m a Hin; [by inversion Hin|].
  apply elem_of_cons in Hin as [->|Hin].
  - exists (world m). simpl. rewrite !bind_eq. cbn [progress call fst snd world].
    destruct (http_GetString x (world m)).1 as [html|e].
    + destruct (ParseAlbumPage _ _ html) as [album|e].
      * rewrite !bind_eq.
        match goal with
        | |- context [fetchAlbums settings l ?m'] =>
            destruct (fetchAlbums_added l m') as (added & Heq & _);
            cbn [addAlbum progress snd albums] in Heq
        end.
        eapply (eq_ind_r (fun l' => album ∈ l')); [|exact Heq].
        apply elem_of_app. left. apply elem_of_app. right. by left.
      * rewrite bind_eq. eapply extends_event; [apply grows_fetchAlbums|].
        cbn [progress snd events]. apply elem_of_app. right. by left.
    + rewrite bind_eq. eapply extends_event; [apply grows_fetchAlbums|].
      cbn [progress snd events]. apply elem_of_app. right. by left.
  - simpl. rewrite !bind_eq. cbn [progress call fst snd world].
    destruct (http_GetString x (world m)).1 as [html|e].
    + destruct (ParseAlbumPage _ _ html) as [album|e];
        rewrite ?bind_eq; by apply IH.
    + rewrite bind_eq. by apply IH.
Qed.

(** C10.  [Initialize] returns nil whatever the input and the world.  Every
    input URL is looked up: a failed lookup is reported with its error as
    an error-level event and contributes no album URL, a successful one has
    its album URLs fetched.  Every album URL is fetched: a failed fetch and
    a failed parse are each reported with their error as an error-level
    event, and a parsed page adds its album; the albums added are exactly
    parses of pages fetched from those URLs, so a URL that fails adds
    nothing.  In particular a URL whose lookup, fetch or parse fails in
    every state has its error event.  With no URL in the input nothing is
    added and nothing is reported; when every page fails to be fetched or
    parsed, no album is added and every album URL has its event; and when
    every fetch fails, each input URL has its event, for the lookup or for
    the fetch. *)
Theorem Initialize_returns_nil inputURLs m :
  let r := Initialize settings inputURLs m in
  let resolved := resolveInputs settings (parseInputURLs inputURLs) [] m in
  let parse := ParseAlbumPage (ToPathConfig settings) (ToTrackConfig settings) in
  r.1 = None
  /\ (forall u, u ∈ parseInputURLs inputURLs ->
        exists m',
          match (getAlbumURLs settings u m').1 with
          | Err err => lookupError u err ∈ events r.2
          | Ok albumURLs => forall a, a ∈ albumURLs -> a ∈ resolved.1
          end)
  /\ (forall a, a ∈ resolved.1 ->
        exists u m' albumURLs,
          u ∈ parseInputURLs inputURLs
          /\ (getAlbumURLs settings u m').1 = Ok albumURLs
          /\ a ∈ albumURLs)
  /\ (forall a, a ∈ resolved.1 ->
        exists w,
          match (http_GetString a w).1 with
          | Err err => fetchError a err ∈ events r.2
          | Ok html =>
              match parse html with
              | Err err => parseError a err ∈ events r.2
              | Ok album => album ∈ albums r.2
              end
          end)
  /\ (exists added,
        albums r.2 = (albums m ++ added)%list
        /\ forall album, album ∈ added ->
             exists a w html,
               a ∈ resolved.1
               /\ (http_GetString a w).1 = Ok html
               /\ parse html = Ok album)
  /\ (forall u, u ∈ parseInputURLs inputURLs ->
        (forall m', exists err, (getAlbumURLs settings u m').1 = Err err) ->
        exists err, lookupError u err ∈ events r.2)
  /\ (forall a, a ∈ resolved.1 ->
        (forall w, exists err, (http_GetString a w).1 = Err err) ->
        exists err, fetchError a err ∈ events r.2)
  /\ (forall a, a ∈ resolved.1 ->
        (forall w, exists html err,
           (http_GetString a w).1 = Ok html /\ parse html = Err err) ->
        exists err, parseError a err ∈ events r.2)
  /\ (forall u err,
        Level (lookupError u err) = LevelError
        /\ Level (fetchError u err) = LevelError
        /\ Level (parseError u err) = LevelError)
  /\ (parseInputURLs inputURLs = [] ->
      albums r.2 = albums m /\ events r.2 = events m)
  /\ (noPage ->
      albums r.2 = albums m
      /\ forall a, a ∈ resolved.1 ->
           exists err,
             fetchError a err ∈ events r.2 \/ parseError a err ∈ events r.2)
  /\ (offline ->
      forall u, u ∈ parseInputURLs inputURLs ->
        exists err,
          lookupError u err ∈ events r.2 \/ fetchError u err ∈ events r.2).
Proof.
  cbv zeta. unfold Initialize. rewrite !bind_eq. cbn [mret M_ret fst snd].
  set (urls := parseInputURLs inputURLs).
  set (res := resolveInputs settings urls [] m).
  destruct (resolveInputs_lookup urls [] m) as (_ & Hlook & Hfrom).
  fold res in Hlook, Hfrom.
  assert (Hev : forall ev, ev ∈ events res.2 ->
            ev ∈ events (calculateTotals (fetchAlbums settings res.1 res.2).2).2).
  { intros ev H. rewrite calculateTotals_events.
    eapply extends_event; [apply grows_fetchAlbums|exact H]. }
  assert (Hlookup : forall u, u ∈ urls ->
            exists m',
              match (getAlbumURLs settings u m').1 with
              | Err err =>
                  lookupError u err
                  ∈ events (calculateTotals (fetchAlbums settings res.1 res.2).2).2
              | Ok albumURLs => forall a, a ∈ albumURLs -> a ∈ res.1
              end).
  { intros u Hu. destruct (Hlook u Hu) as [m' Hm']. exists m'.
    destruct (getAlbumURLs settings u m').1; [exact Hm'|by apply Hev]. }
  assert (Hfetch : forall a, a ∈ res.1 ->
            exists w,
              match (http_GetString a w).1 with
              | Err err =>
                  fetchError a err
                  ∈ events (calculateTotals (fetchAlbums settings res.1 res.2).2).2
              | Ok html =>
                  match ParseAlbumPage (ToPathConfig settings)
                          (ToTrackConfig settings) html with
                  | Err err =>
                      parseError a err
                      ∈ events
                          (calculateTotals (fetchAlbums settings res.1 res.2).2).2
                  | Ok album =>
                      album
                      ∈ albums
                          (calculateTotals (fetchAlbums settings res.1 res.2).2).2
                  end
              end).
  { intros a Ha. destruct (fetchAlbums_each res.1 res.2 a Ha) as [w Hw].
    exists w. rewrite calculateTotals_events, calculateTotals_albums.
    exact Hw. }
  split; [reflexivity|]. split; [exact Hlookup|]. split.
  { intros a Ha. destruct (Hfrom a Ha) as [Hnil|H]; [by inversion Hnil|exact H]. }
  split; [exact Hfetch|]. split.
  { destruct (fetchAlbums_added res.1 res.2) as (added & Heq & Hadd).
    exists added. split; [|exact Hadd].
    rewrite calculateTotals_albums, Heq. f_equal.
    apply (resolveInputs_albums urls [] m). }
  split.
  { intros u Hu Hall. destruct (Hlookup u Hu) as [m' Hm'].
    destruct (Hall m') as [err Herr]. rewrite Herr in Hm'. by exists err. }
  split.
  { intros a Ha Hall. destruct (Hfetch a Ha) as [w Hw].
    destruct (Hall w) as [err Herr]. rewrite Herr in Hw. by exists err. }
  split.
  { intros a Ha Hall. destruct (Hfetch a Ha) as [w Hw].
    destruct (Hall w) as (html & err & Hget & Hp). rewrite Hget, Hp in Hw.
    by exists err. }
  split; [done|]. split; [|split].
  - intros Hnil. subst res. unfold urls in *. rewrite Hnil.
    cbn [resolveInputs fetchAlbums mret M_ret fst snd].
    by rewrite calculateTotals_albums, calculateTotals_events.
  - intros Hno. split.
    + rewrite calculateTotals_albums, fetchAlbums_noPage by done.
      apply resolveInputs_albums.
    + intros a Ha.
      destruct (fetchAlbums_noPage_events _ Hno a res.2 Ha) as [err Herr].
      exists err. rewrite calculateTotals_events. exact Herr.
  - intros Hoff u Hu.
    destruct (resolveInputs_offline urls Hoff [] m) as [_ Hl].
    destruct (Hl u Hu) as [[err Herr]|Hin].
    + exists err. left. by apply Hev.
    + destruct (fetchAlbums_offline _ Hoff u res.2 Hin) as [err Herr].
      exists err. right.
      eapply extends_event; [apply grows_calculateTotals|]. exact Herr.
Qed.

End Facts.
End ManagerFacts.

(** ** The properties on the small concrete world *)

Module Examples.
Import Strings Regexp Model Dto Bandcamp Config Download Sample.
Import ParserFacts DiscographyFacts ManagerFacts.

Definition trackOne : Track :=
  {| Track_Number := 1; Track_Title := "one"; Track_Duration := 180;
     Track_Lyrics := ""; Track_Mp3URL := "http://down/1.mp3";
     Track_Path := "/music/A/T/01 A - one.mp3" |}.

Definition trackThree : Track :=
  {| Track_Number := 1; Track_Title := "three"; Track_Duration := 180;
     Track_Lyrics := ""; Track_Mp3URL := "http://h/3.mp3";
     Track_Path := "/music/A/T/01 A - three.mp3" |}.

Definition trackFive : Track :=
  {| Track_Number := 1; Track_Title := "five"; Track_Duration := 180;
     Track_Lyrics := ""; Track_Mp3URL := "http://h/5.mp3";
     Track_Path := "/music/A/T/01 A - five.mp3" |}.

(** Two album URLs, one a line: the page of the first can be fetched, the
    host of the second is down. *)
Definition mixedInput : string :=
  "https://h/album/x" +:+ String "010"%char "http://down/album/y".

(** A listing page with the marker and one album anchor. *)
Definition oneAnchor : string :=
  "<div id=" +:+ quoted "discography" +:+ "></div><a href="
  +:+ quoted "/album/only" +:+ ">Only</a>".

(** The page of the sample decodes to five records of which four carry a
    file, and parsing it gives four tracks. *)
Lemma ParseAlbumPage_tracks_witness :
  extractAlbumData (C := codec) page = Ok blob
  /\ json_Unmarshal (fixJSON blob) = Ok decoded
  /\ exists album,
       ParseAlbumPage (C := codec) (ToPathConfig sampleSettings)
         (ToTrackConfig sampleSettings) page = Ok album
       /\ length (Album_Tracks album) = 4.
Proof.
  split; [vm_compute; reflexivity|]. split; [vm_compute; reflexivity|].
  destruct (ParseAlbumPage_tracks (C := codec) (ToPathConfig sampleSettings)
              (ToTrackConfig sampleSettings) page blob decoded 4)
    as (album & Hp & Hn & _); [vm_compute; reflexivity..|].
  exists album. split; [exact Hp|exact Hn].
Defined.

Lemma GetAlbumURLs_listing_witness :
  isSingleAlbumArtist twoLinks = false
  /\ GetAlbumURLs twoLinks (Ok ["/album/a"; "/album/b"]).
Proof.
  split; [vm_compute; reflexivity|].
  apply (GetAlbumURLs_listing twoLinks); [vm_compute; reflexivity|].
  right. split; [vm_compute; discriminate|].
  eexists. split; [reflexivity|]. vm_compute. reflexivity.
Defined.

Lemma GetAlbumURLs_single_witness :
  isSingleAlbumArtist oneAnchor = true
  /\ GetAlbumURLs oneAnchor (Ok ["/album/only"]).
Proof.
  split; [vm_compute; reflexivity|].
  apply (GetAlbumURLs_single oneAnchor); [vm_compute; reflexivity|].
  vm_compute. reflexivity.
Defined.

(** C3, as stated, fails: with every transfer succeeding or skipped and no
    cancellation, an album whose directory cannot be made makes
    [StartDownloads] return the error of the directory creation. *)
Lemma StartDownloads_directory_error :
  (StartDownloads (E := env) readonlySettings (fresh env [readonlyAlbum] start)).1
  = Some (External "permission denied").
Proof. vm_compute. reflexivity. Qed.

Lemma StartDownloads_error_witness :
  (StartDownloads (E := env) sampleSettings
     (fresh env [sampleAlbum; readonlyAlbum] start)).1
  = Some (External "permission denied")
  /\ (exists album w,
        album ∈ [sampleAlbum; readonlyAlbum]
        /\ (os_MkdirAll (Env := env) (Album_Path album) w).1
           = Some (External "permission denied"))
  /\ (StartDownloads (E := env) sampleSettings
        (fresh env [sampleAlbum; readonlyAlbum] start)).1 <> None
  /\ (StartDownloads (E := env) sampleSettings
        (fresh env [sampleAlbum] start)).1 = None
  /\ (exists err,
        downloadError trackOne err
        ∈ events (StartDownloads (E := env) sampleSettings
                    (fresh env [sampleAlbum] start)).2).
Proof.
  destruct (StartDownloads_error (E := env) sampleSettings
              (fresh env [sampleAlbum; readonlyAlbum] start))
    as (Hsome & Hfail & _ & _).
  destruct (StartDownloads_error (E := env) sampleSettings
              (fresh env [sampleAlbum] start))
    as (_ & _ & Hnil & Hrep).
  split; [vm_compute; reflexivity|]. split; [|split; [|split]].
  - destruct (Hsome (External "permission denied")) as (album & w & Hin & Hdir & _);
      [vm_compute; reflexivity|].
    exists album, w. split; [exact Hin|exact Hdir].
  - apply (Hfail readonlyAlbum).
    + apply elem_of_cons. right. apply elem_of_cons. left. reflexivity.
    + intros w. vm_compute. discriminate.
  - apply Hnil. intros album w Hin.
    apply list_elem_of_singleton in Hin. subst album. vm_compute. reflexivity.
  - destruct (Hrep sampleAlbum trackOne) as (err & _ & _ & _ & Hev & _).
    + apply elem_of_cons. left. reflexivity.
    + vm_compute. apply elem_of_cons. left. reflexivity.
    + intros w. vm_compute. reflexivity.
    + intros artwork m'.
      apply (downloadTrack_failing (E := env) sampleSettings trackOne
               sampleAlbum artwork m').
      * vm_compute. discriminate.
      * intros w. vm_compute. reflexivity.
      * intros w. vm_compute. discriminate.
    + exists err. exact Hev.
Defined.

(** C4, as stated, fails: with a retry budget of zero, a track whose
    transfer fails in every world and that is never skipped gets no attempt
    and no error; its task reports it as downloaded and counts it as a
    success. *)
Lemma downloadTrack_zero_budget :
  DownloadMaxRetries noRetrySettings = 0%Z
  /\ (forall w,
        (http_DownloadFile (Env := env) (Track_Mp3URL trackOne)
           (Track_Path trackOne) w).1 <> None)
  /\ (forall w, skipsAt (E := env) noRetrySettings trackOne w = false)
  /\ (downloadTrack (E := env) noRetrySettings trackOne sampleAlbum None
        (fresh env [] start)).1 = None
  /\ trace (trackTask (E := env) noRetrySettings sampleAlbum None trackOne 0
              (fresh env [] start)).2 = []
  /\ events (trackTask (E := env) noRetrySettings sampleAlbum None trackOne 0
               (fresh env [] start)).2 = [downloadedEvent (E := env) trackOne]
  /\ (trackTask (E := env) noRetrySettings sampleAlbum None trackOne 0
        (fresh env [] start)).1 = (None, 1%Z).
Proof.
  split; [reflexivity|]. split; [intros w; vm_compute; discriminate|].
  split; [intros w; vm_compute; reflexivity|].
  repeat split; vm_compute; reflexivity.
Qed.

Lemma downloadTrack_retries_witness :
  (1 <= DownloadMaxRetries sampleSettings)%Z
  /\ (downloadTrack (E := env) sampleSettings trackOne sampleAlbum None
        (fresh env [] start)).1 <> None
  /\ length (trace (downloadTrack (E := env) sampleSettings trackOne sampleAlbum
                      None (fresh env [] start)).2) = 14.
Proof.
  assert (H1 : (1 <= DownloadMaxRetries sampleSettings)%Z)
    by (vm_compute; discriminate).
  destruct (downloadTrack_retries (E := env) sampleSettings trackOne sampleAlbum
              None (fresh env [] start) H1) as (Hres & Htr & _).
  - intros w. vm_compute. reflexivity.
  - intros w. vm_compute. discriminate.
  - split; [exact H1|]. split; [exact Hres|].
    rewrite Htr. vm_compute. reflexivity.
Defined.

Lemma downloadTrack_skip_rule_witness :
  (1 <= DownloadMaxRetries sampleSettings)%Z
  /\ (os_Stat (Env := env) (Track_Path trackThree) start).1 = Ok 1000%Z
  /\ (os_Stat (Env := env) (Track_Path trackFive) start).1 = Ok 1100%Z
  /\ downloadTrack (E := env) sampleSettings trackThree sampleAlbum None
       (fresh env [] start)
     = (None, skipState (E := env) trackThree (fresh env [] start))
  /\ exists rest,
       trace (downloadTrack (E := env) sampleSettings trackFive sampleAlbum None
                (fresh env [] start)).2
       = ADownload (Track_Mp3URL trackFive) (Track_Path trackFive) :: rest.
Proof.
  assert (H1 : (1 <= DownloadMaxRetries sampleSettings)%Z)
    by (vm_compute; discriminate).
  split; [exact H1|]. split; [vm_compute; reflexivity|].
  split; [vm_compute; reflexivity|]. split.
  - destruct (downloadTrack_skip_rule (E := env) sampleSettings trackThree
                sampleAlbum None (fresh env [] start) 1000 1040 H1)
      as (_ & _ & _ & Hdef & _); [vm_compute; reflexivity..|].
    destruct Hdef as (_ & Hclose & _);
      [vm_compute; reflexivity|vm_compute; reflexivity..|].
    destruct Hclose as [Hres _]; [vm_compute; discriminate|exact Hres].
  - destruct (downloadTrack_skip_rule (E := env) sampleSettings trackFive
                sampleAlbum None (fresh env [] start) 1100 1000 H1)
      as (_ & _ & _ & Hdef & _); [vm_compute; reflexivity..|].
    destruct Hdef as (_ & _ & Hlarge);
      [vm_compute; reflexivity|vm_compute; reflexivity..|].
    destruct Hlarge as [_ [rest Hrest]]; [vm_compute; reflexivity|].
    exists rest. exact Hrest.
Defined.

(** C5, as stated, fails twice.  With a retry budget of zero, a local file
    10% larger than the remote one is not transferred and is counted as
    completed.  And the quotient is a float64: for a local size of
    8819999999999999 and a remote size of 8399999999999999 the relative
    difference is above the allowed one, the float64 nearest to 0.05, and
    above 0.05 itself, and the track is skipped all the same, because the
    quotient rounds to the allowed difference. *)
Lemma downloadTrack_skip_rule_fails :
  ((os_Stat (Env := env) (Track_Path trackFive) start).1 = Ok 1100%Z
   /\ (http_GetFileSize (Env := env) (Track_Mp3URL trackFive) start).1
      = Ok 1000%Z
   /\ (downloadTrack (E := env) noRetrySettings trackFive sampleAlbum None
         (fresh env [] start)).1 = None
   /\ trace (downloadTrack (E := env) noRetrySettings trackFive sampleAlbum
               None (fresh env [] start)).2 = []
   /\ downloadedFiles (downloadTrack (E := env) noRetrySettings trackFive
                         sampleAlbum None (fresh env [] start)).2 = 1%Z)
  /\ ((1 <= DownloadMaxRetries sampleSettings)%Z
      /\ (os_Stat (Env := edgeEnv) (Track_Path trackOne) start).1
         = Ok 8819999999999999%Z
      /\ (http_GetFileSize (Env := edgeEnv) (Track_Mp3URL trackOne) start).1
         = Ok 8399999999999999%Z
      /\ (Float64.to_Q (AllowedFileSizeDifference sampleSettings)
          < inject_Z (8819999999999999 - 8399999999999999)
            / inject_Z 8399999999999999)%Q
      /\ (5 # 100
          < inject_Z (8819999999999999 - 8399999999999999)
            / inject_Z 8399999999999999)%Q
      /\ downloadTrack (E := edgeEnv) sampleSettings trackOne sampleAlbum None
           (fresh edgeEnv [] start)
         = (None, skipState (E := edgeEnv) trackOne (fresh edgeEnv [] start))).
Proof.
  split.
  - repeat split; vm_compute; reflexivity.
  - split; [vm_compute; discriminate|].
    repeat split; vm_compute; reflexivity.
Qed.

Lemma Initialize_returns_nil_witness :
  offline (E := offlineEnv)
  /\ (Initialize (E := offlineEnv) sampleSettings "https://h/album/x"
        (fresh offlineEnv [] start)).1 = None
  /\ albums (Initialize (E := offlineEnv) sampleSettings "https://h/album/x"
               (fresh offlineEnv [] start)).2 = []
  /\ (exists err,
        lookupError "https://h/album/x" err
        ∈ events (Initialize (E := offlineEnv) sampleSettings "https://h/album/x"
                    (fresh offlineEnv [] start)).2
        \/ fetchError "https://h/album/x" err
           ∈ events (Initialize (E := offlineEnv) sampleSettings
                       "https://h/album/x" (fresh offlineEnv [] start)).2)
  /\ (Initialize (E := env) sampleSettings mixedInput (fresh env [] start)).1
     = None
  /\ sampleAlbum
     ∈ albums (Initialize (E := env) sampleSettings mixedInput
                 (fresh env [] start)).2
  /\ (exists err,
        fetchError "http://down/album/y" err
        ∈ events (Initialize (E := env) sampleSettings mixedInput
                    (fresh env [] start)).2).
Proof.
  assert (Hoff : offline (E := offlineEnv)).
  { intros url w. exists (External "HTTP 404"). reflexivity. }
  assert (Hno : noPage (E := offlineEnv) sampleSettings).
  { intros url w. exact I. }
  destruct (Initialize_returns_nil (E := offlineEnv) sampleSettings
              "https://h/album/x" (fresh offlineEnv [] start))
    as (Hnil & _ & _ & _ & _ & _ & _ & _ & _ & _ & Hkeep & Hrep).
  destruct (Initialize_returns_nil (E := env) sampleSettings mixedInput
              (fresh env [] start))
    as (Hnil' & _ & _ & Hfetch & _ & _ & Hfail & _).
  split; [exact Hoff|]. split; [exact Hnil|].
  split; [exact (proj1 (Hkeep Hno))|]. split.
  { apply (Hrep Hoff). vm_compute. apply elem_of_cons. left. reflexivity. }
  split; [exact Hnil'|]. split.
  - destruct (Hfetch "https://h/album/x") as [w Hw].
    + vm_compute. apply elem_of_cons. left. reflexivity.
    + exact Hw.
  - apply (Hfail "http://down/album/y").
    + vm_compute. apply elem_of_cons. right. apply elem_of_cons. left.
      reflexivity.
    + intros w. exists (External "HTTP 404"). reflexivity.
Defined.

End Examples.

(** * Further properties *)

(** ** File names and paths *)

Module CatalogFacts.
Import Strings Regexp Model Dto StringFacts SanitizeFacts ParserFacts.

(** X1.  Whatever the input, the sanitized name holds none of the
    characters < > : double-quote / \ | ? * and no control character. *)
Theorem sanitizeFileName_no_invalid s :
  Every (fun c => invalidChar c = false) (sanitizeFileName s).
Proof. apply sanitizeFileName_valid. Qed.

(** X2.  Whatever the input, the sanitized name never holds two whitespace
    characters in a row. *)
Theorem sanitizeFileName_single_spaces s : NoRun (sanitizeFileName s).
Proof. apply sanitizeFileName_NoRun. Qed.

(** X3.  Whatever the input, the sanitized name does not end with a
    whitespace character. *)
Theorem sanitizeFileName_trimmed s c :
  last (sanitizeFileName s) = Some c -> space c = false.
Proof. apply sanitizeFileName_no_trailing_space. Qed.

Lemma sanitizeFileName_trimmed_witness :
  last (sanitizeFileName "trailing spaces   ") = Some "s"%char
  /\ space "s" = false.
Proof.
  split; [vm_compute; reflexivity|].
  apply (sanitizeFileName_trimmed "trailing spaces   "). vm_compute. reflexivity.
Defined.

(** *** Names that need no change *)

Lemma last_cons c d s : last (String c (String d s)) = last (String d s).
Proof. reflexivity. Qed.

Lemma last_Suffix t s : Suffix t s -> t <> "" -> last t = last s.
Proof.
  intros [p ->] Ht. induction p as [|c p IH]; [done|].
  rewrite app_cons. destruct (p +:+ t) as [|d u] eqn:E.
  - destruct p; [by rewrite app_empty_l in E|by rewrite app_cons in E].
  - by rewrite last_cons.
Qed.

Lemma plus_greedy_all p s :
  In "" (plus_greedy p s) -> s <> "" /\ Every (fun c => p c = true) s.
Proof.
  induction s as [|c s IH]; simpl; [done|].
  destruct (p c) eqn:Hc; [|done]. rewrite in_app_iff. intros [H|[->|[]]].
  - split; [done|]. split; [done|]. by apply IH.
  - done.
Qed.

(** The pattern of the trailing dots only matches a text that ends with a
    dot. *)
Lemma trailingDots_match t m :
  match_here trailingDots t = Some m -> last t = Some "."%char.
Proof.
  intros H. apply head_In in H. unfold trailingDots in H.
  apply run_Cat_In in H as (m1 & H1 & H2).
  assert (m1.1 = "") as Hend.
  { simpl in H2. by destruct m1.1. }
  simpl in H1. apply in_map_iff in H1 as (rest & <- & Hr).
  simpl in Hend. subst rest.
  apply plus_greedy_all in Hr as [Hne Hall].
  destruct (last t) as [c|] eqn:Hl.
  - pose proof (Every_last _ _ _ Hall Hl) as Hc. simpl in Hc.
    unfold only in Hc. by apply Ascii.eqb_eq in Hc as ->.
  - destruct t as [|a t]; [done|]. exfalso.
    clear -Hl. revert a Hl. induction t as [|b t IH]; intros a; [done|].
    rewrite last_cons. apply IH.
Qed.

Lemma dropWhile_id s : headSpace s = false -> dropWhile space s = s.
Proof. destruct s as [|c s]; [done|]. simpl. by intros ->. Qed.

Lemma TrimRight_id s :
  last s <> Some " "%char -> TrimRight s " " = s.
Proof.
  induction s as [|c s IH]; [done|]. intros Hl. simpl TrimRight.
  destruct s as [|d s].
  - simpl. rewrite orb_false_r.
    destruct (Ascii.eqb_spec c " ") as [->|_]; [by destruct Hl|done].
  - rewrite last_cons in Hl. by rewrite (IH Hl).
Qed.

Lemma sanitizeFileName_id s :
  Every (fun c => invalidChar c = false) s ->
  NoRun s ->
  last s <> Some "."%char ->
  last s <> Some " "%char ->
  sanitizeFileName s = s.
Proof.
  intros Hv Hr Hdot Hsp. unfold sanitizeFileName, ReplaceAllString.
  assert (H1 : replace_from invalidChars (fun _ => "_") s 0 = s).
  { clear Hr Hdot Hsp. induction s as [|c s IH]; [done|].
    destruct Hv as [Hc Hs]. rewrite replace_from_pass; [by rewrite IH|].
    unfold match_here, invalidChars. cbn [run]. by rewrite Hc. }
  rewrite H1.
  assert (H2 : replace_from trailingDots (fun _ => "") s 0 = s).
  { apply replace_from_no_match. intros t Ht.
    destruct (match_here trailingDots t) as [m|] eqn:E; [|done].
    pose proof (trailingDots_match _ _ E) as Hl.
    rewrite (last_Suffix _ _ Ht) in Hl; [done|]. by intros ->. }
  rewrite H2.
  assert (H3 : replace_from whitespaceRun (fun _ => " ") s 0 = s).
  { clear H1 H2 Hdot Hsp. induction s as [|c s IH]; [done|].
    destruct Hv as [Hc Hs]. destruct Hr as [Hcs Hrs].
    rewrite collapse_cons. destruct (space c) eqn:Hsc.
    - simpl in Hcs. rewrite (valid_space c Hc Hsc).
      rewrite dropWhile_id by exact Hcs. by rewrite IH.
    - by rewrite IH. }
  rewrite H3. by apply TrimRight_id.
Qed.

(** X4.  A name without invalid characters, without two whitespace
    characters in a row and not ending with a dot or a space goes through
    the sanitizer unchanged. *)
Theorem sanitizeFileName_clean_unchanged s :
  Every (fun c => invalidChar c = false) s ->
  NoRun s ->
  last s <> Some "."%char ->
  last s <> Some " "%char ->
  sanitizeFileName s = s.
Proof. apply sanitizeFileName_id. Qed.

Lemma sanitizeFileName_clean_unchanged_witness :
  sanitizeFileName "01 Artist - Title.mp3" = "01 Artist - Title.mp3".
Proof.
  apply sanitizeFileName_clean_unchanged.
  - vm_compute. repeat split.
  - vm_compute. repeat split.
  - vm_compute. discriminate.
  - vm_compute. discriminate.
Defined.

(** *** Lengths *)

Lemma length_app (a b : string) :
  String.length (a +:+ b) = String.length a + String.length b.
Proof.
  induction a as [|c a IH]; [done|]. rewrite app_cons. simpl. by rewrite IH.
Qed.

Lemma length_take n : forall s,
  String.length (take n s) = Nat.min n (String.length s).
Proof.
  induction n as [|n IH]; intros s; [done|].
  destruct s as [|c s]; [done|]. simpl. by rewrite IH.
Qed.

Lemma length_zeros n : String.length (Fmt.zeros n) = n.
Proof. induction n as [|n IH]; simpl; [done|by rewrite IH]. Qed.

Lemma length_d0 width z :
  (0 <= z)%Z -> width <= String.length (Fmt.d0 width z).
Proof.
  intros Hz. unfold Fmt.d0.
  replace (z <? 0)%Z with false by (symmetry; apply Z.ltb_ge; lia).
  rewrite length_app, length_zeros. lia.
Qed.

(** *** Decimal digits *)

Lemma uint_of_string_zeros k s :
  NilEmpty.uint_of_string (Fmt.zeros k +:+ s)
  = option_map (Nat.iter k Decimal.D0) (NilEmpty.uint_of_string s).
Proof.
  induction k as [|k IH].
  - cbn [Fmt.zeros]. rewrite app_empty_l.
    by destruct (NilEmpty.uint_of_string s).
  - cbn [Fmt.zeros]. rewrite app_cons. cbn [NilEmpty.uint_of_string].
    rewrite IH. by destruct (NilEmpty.uint_of_string s).
Qed.

Lemma of_uint_zeros k u :
  Pos.of_uint (Nat.iter k Decimal.D0 u) = Pos.of_uint u.
Proof. induction k as [|k IH]; [done|]. simpl. exact IH. Qed.

Lemma to_uint_nonnil n : N.to_uint n <> Decimal.Nil.
Proof.
  destruct n as [|p]; [done|]. apply DecimalPos.Unsigned.to_uint_nonnil.
Qed.

Lemma digits_string z :
  Fmt.digits z = NilEmpty.string_of_uint (N.to_uint (Z.abs_N z)).
Proof.
  unfold Fmt.digits, NilZero.string_of_uint.
  pose proof (to_uint_nonnil (Z.abs_N z)) as H.
  by destruct (N.to_uint (Z.abs_N z)).
Qed.

(** The decimal digits of a positive number do not start with a zero. *)
Lemma to_uint_head p u : Pos.to_uint p <> Decimal.D0 u.
Proof.
  intros H.
  pose proof (DecimalPos.Unsigned.to_of (Pos.to_uint p)) as Hn.
  rewrite DecimalPos.Unsigned.of_to in Hn. cbn [N.to_uint] in Hn.
  rewrite H, DecimalFacts.unorm_D0 in Hn.
  destruct u; [by apply (DecimalPos.Unsigned.to_uint_nonzero p)|..];
    match type of Hn with
    | _ = Decimal.unorm ?v =>
        pose proof (DecimalFacts.nb_digits_unorm v) as Hd;
        rewrite <- Hn in Hd;
        specialize (Hd ltac:(discriminate));
        simpl in Hd; lia
    end.
Qed.

Lemma digits_head z :
  1 < String.length (Fmt.digits z) -> HasPrefix (Fmt.digits z) "0" = false.
Proof.
  rewrite digits_string. destruct (Z.abs_N z) as [|p]; [simpl; lia|].
  cbn [N.to_uint]. intros _.
  pose proof (to_uint_head p) as Hh.
  destruct (Pos.to_uint p) as [|u|u|u|u|u|u|u|u|u|u]; try reflexivity.
  by destruct (Hh u).
Qed.

(** What [%010d] writes for a number that is not negative: digits that read
    back as the number, ten at least, with no zero in front when there are
    more than ten. *)
Lemma d0_decimal z :
  (0 <= z)%Z ->
  (exists u,
     NilEmpty.uint_of_string (Fmt.d0 10 z) = Some u /\ Z.of_uint u = z)
  /\ 10 <= String.length (Fmt.d0 10 z)
  /\ (10 < String.length (Fmt.d0 10 z) -> HasPrefix (Fmt.d0 10 z) "0" = false).
Proof.
  intros Hz. unfold Fmt.d0.
  replace (z <? 0)%Z with false by (symmetry; apply Z.ltb_ge; lia).
  split; [|split].
  - rewrite uint_of_string_zeros, digits_string, NilEmpty.usu. simpl.
    eexists. split; [reflexivity|].
    unfold Z.of_uint. rewrite of_uint_zeros.
    change (Pos.of_uint (N.to_uint (Z.abs_N z)))
      with (N.of_uint (N.to_uint (Z.abs_N z))).
    rewrite DecimalN.Unsigned.of_to. lia.
  - rewrite length_app, length_zeros. lia.
  - rewrite length_app, length_zeros. intros Hlen.
    replace (10 - String.length (Fmt.digits z)) with 0 by lia.
    cbn [Fmt.zeros]. rewrite app_empty_l. apply digits_head. lia.
Qed.

Section WithPlatform.
Context {P : Platform}.

(** X5.  The folder of an album is never longer than 247 bytes, whatever
    the template, the artist and the title. *)
Theorem NewAlbum_path_bound artist title artworkURL releaseDate cfg :
  String.length (Album_Path (NewAlbum artist title artworkURL releaseDate cfg))
  <= 247.
Proof.
  cbn [NewAlbum Album_Path]. unfold parseFolderPath. cbv zeta.
  match goal with
  | |- context [(248 <=? String.length ?p)%nat] =>
      destruct (Nat.leb_spec 248 (String.length p))
  end.
  - rewrite length_take. lia.
  - lia.
Qed.

(** X6.  The length limit of a file path: a path shorter than 260 bytes is
    kept; a longer one whose file name exceeds [11 - len(ext)] bytes, that
    being positive, has its name cut to a prefix followed by the extension,
    11 bytes in all. *)
Theorem limitFilePath_cases dir fileName ext filePath :
  (String.length filePath < 260 ->
   limitFilePath dir fileName ext filePath = filePath)
  /\ (260 <= String.length filePath ->
      String.length ext < 11 ->
      11 - String.length ext < String.length fileName ->
      limitFilePath dir fileName ext filePath
      = filepath_Join dir (take (11 - String.length ext) fileName +:+ ext)
      /\ String.length (take (11 - String.length ext) fileName +:+ ext) = 11).
Proof.
  unfold limitFilePath. split.
  - intros H. destruct (Nat.leb_spec 260 (String.length filePath)); [lia|done].
  - intros H Hext Hname.
    destruct (Nat.leb_spec 260 (String.length filePath)); [|lia]. cbv zeta.
    replace (0 <? 11 - Z.of_nat (String.length ext))%Z with true
      by (symmetry; apply Z.ltb_lt; lia).
    replace (11 - Z.of_nat (String.length ext)
             <? Z.of_nat (String.length fileName))%Z with true
      by (symmetry; apply Z.ltb_lt; lia).
    replace (Z.to_nat (11 - Z.of_nat (String.length ext)))
      with (11 - String.length ext) by lia.
    split; [done|]. rewrite length_app, length_take. lia.
Qed.

(** X7.  The URL of a track never starts with two slashes: a
    protocol-relative URL gets the scheme [http:] in front and any other URL
    is taken as it is. *)
Theorem ToTrack_url jt file album cfg :
  HasPrefix (Track_Mp3URL (ToTrack jt file album cfg)) "//" = false
  /\ (Track_Mp3URL (ToTrack jt file album cfg) = URL file
      \/ Track_Mp3URL (ToTrack jt file album cfg) = "http:" +:+ URL file).
Proof.
  unfold ToTrack. cbn [NewTrack Track_Mp3URL].
  destruct (HasPrefix (URL file) "//") eqn:Hp.
  - split; [reflexivity|by right].
  - split; [exact Hp|by left].
Qed.

(** X8.  An album has artwork exactly when the page gave an art id: without
    one the artwork URL and the artwork path are empty; with one the URL is
    the fixed prefix, the id in decimal padded with zeros to ten digits, and
    the fixed suffix: for an id that is not negative the digits read back as
    the id, are ten at least, and do not start with a zero when they are
    more than ten. *)
Theorem ToAlbum_artwork ja pathCfg trackCfg :
  (ArtID ja = None ->
   HasArtwork (ToAlbum ja pathCfg trackCfg) = false
   /\ Album_ArtworkURL (ToAlbum ja pathCfg trackCfg) = ""
   /\ Album_ArtworkPath (ToAlbum ja pathCfg trackCfg) = "")
  /\ (forall id,
        ArtID ja = Some id ->
        HasArtwork (ToAlbum ja pathCfg trackCfg) = true
        /\ exists digits,
             Album_ArtworkURL (ToAlbum ja pathCfg trackCfg)
             = artworkURLStart +:+ digits +:+ artworkURLEnd
             /\ ((0 <= id)%Z ->
                 (exists u,
                    NilEmpty.uint_of_string digits = Some u
                    /\ Z.of_uint u = id)
                 /\ 10 <= String.length digits
                 /\ (10 < String.length digits ->
                     HasPrefix digits "0" = false))).
Proof.
  split.
  - intros Hid. unfold ToAlbum, HasArtwork. rewrite Hid.
    cbn [NewAlbum Album_ArtworkURL Album_ArtworkPath]. by repeat split.
  - intros id Hid. unfold ToAlbum, HasArtwork. rewrite Hid.
    cbn [NewAlbum Album_ArtworkURL]. split; [reflexivity|].
    exists (Fmt.d0 10 id). split; [reflexivity|]. apply d0_decimal.
Qed.

End WithPlatform.
End CatalogFacts.

(** ** Pages *)

Module PageFacts.
Import Strings Regexp Model Dto Bandcamp StringFacts ParserFacts CatalogFacts.

Lemma Index_None s sub : Index s sub = None <-> Contains s sub = false.
Proof.
  induction s as [|c s IH]; simpl.
  - destruct (HasPrefix "" sub); [split; discriminate|done].
  - destruct (HasPrefix (String c s) sub); [split; discriminate|].
    simpl. rewrite <- IH. destruct (Index s sub); [split; discriminate|done].
Qed.

Lemma Index_Some s sub : forall i,
  Index s sub = Some i ->
  exists pre, s = pre +:+ drop i s /\ String.length pre = i
              /\ HasPrefix (drop i s) sub = true.
Proof.
  induction s as [|c s IH]; intros i; simpl.
  - destruct (HasPrefix "" sub) eqn:Hp; [|done].
    intros [= <-]. by exists "".
  - destruct (HasPrefix (String c s) sub) eqn:Hp.
    + intros [= <-]. by exists "".
    + destruct (Index s sub) as [j|]; [|done]. intros [= <-].
      destruct (IH j eq_refl) as (pre & Hs & Hl & Hd).
      exists (String c pre). simpl. rewrite app_cons, <- Hs, Hl. done.
Qed.

Lemma drop_app a : forall b, drop (String.length a) (a +:+ b) = b.
Proof. induction a as [|c a IH]; intros b; [by destruct b|apply IH]. Qed.

Lemma drop_drop n : forall m s, drop n (drop m s) = drop (m + n) s.
Proof.
  intros m. revert n. induction m as [|m IH]; intros n s; [done|].
  destruct s as [|c s]; [by destruct n|]. simpl. apply IH.
Qed.

Lemma take_drop n : forall s, take n s +:+ drop n s = s.
Proof.
  induction n as [|n IH]; intros s; [by destruct s|].
  destruct s as [|c s]; [done|]. simpl. by rewrite app_cons, IH.
Qed.

Lemma last_app_cons a c : last (a +:+ String c "") = Some c.
Proof.
  induction a as [|d a IH]; [done|]. rewrite app_cons.
  destruct (a +:+ String c "") eqn:E; [by destruct a|].
  by rewrite last_cons.
Qed.

Lemma take_app a : forall b, take (String.length a) (a +:+ b) = a.
Proof.
  induction a as [|c a IH]; intros b; [by destruct b|].
  rewrite app_cons. simpl. by rewrite IH.
Qed.

Definition blobKey : string := "data-tralbum=" +:+ dq.
Definition blobStart : string := "data-tralbum=" +:+ dq +:+ "{".
Definition blobStop : string := "}" +:+ dq.

Section WithCodec.
Context {P : Platform} {C : Codec}.

(** X9.  [extractAlbumData] fails exactly when the page lacks the opening
    marker or, after it, the closing pair; when it succeeds, the text it
    unescapes is a piece of the page that starts with the opening brace of the
    marker and ends with the closing brace of the first closing pair. *)
Theorem extractAlbumData_cases htmlContent :
  (Contains htmlContent blobStart = false ->
   extractAlbumData htmlContent
   = Err (errors_New "could not find album data in HTML"))
  /\ (forall albumData,
        extractAlbumData htmlContent = Ok albumData ->
        exists before raw after,
          htmlContent = before +:+ raw +:+ after
          /\ albumData = html_UnescapeString raw
          /\ HasPrefix raw "{" = true
          /\ last raw = Some "}"%char
          /\ HasPrefix after dq = true).
Proof.
  split.
  - intros H. apply Index_None in H. unfold extractAlbumData.
    fold blobStart. by rewrite H.
  - intros albumData. unfold extractAlbumData. fold blobStart blobStop.
    cbv zeta.
    destruct (Index htmlContent blobStart) as [i|] eqn:Hi; [|done].
    destruct (Index_Some _ _ _ Hi) as (pre & Hs & Hl & Hp).
    apply HasPrefix_true in Hp as [rest Hrest].
    set (remaining := drop (i + (String.length blobStart - 1)) htmlContent).
    assert (Hrem : remaining = "{" +:+ rest).
    { unfold remaining. rewrite <- drop_drop, Hrest.
      change (blobStart +:+ rest) with (blobKey +:+ ("{" +:+ rest)).
      change (String.length blobStart - 1) with (String.length blobKey).
      apply drop_app. }
    destruct (Index remaining blobStop) as [j|] eqn:Hj; [|done].
    intros [= <-].
    destruct (Index_Some _ _ _ Hj) as (pre2 & Hs2 & Hl2 & Hp2).
    apply HasPrefix_true in Hp2 as [rest2 Hrest2].
    assert (Htake : take (j + 1) remaining = pre2 +:+ "}").
    { rewrite Hs2, Hrest2. unfold blobStop.
      rewrite (app_assoc "}" dq rest2), <- (app_assoc pre2 "}").
      replace (j + 1) with (String.length (pre2 +:+ "}"))
        by (rewrite length_app; simpl; lia).
      apply take_app. }
    exists (pre +:+ blobKey), (take (j + 1) remaining),
      (drop (j + 1) remaining).
    split; [|split; [done|split; [|split]]].
    + rewrite take_drop, Hrem. rewrite Hs at 1. rewrite Hrest.
      change (blobStart +:+ rest) with (blobKey +:+ ("{" +:+ rest)).
      by rewrite app_assoc.
    + rewrite Htake. destruct pre2 as [|c pre2].
      * exfalso. rewrite Hs2, Hrest2 in Hrem. discriminate Hrem.
      * rewrite Hs2, app_cons in Hrem. injection Hrem as -> _.
        by rewrite app_cons.
    + rewrite Htake. apply last_app_cons.
    + rewrite Hs2 at 1. rewrite Hrest2. unfold blobStop.
      rewrite (app_assoc "}" dq rest2), <- (app_assoc pre2 "}").
      replace (j + 1) with (String.length (pre2 +:+ "}"))
        by (rewrite length_app; simpl; lia).
      rewrite drop_app. apply HasPrefix_true. by exists rest2.
Qed.

(** X10.  A page without the data blob is refused by [ParseAlbumPage] with
    the wrapped not-found error, whatever the decoder would do. *)
Theorem ParseAlbumPage_no_blob pathConfig trackConfig htmlContent :
  Contains htmlContent blobStart = false ->
  ParseAlbumPage pathConfig trackConfig htmlContent
  = Err (Wrapped "could not retrieve album data"
           (errors_New "could not find album data in HTML"))
  /\ Error (Wrapped "could not retrieve album data"
              (errors_New "could not find album data in HTML"))
     = "could not retrieve album data: could not find album data in HTML".
Proof.
  intros H. apply Index_None in H. unfold ParseAlbumPage, extractAlbumData.
  fold blobStart. rewrite H. split; reflexivity.
Qed.

Definition lyricsID (track : Track) : string :=
  "id=" +:+ dq +:+ "lyrics_row_" +:+ Fmt.d (Track_Number track) +:+ dq.

Lemma extractTrackLyrics_fields html t :
  Track_Number (extractTrackLyrics html t) = Track_Number t
  /\ Track_Title (extractTrackLyrics html t) = Track_Title t
  /\ Track_Duration (extractTrackLyrics html t) = Track_Duration t
  /\ Track_Mp3URL (extractTrackLyrics html t) = Track_Mp3URL t
  /\ Track_Path (extractTrackLyrics html t) = Track_Path t.
Proof.
  unfold extractTrackLyrics.
  repeat match goal with
         | |- context [match ?x with _ => _ end] => destruct x
         end; by repeat split.
Qed.

(** X11.  The lyrics pass changes nothing but lyrics: the album keeps its
    fields and the number and order of its tracks, every track keeps its
    number, title, duration, URL and path, and a track for whose number the
    page has no lyrics element is left as it is. *)
Theorem extractLyrics_only_lyrics htmlContent album :
  let album' := extractLyrics htmlContent album in
  Album_Artist album' = Album_Artist album
  /\ Album_Title album' = Album_Title album
  /\ Album_Path album' = Album_Path album
  /\ length (Album_Tracks album') = length (Album_Tracks album)
  /\ (forall i track,
        Album_Tracks album !! i = Some track ->
        exists track',
          Album_Tracks album' !! i = Some track'
          /\ Track_Number track' = Track_Number track
          /\ Track_Title track' = Track_Title track
          /\ Track_Duration track' = Track_Duration track
          /\ Track_Mp3URL track' = Track_Mp3URL track
          /\ Track_Path track' = Track_Path track
          /\ (Contains htmlContent (lyricsID track) = false -> track' = track)).
Proof.
  cbv zeta. cbn [extractLyrics Album_Artist Album_Title Album_Path Album_Tracks].
  split; [done|]. split; [done|]. split; [done|].
  split; [by rewrite length_map|].
  intros i track Hi. exists (extractTrackLyrics htmlContent track).
  split; [by rewrite list_lookup_fmap, Hi|].
  destruct (extractTrackLyrics_fields htmlContent track)
    as (H1 & H2 & H3 & H4 & H5).
  repeat (split; [done|]).
  intros Hno. apply Index_None in Hno. unfold extractTrackLyrics.
  fold (lyricsID track). by rewrite Hno.
Qed.

End WithCodec.

(** X12.  A text that lacks the url key, or lacks the connective of two
    quoted pieces, goes through [fixJSON] unchanged. *)
Theorem fixJSON_identity s :
  Contains s connective = false \/ Contains s urlKey = false ->
  fixJSON s = s.
Proof. apply fixJSON_unchanged. Qed.

Lemma fixJSON_identity_witness :
  fixJSON ("name: " +:+ quoted "a" +:+ " + " +:+ quoted "b" +:+ ",")
  = "name: " +:+ quoted "a" +:+ " + " +:+ quoted "b" +:+ ",".
Proof. apply fixJSON_identity. right. vm_compute. reflexivity. Defined.

End PageFacts.

(** ** Release links *)

Module LinkFacts.
Import Strings Regexp Bandcamp StringFacts ParserFacts DiscographyFacts.
Import CatalogFacts PageFacts.

Lemma find_from_In r s : forall k cs,
  In cs (find_from r s k) ->
  exists t rest, Suffix t s /\ match_here r t = Some (rest, cs).
Proof.
  induction s as [|c s IH]; intros k cs; [done|]. simpl.
  assert (Hrec : forall k', In cs (find_from r s k') ->
            exists t rest, Suffix t (String c s)
                           /\ match_here r t = Some (rest, cs)).
  { intros k' H. destruct (IH _ _ H) as (t & rest & Ht & Hm).
    exists t, rest. split; [by apply Suffix_cons|done]. }
  destruct k as [|k]; [|apply Hrec].
  destruct (match_here r (String c s)) as [[rest cs']|] eqn:E; [|apply Hrec].
  destruct (_ - String.length rest); [apply Hrec|].
  intros [<-|H]; [|by eapply Hrec].
  exists (String c s), rest. split; [apply Suffix_refl|done].
Qed.

Lemma run_Str_caps lit s cs m :
  In m (run (Str lit) s cs) -> s = lit +:+ m.1 /\ m.2 = cs.
Proof.
  simpl. destruct (strip_prefix lit s) as [rest|] eqn:E; [|done].
  intros [<-|[]]. split; [by apply strip_prefix_Some|done].
Qed.

Lemma run_Grp_inv i r s cs m :
  In m (run (Grp i r) s cs) ->
  exists m1, In m1 (run r s cs) /\ m = (m1.1, (i, consumed s m1.1) :: m1.2).
Proof.
  simpl. rewrite in_map_iff. intros (m1 & <- & H). by exists m1.
Qed.

Lemma run_Alt_In r1 r2 s cs m :
  In m (run (Alt r1 r2) s cs) -> In m (run r1 s cs) \/ In m (run r2 s cs).
Proof. simpl. by rewrite in_app_iff. Qed.

Lemma run_PlusLazy_In p s cs m :
  In m (run (PlusLazy p) s cs) -> Suffix m.1 s.
Proof. intros H. by eapply run_Suffix. Qed.

Lemma take_app_plus a k : forall b,
  take (String.length a + k) (a +:+ b) = a +:+ take k b.
Proof.
  induction a as [|c a IH]; intros b; [done|].
  rewrite app_cons. simpl. by rewrite IH, app_cons.
Qed.

(** The text consumed up to [rest] starts with the literal the input starts
    with, when [rest] lies after it. *)
Lemma consumed_prefix lit s1 rest :
  Suffix rest s1 -> HasPrefix (consumed (lit +:+ s1) rest) lit = true.
Proof.
  intros Hs. pose proof (Suffix_length _ _ Hs). unfold consumed.
  rewrite length_app.
  replace (String.length lit + String.length s1 - String.length rest)
    with (String.length lit + (String.length s1 - String.length rest)) by lia.
  rewrite take_app_plus. apply HasPrefix_true. by eexists.
Qed.

(** The URL captured by the pattern of a listing page starts with the album
    or the track segment. *)
Lemma releaseLink_prefix t rest cs :
  match_here releaseLink t = Some (rest, cs) ->
  HasPrefix (group 1 cs) "/album/" = true
  \/ HasPrefix (group 1 cs) "/track/" = true.
Proof.
  intros H. apply head_In in H. unfold releaseLink in H.
  apply run_Cat_In in H as (m1 & H1 & H3).
  apply run_Grp_inv in H1 as (ma & Ha & ->).
  apply run_Grp_inv in H3 as (mq & Hq & [= -> ->]).
  assert (Hcaps : mq.2 = (1, consumed t ma.1) :: ma.2).
  { apply run_Alt_In in Hq as [Hq|Hq]; by apply run_Str_caps in Hq as [_ ?]. }
  rewrite Hcaps. cbn [group Nat.eqb].
  apply run_Cat_In in Ha as (ms & Hs & Hb).
  apply run_Str_caps in Hs as [Ht _].
  apply run_Cat_In in Hb as (mk & Hk & Hc).
  apply run_Grp_inv in Hk as (mw & Hw & ->).
  apply run_Cat_In in Hc as (ml & Hl & Hd).
  apply run_Str_caps in Hl as [Ht2 _]. cbn [fst] in Ht2.
  apply run_PlusLazy_In in Hd.
  apply run_Alt_In in Hw as [Hw|Hw]; apply run_Str_caps in Hw as [Hw _];
    rewrite Ht, Hw, Ht2.
  - left. apply (consumed_prefix "/album/" ml.1 ma.1 Hd).
  - right. apply (consumed_prefix "/track/" ml.1 ma.1 Hd).
Qed.

Lemma albumAnchor_prefix t rest cs :
  match_here albumAnchor t = Some (rest, cs) ->
  HasPrefix (group 1 cs) "/album/" = true.
Proof.
  intros H. apply head_In in H. unfold albumAnchor in H.
  apply run_Cat_In in H as (mh & Hh & H1).
  apply run_Cat_In in H1 as (m1 & H1 & Hq).
  apply run_Grp_inv in H1 as (ma & Ha & ->).
  apply run_Str_caps in Hq as [_ Hcs]. simpl in Hcs. subst cs.
  cbn [group Nat.eqb].
  apply run_Cat_In in Ha as (ms & Hs & Hd).
  apply run_Str_caps in Hs as [Ht _].
  apply run_PlusLazy_In in Hd. rewrite Ht.
  apply (consumed_prefix "/album/" ms.1 ma.1 Hd).
Qed.

Lemma links_prefix html u :
  u ∈ links html ->
  HasPrefix u "/album/" = true \/ HasPrefix u "/track/" = true.
Proof.
  intros Hu. apply list_elem_of_In in Hu. unfold links in Hu.
  apply in_map_iff in Hu as (cs & <- & Hcs).
  apply find_from_In in Hcs as (t & rest & _ & Hm).
  by eapply releaseLink_prefix.
Qed.

Lemma anchors_prefix html u :
  u ∈ anchors html -> HasPrefix u "/album/" = true.
Proof.
  intros Hu. apply list_elem_of_In in Hu. unfold anchors in Hu.
  apply in_map_iff in Hu as (cs & <- & Hcs).
  apply find_from_In in Hcs as (t & rest & _ & Hm).
  by eapply albumAnchor_prefix.
Qed.

Lemma first_seen_nonempty l : l <> [] -> first_seen [] l <> [].
Proof.
  destruct l as [|x l]; [done|]. intros _ H.
  assert (Hx : x ∈ first_seen [] (x :: l)).
  { apply elem_of_first_seen. split; [by left|by apply not_elem_of_nil]. }
  rewrite H in Hx. by apply not_elem_of_nil in Hx.
Qed.

Lemma GetAlbumURLs_Ok html urls :
  GetAlbumURLs html (Ok urls) ->
  urls <> []
  /\ NoDup urls
  /\ forall u, u ∈ urls ->
       HasPrefix u "/album/" = true \/ HasPrefix u "/track/" = true.
Proof.
  intros H. destruct (isSingleAlbumArtist html) eqn:Hm.
  - apply (GetAlbumURLs_single_iff _ _ Hm) in H.
    destruct (first_seen [] (anchors html)) as [|u [|v l]] eqn:E; try done.
    injection H as ->. split; [done|]. split; [apply NoDup_singleton|].
    intros x Hx. apply list_elem_of_singleton in Hx as ->. left.
    apply (anchors_prefix html).
    assert (Hu : u ∈ first_seen [] (anchors html)) by (rewrite E; by left).
    by apply elem_of_first_seen in Hu as [? _].
  - apply (GetAlbumURLs_listing_iff _ _ Hm) in H
      as [[_ [=]]|(Hne & l & [= <-] & Hp)].
    split; [|split].
    + intros ->. apply Permutation_nil_l in Hp.
      by apply (first_seen_nonempty _ Hne).
    + rewrite Hp. apply NoDup_first_seen.
    + intros u Hu. rewrite Hp in Hu.
      apply elem_of_first_seen in Hu as [Hu _]. by eapply links_prefix.
Qed.

(** X13.  Whatever order the map gives, a successful [GetAlbumURLs] returns
    at least one URL, no URL twice, and only URLs that start with the album
    or the track segment. *)
Theorem GetAlbumURLs_success html urls :
  GetAlbumURLs html (Ok urls) ->
  urls <> []
  /\ NoDup urls
  /\ forall u, u ∈ urls ->
       HasPrefix u "/album/" = true \/ HasPrefix u "/track/" = true.
Proof. apply GetAlbumURLs_Ok. Qed.

Lemma GetAlbumURLs_success_witness :
  GetAlbumURLs twoLinks (Ok ["/album/b"; "/album/a"])
  /\ NoDup ["/album/b"; "/album/a"].
Proof.
  assert (H : GetAlbumURLs twoLinks (Ok ["/album/b"; "/album/a"])).
  { apply GetAlbumURLs_listing_iff; [by vm_compute|]. right.
    split; [by vm_compute|]. eexists. split; [reflexivity|].
    replace (first_seen [] (links twoLinks)) with ["/album/a"; "/album/b"]
      by (by vm_compute).
    apply perm_swap. }
  split; [exact H|]. apply (GetAlbumURLs_success twoLinks _ H).
Defined.

End LinkFacts.

(** ** The manager: inputs and totals *)

Module InitializeFacts.
Import Strings Model Dto Bandcamp Config Download.
Import StringFacts DiscographyFacts ManagerFacts CatalogFacts LinkFacts.

Lemma app_inv_head (p a b : string) : p +:+ a = p +:+ b -> a = b.
Proof.
  induction p as [|c p IH]; [done|]. rewrite !app_cons. intros [= H].
  by apply IH.
Qed.

Lemma wrap_small bits x :
  (0 < bits)%Z -> (- 2 ^ (bits - 1) <= x < 2 ^ (bits - 1))%Z -> wrap bits x = x.
Proof.
  intros Hb Hx. unfold wrap.
  assert (H2 : (2 ^ bits = 2 * 2 ^ (bits - 1))%Z).
  { rewrite <- Z.pow_succ_r by lia. f_equal. lia. }
  rewrite Z.mod_small; lia.
Qed.

Lemma wrap_wrap bits x y :
  (0 < bits)%Z -> wrap bits (wrap bits x + y) = wrap bits (x + y).
Proof.
  intros Hb. unfold wrap. f_equal.
  replace ((x + 2 ^ (bits - 1)) mod 2 ^ bits - 2 ^ (bits - 1) + y
           + 2 ^ (bits - 1))%Z
    with ((x + 2 ^ (bits - 1)) mod 2 ^ bits + y)%Z by lia.
  rewrite Zplus_mod_idemp_l. f_equal. lia.
Qed.

Section Facts.
Context {P : Platform} {C : Codec} {E : Env}.
Variable settings : Settings.

Lemma parseInputURLs_from lines : forall acc u,
  u ∈ foldl (fun (urls : list string) (line : string) =>
               let line := strings_TrimSpace line in
               if negb (String.eqb line "")
                  && (HasPrefix line "http://" || HasPrefix line "https://")
               then (urls ++ [line])%list else urls) acc lines ->
  u ∈ acc
  \/ (u <> ""
      /\ (HasPrefix u "http://" = true \/ HasPrefix u "https://" = true)
      /\ exists line, line ∈ lines /\ u = strings_TrimSpace line).
Proof.
  induction lines as [|l lines IH]; intros acc u; simpl; [by left|].
  intros H. apply IH in H as [H|(Hne & Hp & line & Hin & Hu)].
  - cbv zeta in H.
    destruct (negb (String.eqb (strings_TrimSpace l) "")
              && (HasPrefix (strings_TrimSpace l) "http://"
                  || HasPrefix (strings_TrimSpace l) "https://")) eqn:Hc;
      [|by left].
    apply elem_of_app in H as [H|H]; [by left|].
    apply list_elem_of_singleton in H as ->. right.
    apply andb_true_iff in Hc as [Hne Hp]. split; [|split].
    + intros Heq. rewrite Heq in Hne. discriminate Hne.
    + by apply orb_true_iff in Hp.
    + exists l. split; [by left|done].
  - right. split; [done|]. split; [done|].
    exists line. split; [by right|done].
Qed.

(** X15.  Every URL [parseInputURLs] keeps is the trimmed text of a line of
    the input, is not empty and starts with the http or the https scheme;
    lines of any other kind are dropped. *)
Theorem parseInputURLs_kept input u :
  u ∈ parseInputURLs input ->
  u <> ""
  /\ (HasPrefix u "http://" = true \/ HasPrefix u "https://" = true)
  /\ exists line, line ∈ splitLines input /\ u = strings_TrimSpace line.
Proof.
  intros H. apply parseInputURLs_from in H as [H|H]; [|done].
  by apply not_elem_of_nil in H.
Qed.

(** X16.  A URL that fails to parse gives the parse error, and a URL whose
    path holds the album or the track segment, or any URL when discography
    download is off, resolves to itself; in all three cases nothing is
    fetched and the manager is left as it was. *)
Theorem getAlbumURLs_leaf inputURL m :
  (forall err, url_Parse inputURL = Err err ->
     getAlbumURLs settings inputURL m = (Err err, m))
  /\ (forall scheme host path,
        url_Parse inputURL = Ok (scheme, host, path) ->
        Contains path "/album/" || Contains path "/track/" = true
        \/ DownloadArtistDiscography settings = false ->
        getAlbumURLs settings inputURL m = (Ok [inputURL], m)).
Proof.
  split.
  - intros err H. unfold getAlbumURLs. by rewrite H.
  - intros scheme host path H Hleaf. unfold getAlbumURLs. rewrite H.
    destruct (Contains path "/album/" || Contains path "/track/"); [done|].
    destruct Hleaf as [Hl|Hd]; [done|]. by rewrite Hd.
Qed.

(** X17.  When the albums of an artist are discovered from the music page,
    the URLs returned are distinct, at least one, and each is the scheme and
    host of the input followed by a path that starts with the album or the
    track segment. *)
Theorem getAlbumURLs_discovered inputURL m scheme host path urls :
  url_Parse inputURL = Ok (scheme, host, path) ->
  Contains path "/album/" || Contains path "/track/" = false ->
  DownloadArtistDiscography settings = true ->
  (getAlbumURLs settings inputURL m).1 = Ok urls ->
  urls <> []
  /\ NoDup urls
  /\ forall u, u ∈ urls ->
       exists rel,
         u = scheme +:+ "://" +:+ host +:+ rel
         /\ (HasPrefix rel "/album/" = true \/ HasPrefix rel "/track/" = true).
Proof.
  intros Hparse Hleaf Hd. unfold getAlbumURLs. rewrite Hparse, Hleaf, Hd.
  cbn [negb]. rewrite bind_eq. cbn [call fst snd].
  destruct (http_GetString _ (world m)).1 as [html|e]; [|done].
  rewrite bind_eq. cbn [call fst snd world].
  match goal with
  | |- context [discography_GetAlbumURLs html ?w] =>
      pose proof (discography_GetAlbumURLs_ok html w) as Hlaw;
      destruct (discography_GetAlbumURLs html w).1 as [rels|e]; [|done]
  end.
  intros [= <-]. apply GetAlbumURLs_Ok in Hlaw as (Hne & Hnd & Hpre).
  split; [|split].
  - by destruct rels.
  - assert (Hinj : Inj (=) (=)
                     (fun relURL => scheme +:+ "://" +:+ host +:+ relURL)).
    { intros a b Hab. by do 3 apply app_inv_head in Hab. }
    by apply (NoDup_fmap_2 _).
  - intros u Hu. apply (list_elem_of_fmap_1 _) in Hu as (rel & -> & Hrel).
    exists rel. split; [done|]. by apply Hpre.
Qed.

(** *** Totals *)

(** The number of files of a list of albums: the tracks and one more for
    each album with artwork. *)
Fixpoint expectedFiles (l : list Album) : nat :=
  match l with
  | [] => 0
  | album :: rest =>
      length (Album_Tracks album) + (if HasArtwork album then 1 else 0)
      + expectedFiles rest
  end.

Lemma probe_totalFiles url m t k :
  totalFiles m = wrap 32 (t + k) ->
  totalFiles (probe url m).2 = wrap 32 (t + (k + 1)).
Proof.
  intros H. unfold probe. rewrite !bind_eq.
  assert (Hinc : totalFiles (incTotalFiles m).2 = wrap 32 (t + (k + 1))).
  { cbn [incTotalFiles snd totalFiles]. rewrite H, wrap_wrap by lia.
    f_equal. lia. }
  cbn [call fst snd].
  match goal with |- context [match ?x with _ => _ end] => destruct x end;
    exact Hinc.
Qed.

Lemma probeTracks_totalFiles tracks : forall m t k,
  totalFiles m = wrap 32 (t + k) ->
  totalFiles (probeTracks tracks m).2
  = wrap 32 (t + (k + Z.of_nat (length tracks))).
Proof.
  induction tracks as [|tr l IH]; intros m t k H; simpl probeTracks.
  - cbn [mret M_ret snd length]. rewrite H. f_equal. lia.
  - rewrite bind_eq. rewrite (IH _ t (k + 1)%Z).
    + f_equal. cbn [length]. lia.
    + by apply probe_totalFiles.
Qed.

Lemma calculateTotals_from_totalFiles l : forall m t k,
  totalFiles m = wrap 32 (t + k) ->
  totalFiles (calculateTotals_from l m).2
  = wrap 32 (t + (k + Z.of_nat (expectedFiles l))).
Proof.
  induction l as [|a l IH]; intros m t k H; simpl calculateTotals_from.
  - cbn [mret M_ret snd expectedFiles]. rewrite H. f_equal. lia.
  - rewrite !bind_eq.
    pose proof (probeTracks_totalFiles (Album_Tracks a) m t k H) as Ht.
    cbn [expectedFiles]. destruct (HasArtwork a).
    + rewrite (IH _ t (k + Z.of_nat (length (Album_Tracks a)) + 1)%Z).
      * f_equal. lia.
      * apply probe_totalFiles. exact Ht.
    + rewrite (IH _ t (k + Z.of_nat (length (Album_Tracks a)))%Z).
      * f_equal. lia.
      * cbn [mret M_ret snd]. exact Ht.
Qed.

Lemma probe_failing_totalBytes url m :
  (forall u w, exists err, (http_GetFileSize u w).1 = Err err) ->
  totalBytes (probe url m).2 = totalBytes m.
Proof.
  intros Hf. unfold probe. rewrite !bind_eq. cbn [call fst snd].
  match goal with
  | |- context [http_GetFileSize url ?w] => destruct (Hf url w) as [e ->]
  end.
  reflexivity.
Qed.

Lemma calculateTotals_from_failing l :
  (forall u w, exists err, (http_GetFileSize u w).1 = Err err) ->
  forall m, totalBytes (calculateTotals_from l m).2 = totalBytes m.
Proof.
  intros Hf. induction l as [|a l IH]; intros m; [done|].
  simpl calculateTotals_from. rewrite !bind_eq, IH.
  assert (Ht : forall tracks m',
            totalBytes (probeTracks tracks m').2 = totalBytes m').
  { induction tracks as [|tr ts IHt]; intros m'; [done|].
    simpl probeTracks. rewrite bind_eq, IHt. by apply probe_failing_totalBytes. }
  destruct (HasArtwork a).
  - by rewrite probe_failing_totalBytes, Ht.
  - cbn [mret M_ret snd]. apply Ht.
Qed.

(** X18.  [calculateTotals] counts one file for every track and one for
    every album with artwork (in 32 bits), reports nothing and changes no
    album; when every size probe fails the total of bytes stays as it
    was. *)
Theorem calculateTotals_counts m :
  (- 2 ^ 31 <= totalFiles m < 2 ^ 31)%Z ->
  let r := calculateTotals m in
  totalFiles r.2
  = wrap 32 (totalFiles m + Z.of_nat (expectedFiles (albums m)))
  /\ ((totalFiles m + Z.of_nat (expectedFiles (albums m)) < 2 ^ 31)%Z ->
      totalFiles r.2
      = (totalFiles m + Z.of_nat (expectedFiles (albums m)))%Z)
  /\ events r.2 = events m
  /\ albums r.2 = albums m
  /\ ((forall u w, exists err, (http_GetFileSize u w).1 = Err err) ->
      totalBytes r.2 = totalBytes m).
Proof.
  intros Hrange. cbv zeta.
  assert (Hcount : totalFiles (calculateTotals m).2
            = wrap 32 (totalFiles m + Z.of_nat (expectedFiles (albums m)))).
  { unfold calculateTotals.
    rewrite (calculateTotals_from_totalFiles _ m (totalFiles m) 0).
    - f_equal.
    - rewrite Z.add_0_r. symmetry. apply wrap_small; [lia|exact Hrange]. }
  split; [exact Hcount|]. split; [|split; [|split]].
  - intros Hsmall. rewrite Hcount. apply wrap_small; lia.
  - apply calculateTotals_events.
  - apply calculateTotals_albums.
  - intros Hf. unfold calculateTotals. by apply calculateTotals_from_failing.
Qed.

(** *** Initialisation only adds parsed albums *)

Lemma fetchAlbums_adds l : forall m,
  let r := fetchAlbums settings l m in
  albums m `prefix_of` albums r.2
  /\ forall a, a ∈ albums r.2 ->
       a ∈ albums m
       \/ exists html,
            ParseAlbumPage (ToPathConfig settings) (ToTrackConfig settings) html
            = Ok a.
Proof.
  induction l as [|u l IH]; intros m; cbv zeta.
  - split; [done|]. by left.
  - simpl fetchAlbums. rewrite !bind_eq. cbn [progress call fst snd world].
    destruct (http_GetString u _).1 as [html|e].
    + destruct (ParseAlbumPage _ _ html) as [album|e] eqn:Hp.
      * rewrite !bind_eq.
        match goal with
        | |- context [fetchAlbums settings l ?m'] =>
            destruct (IH m') as [Hpre Hin]
        end.
        cbn [addAlbum progress snd albums] in Hpre, Hin. split.
        -- etrans; [|exact Hpre]. by apply prefix_app_r.
        -- intros a Ha. apply Hin in Ha as [Ha|Ha]; [|by right].
           apply elem_of_app in Ha as [Ha|Ha]; [by left|].
           apply list_elem_of_singleton in Ha as ->. right. by exists html.
      * rewrite bind_eq.
        match goal with
        | |- context [fetchAlbums settings l ?m'] =>
            destruct (IH m') as [Hpre Hin]
        end.
        cbn [progress call snd albums] in Hpre, Hin. by split.
    + rewrite bind_eq.
      match goal with
      | |- context [fetchAlbums settings l ?m'] =>
          destruct (IH m') as [Hpre Hin]
      end.
      cbn [progress call snd albums] in Hpre, Hin. by split.
Qed.

(** X19.  [Initialize] only adds albums, after the ones the manager already
    holds, and every album it adds is what [ParseAlbumPage] made of some
    page. *)
Theorem Initialize_adds_parsed inputURLs m :
  let r := Initialize settings inputURLs m in
  albums m `prefix_of` albums r.2
  /\ forall a, a ∈ albums r.2 ->
       a ∈ albums m
       \/ exists html,
            ParseAlbumPage (ToPathConfig settings) (ToTrackConfig settings) html
            = Ok a.
Proof.
  cbv zeta. unfold Initialize. rewrite !bind_eq. cbn [mret M_ret snd].
  rewrite (calculateTotals_albums _).
  match goal with
  | |- context [fetchAlbums settings ?l ?m'] =>
      destruct (fetchAlbums_adds l m') as [Hpre Hin]
  end.
  rewrite (resolveInputs_albums settings _ _ m) in Hpre, Hin. by split.
Qed.

End Facts.
End InitializeFacts.

(** ** The manager: downloads *)

Module DownloadFacts.
Import Strings Model Dto Bandcamp Config Download.
Import StringFacts ManagerFacts InitializeFacts.

Section Facts.
Context {P : Platform} {C : Codec} {E : Env}.
Variable settings : Settings.

(** *** The counter and the error of one track *)

Lemma trackTries_error track : forall n tries err m e,
  (trackTries settings n tries track err m).1 = Some e ->
  err = Some e
  \/ exists w,
       (http_DownloadFile (Track_Mp3URL track) (Track_Path track) w).1 = Some e.
Proof.
  induction n as [|n IH]; intros tries err m e; simpl.
  - intros H. by left.
  - rewrite !bind_eq. cbn [observe call fst snd world].
    destruct (http_DownloadFile (Track_Mp3URL track) (Track_Path track) (world m)).1
      as [e'|] eqn:Hdl; [|done].
    rewrite !bind_eq. intros H. apply IH in H as [[= ->]|H]; [|by right].
    right. by exists (world m).
Qed.

Lemma trackTries_downloadedFiles track : forall n tries err m,
  downloadedFiles (trackTries settings n tries track err m).2
  = downloadedFiles m.
Proof.
  induction n as [|n IH]; intros tries err m; simpl; [done|].
  rewrite !bind_eq. cbn [observe call fst snd world].
  destruct (http_DownloadFile (Track_Mp3URL track) (Track_Path track) (world m)).1
    as [e'|]; [|done].
  rewrite !bind_eq, IH. reflexivity.
Qed.

Lemma transfer_counts track album artwork m :
  let r := transfer settings track album artwork m in
  match r.1 with
  | None => downloadedFiles r.2 = wrap 32 (downloadedFiles m + 1)
  | Some e =>
      downloadedFiles r.2 = downloadedFiles m
      /\ exists w,
           (http_DownloadFile (Track_Mp3URL track) (Track_Path track) w).1
           = Some e
  end.
Proof.
  cbv zeta. unfold transfer. rewrite bind_eq.
  pose proof (trackTries_downloadedFiles track
                (Z.to_nat (DownloadMaxRetries settings)) 0%Z None m) as Hc.
  pose proof (trackTries_error track
                (Z.to_nat (DownloadMaxRetries settings)) 0%Z None m) as He.
  destruct (trackTries settings (Z.to_nat (DownloadMaxRetries settings)) 0
              track None m).1 as [e|].
  - cbn [mret M_ret fst snd]. split; [exact Hc|].
    by destruct (He e eq_refl) as [?|?].
  - rewrite !bind_eq. cbn [progress mret M_ret fst snd downloadedFiles].
    destruct (ModifyTags settings
              || SaveCoverArtInTags settings
                 && match artwork with Some _ => true | None => false end).
    + rewrite bind_eq. cbn [call fst snd].
      match goal with |- context [match ?x with _ => _ end] => destruct x end;
        cbn [progress mret M_ret incDownloadedFiles snd downloadedFiles];
        by rewrite Hc.
    + cbn [mret M_ret incDownloadedFiles snd downloadedFiles]. by rewrite Hc.
Qed.

(** X20.  [downloadTrack] counts a file as downloaded exactly when it returns
    no error, in 32 bits, and an error it returns is the error of one of its
    transfers: a failed tagging is never returned. *)
Theorem downloadTrack_counts track album artwork m :
  let r := downloadTrack settings track album artwork m in
  match r.1 with
  | None => downloadedFiles r.2 = wrap 32 (downloadedFiles m + 1)
  | Some e =>
      downloadedFiles r.2 = downloadedFiles m
      /\ exists w,
           (http_DownloadFile (Track_Mp3URL track) (Track_Path track) w).1
           = Some e
  end.
Proof.
  cbv zeta. rewrite downloadTrack_cases.
  destruct (skipsAt settings track (world m)); [done|].
  apply (transfer_counts track album artwork
           (setWorld m (probed track (world m)))).
Qed.

(** X21.  With a retry limit of zero or less, [downloadTrack] makes no
    transfer at all and yet returns no error, counts the file as downloaded
    and reports it as downloaded. *)
Theorem downloadTrack_no_attempts track album artwork m :
  (DownloadMaxRetries settings <= 0)%Z ->
  skipsAt settings track (world m) = false ->
  let r := downloadTrack settings track album artwork m in
  r.1 = None
  /\ trace r.2 = trace m
  /\ downloadedFiles r.2 = wrap 32 (downloadedFiles m + 1)
  /\ exists evs, events r.2 = (evs ++ [downloadedEvent track])%list.
Proof.
  intros Hmax Hskip. cbv zeta. rewrite downloadTrack_cases, Hskip.
  unfold transfer. replace (Z.to_nat (DownloadMaxRetries settings)) with 0
    by lia.
  rewrite !bind_eq. cbn [trackTries mret M_ret fst snd].
  split; [done|].
  destruct (ModifyTags settings
            || SaveCoverArtInTags settings
               && match artwork with Some _ => true | None => false end).
  - rewrite !bind_eq. cbn [call fst snd].
    match goal with |- context [match ?x with _ => _ end] => destruct x end;
      cbn [progress mret M_ret incDownloadedFiles setWorld snd trace
           downloadedFiles events];
      (split; [done|]); (split; [done|]); by eexists.
  - cbn [progress mret M_ret incDownloadedFiles setWorld snd trace
         downloadedFiles events].
    split; [done|]. split; [done|]. by eexists.
Qed.

(** *** The summary of an album *)

Definition successEvent (album : Album) : ProgressEvent :=
  {| Message := "Successfully downloaded album: " +:+ Album_Title album;
     Level := LevelSuccess |}.

Definition partialEvent (album : Album) : ProgressEvent :=
  {| Message := "Finished " +:+ Album_Title album +:+ ", some tracks failed";
     Level := LevelWarning |}.

Lemma trackTask_count album artwork track sc m :
  (trackTask settings album artwork track sc m).1.2
  = match (downloadTrack settings track album artwork m).1 with
    | None => wrap 32 (sc + 1)
    | Some _ => sc
    end.
Proof.
  unfold trackTask. rewrite bind_eq.
  by destruct (downloadTrack settings track album artwork m).1.
Qed.

Lemma trackGroup_count album artwork tracks : forall sc m,
  (0 <= sc)%Z -> (sc + Z.of_nat (length tracks) < 2 ^ 31)%Z ->
  let g := errgroup (trackTask settings album artwork) tracks sc None m in
  (sc <= g.1.2 <= sc + Z.of_nat (length tracks))%Z
  /\ ((forall track m', track ∈ tracks ->
         (downloadTrack settings track album artwork m').1 = None) ->
      g.1.2 = (sc + Z.of_nat (length tracks))%Z)
  /\ ((exists track, track ∈ tracks
         /\ forall m', (downloadTrack settings track album artwork m').1 <> None) ->
      (g.1.2 < sc + Z.of_nat (length tracks))%Z).
Proof.
  induction tracks as [|t l IH]; intros sc m Hsc Hlen; cbv zeta.
  - simpl. split; [lia|]. split; [intros; lia|].
    intros (track & Hin & _). by apply not_elem_of_nil in Hin.
  - cbn [errgroup]. rewrite bind_eq, trackTask_result, trackTask_count.
    cbn [length] in *.
    destruct (downloadTrack settings t album artwork m).1 as [e|] eqn:Hd.
    + destruct (IH sc (trackTask settings album artwork t sc m).2)
        as (Hb & _ & _); [lia|lia|].
      split; [lia|]. split; [|intros _; lia].
      intros Hall. rewrite Hall in Hd; [done|by left].
    + rewrite wrap_small by lia.
      destruct (IH (sc + 1)%Z (trackTask settings album artwork t sc m).2)
        as (Hb & Hall & Hsome); [lia|lia|].
      split; [lia|]. split.
      * intros H. rewrite Hall; [lia|]. intros track m' Hin.
        apply H. by right.
      * intros (track & Hin & Hf).
        apply elem_of_cons in Hin as [->|Hin]; [by destruct (Hf m)|].
        assert (Hlt : ((errgroup (trackTask settings album artwork) l
                          (sc + 1) None
                          (trackTask settings album artwork t sc m).2).1.2
                       < sc + 1 + Z.of_nat (length l))%Z)
          by (apply Hsome; by exists track).
        lia.
Qed.

Lemma downloadAlbum_last album m :
  (os_MkdirAll (Album_Path album) (world m)).1 = None ->
  exists artwork m' evs,
    events (downloadAlbum settings album m).2
    = (evs ++ [if ((errgroup (trackTask settings album artwork)
                      (Album_Tracks album) 0 None m').1.2
                   =? Z.of_nat (length (Album_Tracks album)))%Z
               then successEvent album else partialEvent album])%list.
Proof.
  intros Hdir. unfold downloadAlbum. rewrite bind_eq. cbn [call fst].
  rewrite Hdir. rewrite !bind_eq.
  match goal with
  | |- context [errgroup (trackTask settings album ?a) _ _ _ ?m'] =>
      exists a, m'
  end.
  rewrite errgroup_keeps by (intros; apply trackTask_result).
  rewrite !bind_eq.
  match goal with
  | |- context [(?a =? ?b)%Z] => destruct (a =? b)%Z
  end; cbn [progress mret M_ret snd events]; by eexists.
Qed.

(** X22.  The last event of an album whose directory could be created is the
    success event when every track task ends without error, and the
    warning that some tracks failed when the task of some track always
    ends in error (for fewer than 2^31 tracks). *)
Theorem downloadAlbum_summary album m :
  (os_MkdirAll (Album_Path album) (world m)).1 = None ->
  (Z.of_nat (length (Album_Tracks album)) < 2 ^ 31)%Z ->
  let r := downloadAlbum settings album m in
  ((forall track artwork m', track ∈ Album_Tracks album ->
      (downloadTrack settings track album artwork m').1 = None) ->
   exists evs, events r.2 = (evs ++ [successEvent album])%list)
  /\ ((exists track, track ∈ Album_Tracks album
         /\ forall artwork m',
              (downloadTrack settings track album artwork m').1 <> None) ->
      exists evs, events r.2 = (evs ++ [partialEvent album])%list).
Proof.
  intros Hdir Hlen. cbv zeta.
  destruct (downloadAlbum_last album m Hdir) as (artwork & m' & evs & Hev).
  destruct (trackGroup_count album artwork (Album_Tracks album) 0%Z m')
    as (_ & Hall & Hsome); [lia|lia|].
  split.
  - intros H. exists evs. rewrite Hev, Hall, Z.eqb_refl; [done|].
    intros track m'' Hin. by apply H.
  - intros (track & Hin & Hf). exists evs. rewrite Hev.
    destruct (Z.eqb_spec
                (errgroup (trackTask settings album artwork)
                   (Album_Tracks album) 0%Z None m').1.2
                (Z.of_nat (length (Album_Tracks album)))) as [Heq|]; [|done].
    exfalso.
    assert (Hlt : ((errgroup (trackTask settings album artwork)
                      (Album_Tracks album) 0 None m').1.2
                   < 0 + Z.of_nat (length (Album_Tracks album)))%Z).
    { apply Hsome. exists track. split; [done|]. intros m''. apply Hf. }
    lia.
Qed.

(** *** The artwork *)

(** The waits of [n] failed attempts, the first with index [tries]. *)
Fixpoint waitsFrom (n : nat) (tries : Z) : list Action :=
  match n with
  | O => []
  | S n' => AWait (cooldownAt settings tries) :: waitsFrom n' (tries + 1)%Z
  end.

Lemma waitsFrom_map n : forall k,
  waitsFrom n (Z.of_nat k)
  = map (fun i => AWait (cooldownAt settings (Z.of_nat i))) (seq k n).
Proof.
  induction n as [|n IH]; intros k; [done|].
  cbn [waitsFrom seq map]. f_equal.
  replace (Z.of_nat k + 1)%Z with (Z.of_nat (S k)) by lia. apply IH.
Qed.

Lemma artworkTries_failing album :
  (forall w, exists e, (http_DownloadBytes (Album_ArtworkURL album) w).1 = Err e) ->
  forall n tries artwork err m,
    let r := artworkTries settings n tries album artwork err m in
    trace r.2 = (trace m ++ waitsFrom n tries)%list
    /\ events r.2 = events m
    /\ downloadedFiles r.2 = downloadedFiles m
    /\ (n <> 0 -> r.1.1 = None /\ r.1.2 <> None).
Proof.
  intros Hf. induction n as [|n IH]; intros tries artwork err m; simpl.
  - by rewrite List.app_nil_r.
  - rewrite !bind_eq. cbn [call fst snd world].
    destruct (Hf (world m)) as [e ->]. rewrite !bind_eq.
    match goal with
    | |- context [artworkTries settings n ?t album ?a ?e' ?m'] =>
        destruct (IH t a e' m') as (Htr & Hev & Hcnt & Hres)
    end.
    unfold waitForRetry in *. rewrite !bind_eq in *.
    cbn [observe call fst snd trace events downloadedFiles] in *.
    split; [|split; [|split]].
    + rewrite Htr, <- List.app_assoc. reflexivity.
    + exact Hev.
    + exact Hcnt.
    + intros _. destruct n as [|n']; [done|]. by apply Hres.
Qed.

(** X23.  When every attempt at the artwork fails, [downloadArtwork] makes
    as many attempts as the retry limit, waits after each one with the
    cooldown times the exponent to the number of earlier attempts, returns
    no artwork and an error, reports nothing itself and counts no file. *)
Theorem downloadArtwork_failing album m :
  (1 <= DownloadMaxRetries settings)%Z ->
  (forall w, exists e, (http_DownloadBytes (Album_ArtworkURL album) w).1 = Err e) ->
  let r := downloadArtwork settings album m in
  r.1.1 = None
  /\ r.1.2 <> None
  /\ trace r.2
     = (trace m
        ++ map (fun i => AWait (cooldownAt settings (Z.of_nat i)))
               (seq 0 (Z.to_nat (DownloadMaxRetries settings))))%list
  /\ events r.2 = events m
  /\ downloadedFiles r.2 = downloadedFiles m.
Proof.
  intros Hmax Hf. cbv zeta. unfold downloadArtwork. rewrite bind_eq.
  destruct (artworkTries_failing album Hf
              (Z.to_nat (DownloadMaxRetries settings)) 0%Z None None m)
    as (Htr & Hev & Hcnt & Hres).
  destruct Hres as [_ Hres]; [lia|].
  destruct (artworkTries settings (Z.to_nat (DownloadMaxRetries settings)) 0
              album None None m).1.2 as [e|]; [|done].
  cbn [mret M_ret fst snd]. rewrite Htr, (waitsFrom_map _ 0). done.
Qed.

(** *** The backoff *)

Lemma waitForRetry_trace tries m :
  trace (waitForRetry settings tries m).2
  = (trace m ++ [AWait (cooldownAt settings tries)])%list.
Proof. unfold waitForRetry. by rewrite bind_eq. Qed.

Lemma cooldownAt_mono tries tries' :
  (0 <= DownloadRetryCooldown settings)%Q ->
  (1 <= DownloadRetryExponent settings)%Q ->
  (tries <= tries')%Z ->
  (cooldownAt settings tries <= cooldownAt settings tries')%Q.
Proof.
  intros Hc Hx Ht. unfold cooldownAt.
  rewrite !(Qmult_comm (DownloadRetryCooldown settings)).
  apply Qmult_le_compat_r; [|exact Hc].
  by apply Qpower_le_compat_l.
Qed.

(** X24.  With a cooldown that is not negative and an exponent of at least
    one, the wait [waitForRetry] makes after more failed attempts is never
    shorter. *)
Theorem waitForRetry_monotone tries tries' m m' :
  (0 <= DownloadRetryCooldown settings)%Q ->
  (1 <= DownloadRetryExponent settings)%Q ->
  (tries <= tries')%Z ->
  exists c c',
    trace (waitForRetry settings tries m).2 = (trace m ++ [AWait c])%list
    /\ trace (waitForRetry settings tries' m').2
       = (trace m' ++ [AWait c'])%list
    /\ (c <= c')%Q.
Proof.
  intros Hc Hx Ht.
  exists (cooldownAt settings tries), (cooldownAt settings tries').
  split; [apply waitForRetry_trace|]. split; [apply waitForRetry_trace|].
  by apply cooldownAt_mono.
Qed.

End Facts.
End DownloadFacts.

(** ** Playlists and dates *)

Module AudioFacts.
Import Strings Audio StringFacts SanitizeFacts.

(** The characters [escapeXML] replaces, and the four of them that its
    replacements do not contain. *)
Definition special : string := "&<>'" +:+ dq.
Definition markup : string := "<>'" +:+ dq.

Lemma ReplaceAll_cons c0 new c s :
  ReplaceAll (String c s) (String c0 "") new
  = (if Ascii.eqb c0 c then new else String c "")
    +:+ ReplaceAll s (String c0 "") new.
Proof.
  unfold ReplaceAll. cbn [ReplaceAll_from]. unfold HasPrefix.
  cbn [strip_prefix]. destruct (Ascii.eqb c0 c); reflexivity.
Qed.

Lemma ReplaceAll_app c0 new a b :
  ReplaceAll (a +:+ b) (String c0 "") new
  = ReplaceAll a (String c0 "") new +:+ ReplaceAll b (String c0 "") new.
Proof.
  induction a as [|c a IH]; [done|].
  by rewrite app_cons, !ReplaceAll_cons, IH, app_assoc.
Qed.

Lemma escapeXML_app a b : escapeXML (a +:+ b) = escapeXML a +:+ escapeXML b.
Proof. unfold escapeXML, dq. cbv zeta. by rewrite !ReplaceAll_app. Qed.

Lemma escapeXML_char_markup c :
  Every (fun x => mem x markup = false) (escapeXML (String c "")).
Proof.
  destruct c as [[] [] [] [] [] [] [] []]; vm_compute; tauto.
Qed.

Lemma escapeXML_char_clean c :
  mem c special = false -> escapeXML (String c "") = String c "".
Proof.
  destruct c as [[] [] [] [] [] [] [] []]; intros H;
    first [reflexivity | vm_compute in H; discriminate H].
Qed.

(** X25.  [escapeXML] works character by character: the escape of a
    concatenation is the concatenation of the escapes, so the ampersand of
    an entity it has written is never escaped again. *)
Theorem escapeXML_concat a b :
  escapeXML (a +:+ b) = escapeXML a +:+ escapeXML b.
Proof. apply escapeXML_app. Qed.

(** X26.  Whatever the input, the output of [escapeXML] holds none of the
    characters < > apostrophe double-quote. *)
Theorem escapeXML_no_markup s :
  Every (fun c => mem c markup = false) (escapeXML s).
Proof.
  induction s as [|c s IH]; [done|].
  change (String c s) with (String c "" +:+ s). rewrite escapeXML_app.
  apply Every_app; [apply escapeXML_char_markup|exact IH].
Qed.

(** X27.  A text with none of the five characters & < > apostrophe
    double-quote is returned as it is. *)
Theorem escapeXML_clean s :
  Every (fun c => mem c special = false) s -> escapeXML s = s.
Proof.
  induction s as [|c s IH]; [done|]. intros [Hc Hs].
  change (String c s) with (String c "" +:+ s) at 1. rewrite escapeXML_app.
  by rewrite (escapeXML_char_clean c Hc), IH.
Qed.

Lemma escapeXML_clean_witness : escapeXML "Abbey Road" = "Abbey Road".
Proof. apply escapeXML_clean. vm_compute. tauto. Defined.

End AudioFacts.

Module TimeFacts.
Import Model BandcampTime.

Section Facts.
Context {P : Platform}.
Variable json_String : string -> result string.
Variable time_Parse : string -> string -> result Time.

Lemma tryFormats_Some layouts s t :
  tryFormats time_Parse layouts s = Some t ->
  exists before format after,
    layouts = (before ++ format :: after)%list
    /\ time_Parse format s = Ok t
    /\ forall f, f ∈ before -> exists e, time_Parse f s = Err e.
Proof.
  induction layouts as [|f l IH]; [done|]. simpl.
  destruct (time_Parse f s) as [t'|e] eqn:Hf.
  - intros [= ->]. exists [], f, l. split; [done|]. split; [done|].
    intros f' Hin. by apply not_elem_of_nil in Hin.
  - intros H. apply IH in H as (before & format & after & -> & Hok & Hfail).
    exists (f :: before), format, after. split; [done|]. split; [done|].
    intros f' Hin. apply elem_of_cons in Hin as [->|Hin]; [by exists e|].
    by apply Hfail.
Qed.

Lemma tryFormats_None layouts s :
  tryFormats time_Parse layouts s = None ->
  forall f, f ∈ layouts -> exists e, time_Parse f s = Err e.
Proof.
  induction layouts as [|f l IH]; simpl.
  - intros _ f Hin. by apply not_elem_of_nil in Hin.
  - destruct (time_Parse f s) as [t'|e] eqn:Hf; [done|].
    intros H f' Hin. apply elem_of_cons in Hin as [->|Hin]; [by exists e|].
    by apply IH.
Qed.

(** X29.  For data that decodes to a string, [UnmarshalJSON] gives the zero
    time for the empty string; for any other string it gives the time of
    the first layout, in the order of the list, that parses it, and fails
    with the message that the date cannot be parsed only when no layout
    does. *)
Theorem UnmarshalJSON_cases data s :
  json_String data = Ok s ->
  match UnmarshalJSON json_String time_Parse data with
  | Ok t =>
      (s = "" /\ t = time_zero)
      \/ (s <> ""
          /\ exists before format after,
               formats = (before ++ format :: after)%list
               /\ time_Parse format s = Ok t
               /\ forall f, f ∈ before -> exists e, time_Parse f s = Err e)
  | Err e =>
      s <> ""
      /\ e = errors_New ("unable to parse date: " +:+ s)
      /\ forall f, f ∈ formats -> exists e', time_Parse f s = Err e'
  end.
Proof.
  intros Hs. unfold UnmarshalJSON. rewrite Hs.
  destruct (String.eqb_spec s "") as [->|Hne]; [by left|].
  destruct (tryFormats time_Parse formats s) as [t|] eqn:Ht.
  - right. split; [done|]. by apply tryFormats_Some.
  - split; [done|]. split; [done|]. by apply tryFormats_None.
Qed.

End Facts.
End TimeFacts.

(** ** Instances of the further properties *)

Module FurtherExamples.
Import Strings Regexp Model Dto Bandcamp Config Download Sample.
Import StringFacts ParserFacts DiscographyFacts ManagerFacts Examples.
Import CatalogFacts PageFacts LinkFacts InitializeFacts DownloadFacts.

(** The sample surroundings, except that every page fetched is the listing
    [twoLinks]. *)
Definition listingEnv : Env.
Proof.
  refine {|
    World := state;
    url_Parse := fun s => Ok ("https", "h", s);
    http_GetString := fun url w => (Ok twoLinks, w);
    http_GetFileSize := http_GetFileSize (Env := env);
    http_DownloadFile := http_DownloadFile (Env := env);
    http_DownloadBytes := http_DownloadBytes (Env := env);
    os_MkdirAll := os_MkdirAll (Env := env);
    os_Stat := os_Stat (Env := env);
    os_WriteFile := os_WriteFile (Env := env);
    tagger_SaveTags := tagger_SaveTags (Env := env);
    playlist_CreatePlaylist := playlist_CreatePlaylist (Env := env);
    imageService_ResizeImage := imageService_ResizeImage (Env := env);
    imageService_ConvertToJPEG := imageService_ConvertToJPEG (Env := env);
    filepath_Base := filepath_Base (Env := env);
    wait := wait (Env := env);
    cancel := cancel (Env := env);
    discography_GetAlbumURLs := fun html w => (resolve html, w);
  |}.
  intros html w. exact (discography_GetAlbumURLs_ok (Env := env) html w).
Defined.

(** Two lines of input: an album URL between spaces, and a line that is no
    URL. *)
Definition twoLines : string :=
  " https://a.bandcamp.com/album/x " +:+ String "010"%char "not a url".

Lemma limitFilePath_cases_witness :
  limitFilePath (P := platform) "/music" "cover" ".jpg" "/music/cover.jpg"
  = "/music/cover.jpg".
Proof.
  apply (proj1 (limitFilePath_cases (P := platform) "/music" "cover" ".jpg"
                  "/music/cover.jpg")).
  simpl. lia.
Defined.

(** The decoded record of the sample with an art id. *)
Definition withArt : JSONAlbum :=
  {| AlbumData := AlbumData decoded;
     ArtID := Some 123%Z;
     Artist := Artist decoded;
     ReleaseDate := ReleaseDate decoded;
     Tracks := Tracks decoded |}.

Lemma ToAlbum_artwork_witness :
  HasArtwork (ToAlbum (P := platform) decoded (ToPathConfig sampleSettings)
                (ToTrackConfig sampleSettings)) = false
  /\ HasArtwork (ToAlbum (P := platform) withArt (ToPathConfig sampleSettings)
                   (ToTrackConfig sampleSettings)) = true
  /\ Album_ArtworkURL (ToAlbum (P := platform) withArt
                         (ToPathConfig sampleSettings)
                         (ToTrackConfig sampleSettings))
     = "https://f4.bcbits.com/img/a0000000123_0.jpg"
  /\ exists u,
       NilEmpty.uint_of_string "0000000123" = Some u /\ Z.of_uint u = 123%Z.
Proof.
  destruct (ToAlbum_artwork (P := platform) decoded
              (ToPathConfig sampleSettings) (ToTrackConfig sampleSettings))
    as [Hnone _].
  destruct (ToAlbum_artwork (P := platform) withArt
              (ToPathConfig sampleSettings) (ToTrackConfig sampleSettings))
    as [_ Hsome].
  split; [apply Hnone; reflexivity|].
  destruct (Hsome 123%Z eq_refl) as (Hart & digits & Hurl & Hdec).
  split; [exact Hart|]. split; [vm_compute; reflexivity|].
  eexists. split; vm_compute; reflexivity.
Defined.

Lemma extractAlbumData_cases_witness :
  extractAlbumData (C := codec) "<html></html>"
  = Err (errors_New "could not find album data in HTML").
Proof.
  apply (proj1 (extractAlbumData_cases (C := codec) "<html></html>")).
  vm_compute. reflexivity.
Defined.

Lemma ParseAlbumPage_no_blob_witness :
  ParseAlbumPage (C := codec) (ToPathConfig sampleSettings)
    (ToTrackConfig sampleSettings) "<html></html>"
  = Err (Wrapped "could not retrieve album data"
           (errors_New "could not find album data in HTML")).
Proof.
  apply (ParseAlbumPage_no_blob (C := codec) (ToPathConfig sampleSettings)
           (ToTrackConfig sampleSettings) "<html></html>").
  vm_compute. reflexivity.
Defined.

Lemma parseInputURLs_kept_witness :
  parseInputURLs (C := codec) twoLines = ["https://a.bandcamp.com/album/x"]
  /\ HasPrefix "https://a.bandcamp.com/album/x" "https://" = true.
Proof.
  assert (Hl : parseInputURLs (C := codec) twoLines
               = ["https://a.bandcamp.com/album/x"])
    by (vm_compute; reflexivity).
  split; [exact Hl|].
  destruct (parseInputURLs_kept (C := codec) twoLines
              "https://a.bandcamp.com/album/x") as (_ & [H|H] & _).
  - rewrite Hl. apply elem_of_cons. left. reflexivity.
  - vm_compute in H. discriminate H.
  - exact H.
Defined.

Lemma getAlbumURLs_leaf_witness :
  getAlbumURLs (E := env) sampleSettings "https://h/album/x"
    (fresh env [] start)
  = (Ok ["https://h/album/x"], fresh env [] start).
Proof.
  apply (proj2 (getAlbumURLs_leaf (E := env) sampleSettings
                  "https://h/album/x" (fresh env [] start))
           "https" "h" "https://h/album/x").
  - reflexivity.
  - left. vm_compute. reflexivity.
Defined.

Lemma getAlbumURLs_discovered_witness :
  exists urls,
    (getAlbumURLs (E := listingEnv) discographySettings "https://h/music"
       (fresh listingEnv [] start)).1 = Ok urls
    /\ urls <> []
    /\ NoDup urls.
Proof.
  eexists. split; [vm_compute; reflexivity|].
  destruct (getAlbumURLs_discovered (E := listingEnv) discographySettings
              "https://h/music" (fresh listingEnv [] start)
              "https" "h" "https://h/music"
              ["https://h/album/a"; "https://h/album/b"])
    as (Hne & Hnd & _); [vm_compute; reflexivity..|].
  split; [exact Hne|exact Hnd].
Defined.

Lemma calculateTotals_counts_witness :
  totalFiles (calculateTotals (E := env) (fresh env [sampleAlbum] start)).2
  = 4%Z.
Proof.
  destruct (calculateTotals_counts (E := env) (fresh env [sampleAlbum] start))
    as (_ & H & _); [simpl; lia|].
  rewrite H; vm_compute; reflexivity.
Defined.

Lemma downloadTrack_no_attempts_witness :
  (downloadTrack (E := env) noRetrySettings trackOne sampleAlbum None
     (fresh env [] start)).1 = None
  /\ trace (downloadTrack (E := env) noRetrySettings trackOne sampleAlbum None
              (fresh env [] start)).2 = [].
Proof.
  destruct (downloadTrack_no_attempts (E := env) noRetrySettings trackOne
              sampleAlbum None (fresh env [] start))
    as (Hres & Htr & _).
  - vm_compute. discriminate.
  - vm_compute. reflexivity.
  - split; [exact Hres|exact Htr].
Defined.

Lemma downloadAlbum_summary_witness :
  exists evs,
    events (downloadAlbum (E := env) sampleSettings sampleAlbum
              (fresh env [] start)).2
    = (evs ++ [partialEvent sampleAlbum])%list.
Proof.
  apply (proj2 (downloadAlbum_summary (E := env) sampleSettings sampleAlbum
                  (fresh env [] start) eq_refl eq_refl)).
  exists trackOne. split.
  - vm_compute. apply elem_of_cons. left. reflexivity.
  - intros artwork m'.
    apply (downloadTrack_failing (E := env) sampleSettings trackOne sampleAlbum
             artwork m').
    + vm_compute. discriminate.
    + intros w. vm_compute. reflexivity.
    + intros w. vm_compute. discriminate.
Defined.

Lemma downloadArtwork_failing_witness :
  (downloadArtwork (E := offlineEnv) sampleSettings sampleAlbum
     (fresh offlineEnv [] start)).1.1 = None
  /\ length (trace (downloadArtwork (E := offlineEnv) sampleSettings sampleAlbum
                      (fresh offlineEnv [] start)).2) = 7.
Proof.
  destruct (downloadArtwork_failing (E := offlineEnv) sampleSettings sampleAlbum
              (fresh offlineEnv [] start))
    as (Hres & _ & Htr & _).
  - vm_compute. discriminate.
  - intros w. exists (External "HTTP 503"). reflexivity.
  - split; [exact Hres|]. rewrite Htr. vm_compute. reflexivity.
Defined.

Lemma waitForRetry_monotone_witness :
  exists c c',
    trace (waitForRetry (E := env) sampleSettings 0 (fresh env [] start)).2
    = [AWait c]
    /\ trace (waitForRetry (E := env) sampleSettings 1 (fresh env [] start)).2
       = [AWait c']
    /\ (c <= c')%Q.
Proof.
  apply (waitForRetry_monotone (E := env) sampleSettings 0 1
           (fresh env [] start) (fresh env [] start)).
  - vm_compute. discriminate.
  - vm_compute. discriminate.
  - lia.
Defined.

Lemma UnmarshalJSON_cases_witness :
  BandcampTime.UnmarshalJSON (P := platform) (fun data => Ok data)
    (fun layout value => Err (External "cannot parse")) "soon"
  = Err (errors_New "unable to parse date: soon").
Proof.
  pose proof (TimeFacts.UnmarshalJSON_cases (P := platform)
                (fun data => Ok data)
                (fun layout value => Err (External "cannot parse"))
                "soon" "soon" eq_refl) as H.
  destruct (BandcampTime.UnmarshalJSON (P := platform) (fun data => Ok data)
              (fun layout value => Err (External "cannot parse")) "soon")
    as [t|e].
  - destruct H as [[H _]|(_ & before & format & after & _ & H & _)];
      discriminate H.
  - destruct H as (_ & -> & _). reflexivity.
Defined.

End FurtherExamples.
